(** * Retro Tournament: stream server and MSE stream player

    A shallow embedding of the two halves of the relay:

    - [Server]: [server/src/index.ts] (the WebSocket hub) together with
      [server/src/capture/screenCapture.ts] (the [ScreenCapture] class
      that owns the ffmpeg child process);
    - [Client]: [client/src/hooks/useStreamPlayer.ts] (the React hook
      that feeds a Media Source Extensions [SourceBuffer]) and the
      status line of [StreamViewer.tsx].

    Both programs are single-threaded event loops.  Every callback of
    the source is a function on an explicit state; the objects of the
    platform (child processes, sockets, the decode buffer) are part of
    that state, and every call made to them is appended to a log so
    that statements such as "stop() is called" or "appendBuffer is
    never called twice in a row" can be read off the log.

    What the platform decides (whether a socket is open, whether the
    decode buffer has room, which time ranges it reports) is an input
    of the event.  Media time is a JavaScript number, that is an IEEE
    754 binary64 value, and differences, sums and comparisons are
    those of that format.  On the client every source buffer has an
    identity: an 'updateend' event names the buffer that fires it, and
    its listener works on that buffer, which need not be the one
    [sourceBufferRef] holds by then. *)

From Stdlib Require Import List Bool Arith ZArith Lia.
From Stdlib Require Import Floats.
From Stdlib.Strings Require Import Byte.
From Stdlib.Strings Require String.
From Stdlib.Numbers Require DecimalString.
Import ListNotations.

Set Implicit Arguments.

(** A decimal literal stands for the nearest binary64 value, as it does
    in JavaScript. *)
Set Warnings "-inexact-float".

(* ================================================================== *)
(** * Server side *)
(* ================================================================== *)

Module Server.

Local Open Scope nat_scope.

(** Identity of a [WebSocket] object handed to the 'connection' callback. *)
Definition WebSocket := nat.

(** Identity of a [ChildProcess] returned by [spawn]: its rank in
    spawn order, which is also its index in the process table. *)
Definition Pid := nat.

(** A chunk of ffmpeg's stdout. *)
Definition Buffer := list byte.

(** [WebSocket.readyState]. *)
Inductive ReadyState := CONNECTING | OPEN | CLOSING | CLOSED.

Definition isOPEN (r : ReadyState) : bool :=
  match r with OPEN => true | _ => false end.

(** Life cycle of an ffmpeg process as the event loop sees it:
    [Alive] from [spawn] on, [Terminating] once SIGTERM has been sent,
    [Closed] once its 'close' event has been delivered. *)
Inductive ProcStatus := Alive | Terminating | Closed.

Definition ProcStatus_eqb (a b : ProcStatus) : bool :=
  match a, b with
  | Alive, Alive | Terminating, Terminating | Closed, Closed => true
  | _, _ => false
  end.

(** Calls made by the server to its collaborators, oldest first. *)
Inductive Effect :=
| Spawn (p : Pid)                         (* spawn('ffmpeg', args)        *)
| Kill (p : Pid)                          (* this.ffmpeg.kill('SIGTERM')  *)
| Send (ws : WebSocket) (chunk : Buffer)  (* client.send(chunk)           *)
| CallStart                               (* screenCapture.start()        *)
| CallStop.                               (* screenCapture.stop()         *)

(** The fields of [class ScreenCapture]. *)
Record ScreenCapture := mkScreenCapture {
  ffmpeg : option Pid;     (* private ffmpeg: ChildProcess | null = null *)
  isRunning : bool         (* private isRunning = false                  *)
}.

(** The variables of [main()] plus the platform state they act on. *)
Record State := mkState {
  clients : list WebSocket;        (* new Set<WebSocket>(), insertion order *)
  isCapturing : bool;              (* let isCapturing = false               *)
  screenCapture : ScreenCapture;   (* new ScreenCapture(CAPTURE_OPTIONS)    *)
  procs : list ProcStatus;         (* every process spawned so far          *)
  accepted : list WebSocket;       (* sockets whose 'connection' has fired  *)
  closed : list WebSocket;         (* sockets whose 'close' has fired       *)
  log : list Effect
}.

Definition init : State :=
  {| clients := []; isCapturing := false;
     screenCapture := {| ffmpeg := None; isRunning := false |};
     procs := []; accepted := []; closed := []; log := [] |}.

(** ** [Set] operations *)

Definition mem (ws : WebSocket) (l : list WebSocket) : bool :=
  existsb (Nat.eqb ws) l.

(** [clients.add(ws)] *)
Definition add (ws : WebSocket) (l : list WebSocket) : list WebSocket :=
  if mem ws l then l else l ++ [ws].

(** [clients.delete(ws)] *)
Definition delete (ws : WebSocket) (l : list WebSocket) : list WebSocket :=
  filter (fun x => negb (Nat.eqb x ws)) l.

Arguments add : simpl never.
Arguments delete : simpl never.

(** ** State updates *)

Definition set_clients (f : list WebSocket -> list WebSocket) (s : State) :=
  {| clients := f (clients s); isCapturing := isCapturing s;
     screenCapture := screenCapture s; procs := procs s;
     accepted := accepted s; closed := closed s; log := log s |}.

Definition set_isCapturing (b : bool) (s : State) :=
  {| clients := clients s; isCapturing := b;
     screenCapture := screenCapture s; procs := procs s;
     accepted := accepted s; closed := closed s; log := log s |}.

Definition set_screenCapture (c : ScreenCapture) (s : State) :=
  {| clients := clients s; isCapturing := isCapturing s;
     screenCapture := c; procs := procs s;
     accepted := accepted s; closed := closed s; log := log s |}.

Definition set_procs (f : list ProcStatus -> list ProcStatus) (s : State) :=
  {| clients := clients s; isCapturing := isCapturing s;
     screenCapture := screenCapture s; procs := f (procs s);
     accepted := accepted s; closed := closed s; log := log s |}.

Definition mark_accepted (ws : WebSocket) (s : State) :=
  {| clients := clients s; isCapturing := isCapturing s;
     screenCapture := screenCapture s; procs := procs s;
     accepted := ws :: accepted s; closed := closed s; log := log s |}.

Definition mark_closed (ws : WebSocket) (s : State) :=
  {| clients := clients s; isCapturing := isCapturing s;
     screenCapture := screenCapture s; procs := procs s;
     accepted := accepted s; closed := ws :: closed s; log := log s |}.

Definition emit (e : Effect) (s : State) :=
  {| clients := clients s; isCapturing := isCapturing s;
     screenCapture := screenCapture s; procs := procs s;
     accepted := accepted s; closed := closed s; log := log s ++ [e] |}.

(** Replace the status of process [p] in the table. *)
Fixpoint set_status (p : Pid) (st : ProcStatus) (l : list ProcStatus) :=
  match l, p with
  | [], _ => []
  | _ :: l', O => st :: l'
  | x :: l', S p' => x :: set_status p' st l'
  end.

(** [child.kill('SIGTERM')]: a live process starts terminating; a
    process that is already on its way out or gone is left as it is. *)
Definition sigterm (p : Pid) (l : list ProcStatus) : list ProcStatus :=
  match nth_error l p with
  | Some Alive => set_status p Terminating l
  | _ => l
  end.

(** ** [ScreenCapture] *)

(** [start()]: returns at once when [isRunning]; otherwise spawns
    ffmpeg, stores the handle and sets [isRunning]. *)
Definition start (s : State) : State :=
  if isRunning (screenCapture s) then s
  else
    let p := length (procs s) in
    set_screenCapture {| ffmpeg := Some p; isRunning := true |}
      (emit (Spawn p) (set_procs (fun l => l ++ [Alive]) s)).

(** [stop()]: guarded by the handle, not by [isRunning]. *)
Definition stop (s : State) : State :=
  match ffmpeg (screenCapture s) with
  | Some p =>
      set_screenCapture {| ffmpeg := None; isRunning := false |}
        (emit (Kill p) (set_procs (sigterm p) s))
  | None => s
  end.

(** The listener [this.ffmpeg.on('close', ...)] installed by [start()]:
    it writes [this.isRunning] and re-emits 'close'; the handle is not
    touched. *)
Definition ffmpeg_on_close (s : State) : State :=
  set_screenCapture
    {| ffmpeg := ffmpeg (screenCapture s); isRunning := false |} s.

(** The listener [this.ffmpeg.on('error', ...)]: same shape. *)
Definition ffmpeg_on_error (s : State) : State :=
  set_screenCapture
    {| ffmpeg := ffmpeg (screenCapture s); isRunning := false |} s.

(** ** [main()] handlers *)

(** [screenCapture.on('data', chunk => clients.forEach(...))]:
    [readyState] is the state of each socket when the chunk arrives. *)
Definition broadcast (readyState : WebSocket -> ReadyState)
    (chunk : Buffer) (s : State) : State :=
  fold_left
    (fun acc client =>
       if isOPEN (readyState client) then emit (Send client chunk) acc
       else acc)
    (clients s) s.

(** [screenCapture.on('close', code => { isCapturing = false })] *)
Definition capture_on_close (s : State) : State := set_isCapturing false s.

(** [screenCapture.on('error', ...)] only logs to the console. *)
Definition capture_on_error (s : State) : State := s.

(** [wss.on('connection', ws => ...)] up to the registration of the
    per-socket listeners. *)
Definition on_connection (ws : WebSocket) (s : State) : State :=
  let s1 := set_clients (add ws) s in
  if negb (isCapturing s1)
  then set_isCapturing true (start (emit CallStart s1))
  else s1.

(** [ws.on('close', ...)] *)
Definition ws_on_close (ws : WebSocket) (s : State) : State :=
  let s1 := set_clients (delete ws) s in
  if (length (clients s1) =? 0) && isCapturing s1
  then set_isCapturing false (stop (emit CallStop s1))
  else s1.

(** [ws.on('error', ...)] *)
Definition ws_on_error (ws : WebSocket) (s : State) : State :=
  set_clients (delete ws) s.

(** ** Events of the event loop *)

Inductive Event :=
| Connection (ws : WebSocket)
| WsClose (ws : WebSocket)
| WsError (ws : WebSocket)
| FfmpegData (p : Pid) (chunk : Buffer) (readyState : WebSocket -> ReadyState)
| FfmpegClose (p : Pid) (code : option Z)
| FfmpegError (p : Pid).

(** Dispatch: the platform part of the event (a socket or process
    changing status) followed by the listeners registered for it. *)
Definition handle (e : Event) (s : State) : State :=
  match e with
  | Connection ws => on_connection ws (mark_accepted ws s)
  | WsClose ws => ws_on_close ws (mark_closed ws s)
  | WsError ws => ws_on_error ws s
  | FfmpegData _ chunk rs => broadcast rs chunk s
  | FfmpegClose p _ =>
      capture_on_close (ffmpeg_on_close (set_procs (set_status p Closed) s))
  | FfmpegError _ => capture_on_error (ffmpeg_on_error s)
  end.

(** Which events the platform can deliver in a state: a socket
    connects once, errs or closes only after connecting and closes
    once; a process reports only after being spawned, and nothing
    after its 'close'. *)
Definition proc_open (p : Pid) (s : State) : bool :=
  match nth_error (procs s) p with
  | Some Alive | Some Terminating => true
  | _ => false
  end.

Definition enabled (e : Event) (s : State) : bool :=
  match e with
  | Connection ws => negb (mem ws (accepted s))
  | WsClose ws | WsError ws => mem ws (accepted s) && negb (mem ws (closed s))
  | FfmpegData p _ _ | FfmpegClose p _ | FfmpegError p => proc_open p s
  end.

Fixpoint run (tr : list Event) (s : State) : State :=
  match tr with
  | [] => s
  | e :: tr' => run tr' (handle e s)
  end.

Fixpoint admissible (tr : list Event) (s : State) : bool :=
  match tr with
  | [] => true
  | e :: tr' => enabled e s && admissible tr' (handle e s)
  end.

Inductive reachable : State -> Prop :=
| reach_init : reachable init
| reach_step e s : reachable s -> enabled e s = true -> reachable (handle e s).

(** Number of ffmpeg processes that have been spawned and have
    neither been signalled nor exited.  A process that has been sent
    SIGTERM is not counted, although it keeps running, and writing
    chunks, until its 'close' event: [stop()] does not wait for it. *)
Definition alive (s : State) : nat :=
  length (filter (ProcStatus_eqb Alive) (procs s)).

(** The calls to [send] one 'data' event gives rise to: one per open
    socket, in the iteration order of the set. *)
Definition sends (readyState : WebSocket -> ReadyState) (chunk : Buffer)
    (l : list WebSocket) : list Effect :=
  map (fun ws => Send ws chunk) (filter (fun ws => isOPEN (readyState ws)) l).

(** What ties the server's [isCapturing] to the capture object. *)
Definition inv (s : State) : Prop :=
  (isRunning (screenCapture s) = true -> isCapturing s = true) /\
  (isCapturing s = true -> ffmpeg (screenCapture s) <> None).

(** An exit report is timely when it concerns the process the handle
    points to, or arrives while no handle is held; [timely] traces
    have no other exit reports. *)
Definition timely_event (e : Event) (s : State) : bool :=
  match e with
  | FfmpegClose p _ =>
      match ffmpeg (screenCapture s) with
      | Some h => p =? h
      | None => true
      end
  | _ => true
  end.

Fixpoint timely (tr : list Event) (s : State) : bool :=
  match tr with
  | [] => true
  | e :: tr' => timely_event e s && timely tr' (handle e s)
  end.

(** Every process that has neither been signalled nor exited is the
    one behind the handle of a capturing server. *)
Definition owned (s : State) : Prop :=
  forall p, nth_error (procs s) p = Some Alive ->
    ffmpeg (screenCapture s) = Some p /\ isCapturing s = true.

(** ** Scenarios *)

(** A viewer reloads the page: its socket closes and the new one
    connects before the ffmpeg process that was told to stop has
    exited; the exit is reported afterwards, and then a second viewer
    joins. *)
Definition reload_trace : list Event :=
  [Connection 1; WsClose 1; Connection 2; FfmpegClose 0 (Some 255%Z);
   Connection 3].

(** ffmpeg exits on its own while a viewer is connected. *)
Definition crash_trace : list Event :=
  [Connection 1; FfmpegClose 0 (Some 1%Z)].

(** The reload up to the late exit report: the session is idle again
    although the process spawned for the second viewer is running. *)
Definition reload_prefix : list Event :=
  [Connection 1; WsClose 1; Connection 2; FfmpegClose 0 (Some 255%Z)].

(** The only viewer's socket reports an error. *)
Definition socket_error_trace : list Event :=
  [Connection 1; WsError 1].

(** Two viewers, the first of which has started closing when the next
    chunk arrives. *)
Definition two_viewers : State := run [Connection 1; Connection 2] init.

Definition first_closing (ws : WebSocket) : ReadyState :=
  if ws =? 1 then CLOSING else OPEN.

Definition sample_chunk : Buffer := [x1a; x45; xdf; xa3].

(** Fan-out in the words of the specification: every open connection
    of the set is sent the chunk, and every connection found closed is
    skipped and removed from the set. *)
Definition fanout_as_specified (readyState : WebSocket -> ReadyState)
    (chunk : Buffer) (s : State) : Prop :=
  forall ws, In ws (clients s) ->
    (isOPEN (readyState ws) = true ->
       In (Send ws chunk) (sends readyState chunk (clients s)) /\
       log (broadcast readyState chunk s) =
         log s ++ sends readyState chunk (clients s)) /\
    (isOPEN (readyState ws) = false ->
       ~ In (Send ws chunk) (sends readyState chunk (clients s)) /\
       ~ In ws (clients (broadcast readyState chunk s))).

(** ** The rest of [main()] *)

(** The [shutdown] handler of SIGINT and SIGTERM, up to [wss.close()]
    and [process.exit(0)], which end the event loop. *)
Definition shutdown (s : State) : State := stop (emit CallStop s).

(** ** Reading the log and the trace *)

(** Chunks sent to one socket, oldest first. *)
Fixpoint received (ws : WebSocket) (l : list Effect) : list Buffer :=
  match l with
  | [] => []
  | Send ws' chunk :: l' =>
      if ws' =? ws then chunk :: received ws l' else received ws l'
  | _ :: l' => received ws l'
  end.

(** Chunks ffmpeg wrote to stdout during a trace. *)
Fixpoint emitted (tr : list Event) : list Buffer :=
  match tr with
  | [] => []
  | FfmpegData _ chunk _ :: tr' => chunk :: emitted tr'
  | _ :: tr' => emitted tr'
  end.

Fixpoint spawned (l : list Effect) : list Pid :=
  match l with
  | [] => []
  | Spawn p :: l' => p :: spawned l'
  | _ :: l' => spawned l'
  end.

Fixpoint killed (l : list Effect) : list Pid :=
  match l with
  | [] => []
  | Kill p :: l' => p :: killed l'
  | _ :: l' => killed l'
  end.

Fixpoint starts (l : list Effect) : nat :=
  match l with
  | [] => 0
  | CallStart :: l' => S (starts l')
  | _ :: l' => starts l'
  end.

Fixpoint stops (l : list Effect) : nat :=
  match l with
  | [] => 0
  | CallStop :: l' => S (stops l')
  | _ :: l' => stops l'
  end.

(** A leave in the words of the specification: an event that takes
    the last socket out of the set while the session is running calls
    [stop()]. *)
Definition leave_as_specified (e : Event) (s : State) : Prop :=
  clients s <> [] -> clients (handle e s) = [] ->
  isRunning (screenCapture s) = true ->
  stops (log (handle e s)) = S (stops (log s)).

(** [l1] is [l2] with some elements left out, order kept. *)
Inductive sublist {A : Type} : list A -> list A -> Prop :=
| sublist_nil : sublist [] []
| sublist_skip x l1 l2 : sublist l1 l2 -> sublist l1 (x :: l2)
| sublist_take x l1 l2 : sublist l1 l2 -> sublist (x :: l1) (x :: l2).

(** What one event adds to the chunks a socket has been sent. *)
Definition delivery (ws : WebSocket) (e : Event) (s : State) : list Buffer :=
  match e with
  | FfmpegData _ chunk readyState =>
      if mem ws (clients s) && isOPEN (readyState ws) then [chunk] else []
  | _ => []
  end.

(** The subscriber set lists each socket once, and only sockets that
    have connected and not closed. *)
Definition tidy (s : State) : Prop :=
  NoDup (clients s) /\
  (forall ws, In ws (clients s) ->
     mem ws (accepted s) = true /\ mem ws (closed s) = false) /\
  (forall ws, mem ws (closed s) = true -> mem ws (accepted s) = true).

(** The log and the process table agree. *)
Definition ledger (s : State) : Prop :=
  spawned (log s) = seq 0 (length (procs s)) /\
  starts (log s) = length (procs s) /\
  stops (log s) = length (killed (log s)) /\
  NoDup (killed (log s)) /\
  (forall p, In p (killed (log s)) ->
     p < length (procs s) /\ ffmpeg (screenCapture s) <> Some p) /\
  (forall h, ffmpeg (screenCapture s) = Some h -> h < length (procs s)).

(** Traces made of joins, leaves by 'close', and data only. *)
Definition quiet_event (e : Event) : bool :=
  match e with
  | Connection _ | WsClose _ | FfmpegData _ _ _ => true
  | _ => false
  end.

Definition quiet (tr : list Event) : bool := forallb quiet_event tr.

(** Traces in which no socket reports an error. *)
Definition errorFree (tr : list Event) : bool :=
  forallb (fun e => match e with WsError _ => false | _ => true end) tr.

(** With viewers the server is capturing from a process behind the
    handle that has not been signalled; without viewers it is idle and
    holds no handle. *)
Definition inStep (s : State) : Prop :=
  match clients s with
  | [] =>
      isCapturing s = false /\ screenCapture s = {| ffmpeg := None; isRunning := false |}
  | _ :: _ =>
      isCapturing s = true /\
      exists h, screenCapture s = {| ffmpeg := Some h; isRunning := true |} /\
                nth_error (procs s) h = Some Alive
  end.

(** Two viewers join, three chunks are emitted while both are open,
    the first viewer leaves, a fourth chunk is emitted. *)
Definition allOpen (ws : WebSocket) : ReadyState := OPEN.

Definition relay_trace : list Event :=
  [Connection 1; Connection 2;
   FfmpegData 0 [x01] allOpen; FfmpegData 0 [x02] first_closing;
   FfmpegData 0 [x03] allOpen; WsClose 1; FfmpegData 0 [x04] allOpen].

(** The calls one event gives rise to. *)
Definition effects (e : Event) (s : State) : list Effect :=
  match e with
  | Connection _ =>
      if isCapturing s then []
      else CallStart ::
           (if isRunning (screenCapture s) then []
            else [Spawn (length (procs s))])
  | WsClose ws =>
      if (length (delete ws (clients s)) =? 0) && isCapturing s
      then CallStop ::
           match ffmpeg (screenCapture s) with
           | Some h => [Kill h]
           | None => []
           end
      else []
  | FfmpegData _ chunk readyState => sends readyState chunk (clients s)
  | _ => []
  end.

End Server.

(* ================================================================== *)
(** * Client side *)
(* ================================================================== *)

Module Client.

(** A binary WebSocket message ([binaryType = 'arraybuffer']). *)
Definition ArrayBuffer := list byte.

Definition byteLength (b : ArrayBuffer) : Z := Z.of_nat (length b).

(** A media time is a JavaScript number: an IEEE 754 binary64 value.
    [end - start], [start + 5] and [>] below are the operations of
    that format, rounding included. *)
Definition number := float.

(** [TimeRanges]: the pairs [(start(i), end(i))]. *)
Definition TimeRanges := list (number * number).

(** [x > y] on numbers: false when either side is NaN. *)
Definition gtb (x y : number) : bool := PrimFloat.ltb y x.

Arguments gtb : simpl never.

(** [MediaSource.readyState] *)
Inductive MediaSourceReadyState := MSClosed | MSOpen | MSEnded.

Inductive SocketReadyState := WsConnecting | WsIsOpen | WsClosing | WsClosed.

(** The platform objects the hook holds references to.  A source
    buffer is an object with an identity, [ident]: its rank among the
    source buffers [addSourceBuffer] has returned.  The listeners
    registered on it (line 131) belong to that object and go on
    working on it after [sourceBufferRef] has let go of it. *)
Record SourceBuffer := mkSourceBuffer {
  ident : nat;
  updating : bool;
  buffered : TimeRanges
}.

Record MediaSource := mkMediaSource { readyState : MediaSourceReadyState }.

Record WebSocket := mkWebSocket { socketState : SocketReadyState }.

Record HTMLVideoElement := mkVideo { paused : bool }.

(** The messages passed to [setError]. *)
Inductive ErrorMessage :=
| VideoElementNotFound       (* 'Video element not found'                       *)
| MediaSourceNotSupported    (* 'MediaSource API not supported in this browser' *)
| CodecNotSupported          (* `Codec not supported: ${mimeType}`              *)
| FailedToInitialize         (* 'Failed to initialize video player'             *)
| WebSocketConnectionError   (* 'WebSocket connection error'                    *)
| MediaSourceFailure.        (* 'MediaSource error'                             *)

(** Exceptions a platform call can raise. *)
Inductive DOMException :=
| InvalidStateError | QuotaExceededError | NotSupportedError | TypeError.

(** Calls made to the platform, oldest first, with their outcome
    ([true]: returned normally), and a marker for each 'updateend'
    fired by the source buffer the hook holds at that moment. *)
Inductive Call :=
| AppendBuffer (chunk : ArrayBuffer) (ok : bool)
| Remove (from to : number) (ok : bool)
| EndOfStream (ok : bool)
| CloseSocket
| Play
| UpdateEndFired.

Record Stats := mkStats { bufferedSeconds : number; bytesReceived : Z }.

(** The refs and the React state of [useStreamPlayer], the video
    element, the number of source buffers created so far, and the log
    of platform calls. *)
Record State := mkState {
  wsRef : option WebSocket;
  mediaSourceRef : option MediaSource;
  sourceBufferRef : option SourceBuffer;
  queueRef : list ArrayBuffer;
  isAppendingRef : bool;
  bytesReceivedRef : Z;
  isConnected : bool;
  isBuffering : bool;
  error : option ErrorMessage;
  stats : Stats;
  videoMounted : bool;           (* videoRef.current is not null *)
  video : HTMLVideoElement;
  created : nat;                 (* source buffers returned so far *)
  log : list Call
}.

(** What the platform decides during one callback. *)
Record Env := mkEnv {
  quotaExceeded : bool;          (* appendBuffer raises QuotaExceededError  *)
  removeRaises : bool;           (* remove raises                           *)
  endOfStreamRaises : bool;      (* endOfStream raises                      *)
  playAllowed : bool;            (* video.play() starts playback            *)
  mediaSourceInWindow : bool;    (* 'MediaSource' in window                 *)
  isTypeSupported : bool;        (* MediaSource.isTypeSupported(mimeType)   *)
  addSourceBufferRaises : bool;  (* addSourceBuffer raises                  *)
  webSocketRaises : bool         (* new WebSocket(wsUrl) raises             *)
}.

(** The hook as first rendered. *)
Definition initial : State :=
  {| wsRef := None; mediaSourceRef := None; sourceBufferRef := None;
     queueRef := []; isAppendingRef := false; bytesReceivedRef := 0%Z;
     isConnected := false; isBuffering := true; error := None;
     stats := {| bufferedSeconds := 0%float; bytesReceived := 0%Z |};
     videoMounted := true; video := {| paused := true |};
     created := 0; log := [] |}.

(** ** Field updates *)

Definition set_wsRef (v : option WebSocket) (s : State) : State :=
  mkState v (mediaSourceRef s) (sourceBufferRef s) (queueRef s)
    (isAppendingRef s) (bytesReceivedRef s) (isConnected s) (isBuffering s)
    (error s) (stats s) (videoMounted s) (video s) (created s) (log s).

Definition set_mediaSourceRef (v : option MediaSource) (s : State) : State :=
  mkState (wsRef s) v (sourceBufferRef s) (queueRef s)
    (isAppendingRef s) (bytesReceivedRef s) (isConnected s) (isBuffering s)
    (error s) (stats s) (videoMounted s) (video s) (created s) (log s).

Definition set_sourceBufferRef (v : option SourceBuffer) (s : State) : State :=
  mkState (wsRef s) (mediaSourceRef s) v (queueRef s)
    (isAppendingRef s) (bytesReceivedRef s) (isConnected s) (isBuffering s)
    (error s) (stats s) (videoMounted s) (video s) (created s) (log s).

Definition set_queueRef (v : list ArrayBuffer) (s : State) : State :=
  mkState (wsRef s) (mediaSourceRef s) (sourceBufferRef s) v
    (isAppendingRef s) (bytesReceivedRef s) (isConnected s) (isBuffering s)
    (error s) (stats s) (videoMounted s) (video s) (created s) (log s).

Definition set_isAppendingRef (v : bool) (s : State) : State :=
  mkState (wsRef s) (mediaSourceRef s) (sourceBufferRef s) (queueRef s)
    v (bytesReceivedRef s) (isConnected s) (isBuffering s)
    (error s) (stats s) (videoMounted s) (video s) (created s) (log s).

Definition set_bytesReceivedRef (v : Z) (s : State) : State :=
  mkState (wsRef s) (mediaSourceRef s) (sourceBufferRef s) (queueRef s)
    (isAppendingRef s) v (isConnected s) (isBuffering s)
    (error s) (stats s) (videoMounted s) (video s) (created s) (log s).

Definition setIsConnected (v : bool) (s : State) : State :=
  mkState (wsRef s) (mediaSourceRef s) (sourceBufferRef s) (queueRef s)
    (isAppendingRef s) (bytesReceivedRef s) v (isBuffering s)
    (error s) (stats s) (videoMounted s) (video s) (created s) (log s).

Definition setIsBuffering (v : bool) (s : State) : State :=
  mkState (wsRef s) (mediaSourceRef s) (sourceBufferRef s) (queueRef s)
    (isAppendingRef s) (bytesReceivedRef s) (isConnected s) v
    (error s) (stats s) (videoMounted s) (video s) (created s) (log s).

Definition setError (v : option ErrorMessage) (s : State) : State :=
  mkState (wsRef s) (mediaSourceRef s) (sourceBufferRef s) (queueRef s)
    (isAppendingRef s) (bytesReceivedRef s) (isConnected s) (isBuffering s)
    v (stats s) (videoMounted s) (video s) (created s) (log s).

Definition setStats (v : Stats) (s : State) : State :=
  mkState (wsRef s) (mediaSourceRef s) (sourceBufferRef s) (queueRef s)
    (isAppendingRef s) (bytesReceivedRef s) (isConnected s) (isBuffering s)
    (error s) v (videoMounted s) (video s) (created s) (log s).

Definition set_video (v : HTMLVideoElement) (s : State) : State :=
  mkState (wsRef s) (mediaSourceRef s) (sourceBufferRef s) (queueRef s)
    (isAppendingRef s) (bytesReceivedRef s) (isConnected s) (isBuffering s)
    (error s) (stats s) (videoMounted s) v (created s) (log s).

Definition set_created (v : nat) (s : State) : State :=
  mkState (wsRef s) (mediaSourceRef s) (sourceBufferRef s) (queueRef s)
    (isAppendingRef s) (bytesReceivedRef s) (isConnected s) (isBuffering s)
    (error s) (stats s) (videoMounted s) (video s) v (log s).

Definition record (c : Call) (s : State) : State :=
  mkState (wsRef s) (mediaSourceRef s) (sourceBufferRef s) (queueRef s)
    (isAppendingRef s) (bytesReceivedRef s) (isConnected s) (isBuffering s)
    (error s) (stats s) (videoMounted s) (video s) (created s) (log s ++ [c]).

(** ** Callbacks as state transformers that may raise *)

Inductive Result (A : Type) :=
| Ok (a : A)
| Throw (e : DOMException).

Arguments Throw {A} e.

Definition M (A : Type) : Type := State -> State * Result A.

Definition ret {A} (a : A) : M A := fun s => (s, Ok a).

Definition throw {A} (e : DOMException) : M A := fun s => (s, Throw e).

Definition bind {A B} (m : M A) (k : A -> M B) : M B :=
  fun s =>
    match m s with
    | (s', Ok a) => k a s'
    | (s', Throw e) => (s', Throw e)
    end.

(** [try { m } catch (e) { h e }]: what [m] did before raising stays. *)
Definition tryCatch {A} (m : M A) (h : DOMException -> M A) : M A :=
  fun s =>
    match m s with
    | (s', Ok a) => (s', Ok a)
    | (s', Throw e) => h e s'
    end.

Definition get : M State := fun s => (s, Ok s).

Definition modify (f : State -> State) : M unit := fun s => (f s, Ok tt).

Declare Scope cb_scope.
Delimit Scope cb_scope with cb.
Notation "x <- m ;; k" := (bind m (fun x => k))
  (at level 61, m at next level, right associativity) : cb_scope.
Notation "m ;; k" := (bind m (fun _ => k))
  (at level 61, right associativity) : cb_scope.

Local Open Scope cb_scope.

(** ** Platform calls *)

(** [sourceBuffer.appendBuffer(chunk)]: raises on a buffer that is
    updating and when the platform has no room; otherwise the buffer
    starts updating and will fire 'updateend'. *)
Definition appendBuffer (env : Env) (chunk : ArrayBuffer) : M unit :=
  fun s =>
    match sourceBufferRef s with
    | None => (s, Throw TypeError)
    | Some sb =>
        if updating sb then
          (record (AppendBuffer chunk false) s, Throw InvalidStateError)
        else if quotaExceeded env then
          (record (AppendBuffer chunk false) s, Throw QuotaExceededError)
        else
          (record (AppendBuffer chunk true)
             (set_sourceBufferRef
                (Some {| ident := ident sb; updating := true;
                         buffered := buffered sb |}) s),
           Ok tt)
    end.

(** [sourceBuffer.remove(from, to)]: same protocol as [appendBuffer]. *)
Definition remove (env : Env) (from to : number) : M unit :=
  fun s =>
    match sourceBufferRef s with
    | None => (s, Throw TypeError)
    | Some sb =>
        if updating sb || removeRaises env then
          (record (Remove from to false) s, Throw InvalidStateError)
        else
          (record (Remove from to true)
             (set_sourceBufferRef
                (Some {| ident := ident sb; updating := true;
                         buffered := buffered sb |}) s),
           Ok tt)
    end.

(** [mediaSource.endOfStream()]: raises unless the source is open and
    its buffer is not updating. *)
Definition endOfStream (env : Env) : M unit :=
  fun s =>
    match mediaSourceRef s with
    | None => (s, Throw TypeError)
    | Some ms =>
        let busy := match sourceBufferRef s with
                    | Some sb => updating sb
                    | None => false
                    end in
        match readyState ms with
        | MSOpen =>
            if busy || endOfStreamRaises env then
              (record (EndOfStream false) s, Throw InvalidStateError)
            else
              (record (EndOfStream true)
                 (set_mediaSourceRef (Some {| readyState := MSEnded |}) s),
               Ok tt)
        | _ => (record (EndOfStream false) s, Throw InvalidStateError)
        end
    end.

(** [video.play().catch(console.error)] *)
Definition play (env : Env) : M unit :=
  fun s =>
    (record Play
       (if playAllowed env then set_video {| paused := false |} s else s),
     Ok tt).

(** [queueRef.current.shift()] *)
Definition shift : M (option ArrayBuffer) :=
  fun s =>
    match queueRef s with
    | [] => (s, Ok None)
    | chunk :: rest => (set_queueRef rest s, Ok (Some chunk))
    end.

(** ** The hook *)

(** The recovery branch of [appendNextChunk]: the body of [catch (e)]
    after the flag has been cleared. *)
Definition evict (env : Env) : M unit :=
  s <- get ;;
  match sourceBufferRef s with
  | Some sb =>
      if negb (updating sb) then
        tryCatch
          (match buffered sb with
           | (start0, end0) :: _ =>
               if gtb (end0 - start0)%float 10%float
               then remove env start0 (start0 + 5)%float
               else ret tt
           | [] => ret tt
           end)
          (fun removeError => ret tt)
      else ret tt
  | None => ret tt
  end.

Definition appendNextChunk (env : Env) : M unit :=
  s <- get ;;
  match sourceBufferRef s with
  | None => ret tt
  | Some sb =>
      if isAppendingRef s || (length (queueRef s) =? 0)%nat then ret tt
      else if updating sb then ret tt
      else
        modify (set_isAppendingRef true) ;;
        chunk <- shift ;;
        match chunk with
        | Some chunk =>
            tryCatch (appendBuffer env chunk)
              (fun e => modify (set_isAppendingRef false) ;; evict env)
        | None => ret tt
        end
  end.

Definition cleanup (env : Env) : M unit :=
  s <- get ;;
  match wsRef s with
  | Some ws => modify (record CloseSocket) ;; modify (set_wsRef None)
  | None => ret tt
  end ;;
  match mediaSourceRef s with
  | Some ms =>
      match readyState ms with
      | MSOpen => tryCatch (endOfStream env) (fun e => ret tt)
      | _ => ret tt
      end
  | None => ret tt
  end ;;
  modify (set_mediaSourceRef None) ;;
  modify (set_sourceBufferRef None) ;;
  modify (set_queueRef []) ;;
  modify (set_isAppendingRef false) ;;
  modify (set_bytesReceivedRef 0%Z) ;;
  modify (setIsConnected false) ;;
  modify (setIsBuffering true) ;;
  modify (setStats {| bufferedSeconds := 0%float; bytesReceived := 0%Z |}).

(** [connect()], up to the registration of the listeners. *)
Definition connect (env : Env) : M unit :=
  cleanup env ;;
  modify (setError None) ;;
  s <- get ;;
  if negb (videoMounted s) then
    modify (setError (Some VideoElementNotFound))
  else if negb (mediaSourceInWindow env) then
    modify (setError (Some MediaSourceNotSupported))
  else
    modify (set_mediaSourceRef (Some {| readyState := MSClosed |})).

Definition disconnect (env : Env) : M unit := cleanup env.

(** [mediaSource.addSourceBuffer(mimeType)]: a new object each time. *)
Definition addSourceBuffer (env : Env) : M SourceBuffer :=
  if addSourceBufferRaises env then throw NotSupportedError
  else
    s <- get ;;
    modify (set_created (S (created s))) ;;
    ret {| ident := created s; updating := false; buffered := [] |}.

(** [new WebSocket(wsUrl)] *)
Definition newWebSocket (env : Env) : M WebSocket :=
  if webSocketRaises env then throw TypeError
  else ret {| socketState := WsConnecting |}.

(** The 'sourceopen' listener. *)
Definition onSourceOpen (env : Env) : M unit :=
  tryCatch
    (if negb (isTypeSupported env) then
       modify (setError (Some CodecNotSupported))
     else
       sourceBuffer <- addSourceBuffer env ;;
       modify (set_sourceBufferRef (Some sourceBuffer)) ;;
       ws <- newWebSocket env ;;
       modify (set_wsRef (Some ws)))
    (fun e => modify (setError (Some FailedToInitialize))).

(** Reading [sourceBuffer.buffered] in the 'updateend' listener, where
    [sourceBuffer] is the constant of the enclosing 'sourceopen'
    callback, that is the buffer the event fires on.  [reading] is
    what that buffer reports: its ranges, or nothing when the getter
    raises [InvalidStateError], as it does on a source buffer that has
    been removed from its media source. *)
Definition readBuffered (reading : option TimeRanges) : M TimeRanges :=
  match reading with
  | Some ranges => ret ranges
  | None => throw InvalidStateError
  end.

(** The 'updateend' listener registered on a source buffer.  It reads
    that buffer and the video element of its session, outside any
    [try]; the refs it writes and the [appendNextChunk] it calls are
    those of the hook, whichever session is current. *)
Definition onUpdateEnd (env : Env) (reading : option TimeRanges) : M unit :=
  modify (set_isAppendingRef false) ;;
  ranges <- readBuffered reading ;;
  match ranges with
  | (start0, end0) :: _ =>
      let bufferedSeconds := (end0 - start0)%float in
      s <- get ;;
      modify (setStats {| bufferedSeconds := bufferedSeconds;
                          bytesReceived := bytesReceivedRef s |}) ;;
      if gtb bufferedSeconds 0.5%float && paused (video s) then
        play env ;; modify (setIsBuffering false)
      else ret tt
  | [] => ret tt
  end ;;
  appendNextChunk env.

(** [ws.onopen], [ws.onmessage], [ws.onerror], [ws.onclose] *)
Definition onopen : M unit := modify (setIsConnected true).

Definition onmessage (env : Env) (data : ArrayBuffer) : M unit :=
  s <- get ;;
  modify (set_bytesReceivedRef (bytesReceivedRef s + byteLength data)%Z) ;;
  s <- get ;;
  modify (set_queueRef (queueRef s ++ [data])) ;;
  appendNextChunk env.

Definition onerror : M unit :=
  modify (setError (Some WebSocketConnectionError)).

Definition onclose : M unit := modify (setIsConnected false).

(** The 'error' listener of the media source. *)
Definition onMediaSourceError : M unit :=
  modify (setError (Some MediaSourceFailure)).

(** ** Events *)

(** [UpdateEnd target reading]: source buffer number [target] fires
    'updateend'; [reading] is what its [buffered] attribute gives from
    then on ([None]: the getter raises).  [target] is the buffer the
    hook holds, or one of an earlier session whose append or removal
    was still running when [cleanup] dropped the reference. *)
Inductive Event :=
| Connect
| Disconnect
| SourceOpen
| SourceEnded
| MediaSourceErrorEvent
| SourceBufferError
| UpdateEnd (target : nat) (reading : option TimeRanges)
| WsOpen
| WsMessage (data : ArrayBuffer)
| WsError
| WsClose.

(** The source buffer [sourceBufferRef] holds is number [target]. *)
Definition holds (target : nat) (s : State) : bool :=
  match sourceBufferRef s with
  | Some sb => ident sb =? target
  | None => false
  end.

(** The platform side of an event, before the listener runs.  An
    'updateend' changes the buffer that fires it: the state holds that
    buffer only if the ref still points to it. *)
Definition platform (e : Event) (s : State) : State :=
  match e with
  | SourceOpen =>
      match mediaSourceRef s with
      | Some _ => set_mediaSourceRef (Some {| readyState := MSOpen |}) s
      | None => s
      end
  | UpdateEnd target reading =>
      match sourceBufferRef s with
      | Some sb =>
          if ident sb =? target then
            record UpdateEndFired
              (set_sourceBufferRef
                 (Some {| ident := ident sb; updating := false;
                          buffered := match reading with
                                      | Some ranges => ranges
                                      | None => buffered sb
                                      end |}) s)
          else s
      | None => s
      end
  | WsOpen =>
      match wsRef s with
      | Some _ => set_wsRef (Some {| socketState := WsIsOpen |}) s
      | None => s
      end
  | WsClose =>
      match wsRef s with
      | Some _ => set_wsRef (Some {| socketState := WsClosed |}) s
      | None => s
      end
  | _ => s
  end.

Definition listener (env : Env) (e : Event) : M unit :=
  match e with
  | Connect => connect env
  | Disconnect => disconnect env
  | SourceOpen => onSourceOpen env
  | SourceEnded => ret tt
  | MediaSourceErrorEvent => onMediaSourceError
  | SourceBufferError => ret tt
  | UpdateEnd _ reading => onUpdateEnd env reading
  | WsOpen => onopen
  | WsMessage data => onmessage env data
  | WsError => onerror
  | WsClose => onclose
  end.

Definition handle (env : Env) (e : Event) : M unit :=
  fun s => listener env e (platform e s).

Definition step (ee : Env * Event) (s : State) : State :=
  fst (handle (fst ee) (snd ee) s).

Fixpoint run (tr : list (Env * Event)) (s : State) : State :=
  match tr with
  | [] => s
  | ee :: tr' => run tr' (step ee s)
  end.

(** Events that leave the session in place: everything except the
    three that replace the decode buffer.  The 'updateend' of a source
    buffer of an earlier session is among them: it can arrive at any
    time. *)
Definition sameSession (e : Event) : bool :=
  match e with
  | Connect | Disconnect | SourceOpen => false
  | _ => true
  end.

(** An 'updateend' whose listener cannot read [buffered]. *)
Definition unreadable (e : Event) : bool :=
  match e with
  | UpdateEnd _ None => true
  | _ => false
  end.

(** Every 'updateend' of the event comes from source buffer [i] and
    finds [buffered] readable. *)
Definition firedBy (i : nat) (e : Event) : bool :=
  match e with
  | UpdateEnd target (Some _) => target =? i
  | UpdateEnd _ None => false
  | _ => true
  end.

(** An 'updateend' fired by source buffer [i] finds [buffered]
    readable; the event may also come from another buffer. *)
Definition readableOn (i : nat) (e : Event) : bool :=
  match e with
  | UpdateEnd target None => negb (target =? i)
  | _ => true
  end.

(** ** The status line of [StreamViewer] *)

Inductive Status := Disconnected | Buffering | Streaming.

Definition status (s : State) : Status :=
  if isConnected s then (if isBuffering s then Buffering else Streaming)
  else Disconnected.

(** ** Reading the log *)

(** Chunks handed to [appendBuffer], accepted or not, oldest first. *)
Fixpoint submitted (l : list Call) : list ArrayBuffer :=
  match l with
  | [] => []
  | AppendBuffer chunk _ :: l' => chunk :: submitted l'
  | _ :: l' => submitted l'
  end.

(** Chunks the decode buffer took. *)
Fixpoint taken (l : list Call) : list ArrayBuffer :=
  match l with
  | [] => []
  | AppendBuffer chunk true :: l' => chunk :: taken l'
  | _ :: l' => taken l'
  end.

(** Chunks that arrived on the socket during a trace. *)
Fixpoint arrived (tr : list (Env * Event)) : list ArrayBuffer :=
  match tr with
  | [] => []
  | (_, WsMessage data) :: tr' => data :: arrived tr'
  | _ :: tr' => arrived tr'
  end.

(** Is an accepted append still waiting for its 'updateend' once the
    calls of [l] have been made, given it was so ([pending]) before? *)
Fixpoint pendingAfter (pending : bool) (l : list Call) : bool :=
  match l with
  | [] => pending
  | AppendBuffer _ ok :: l' => pendingAfter ok l'
  | UpdateEndFired :: l' => pendingAfter false l'
  | _ :: l' => pendingAfter pending l'
  end.

(** No call to [appendBuffer] in [l] is made while an accepted append
    is waiting for its 'updateend'. *)
Fixpoint oneAtATime (pending : bool) (l : list Call) : bool :=
  match l with
  | [] => true
  | AppendBuffer _ ok :: l' => negb pending && oneAtATime ok l'
  | UpdateEndFired :: l' => oneAtATime false l'
  | _ :: l' => oneAtATime pending l'
  end.

(** Number of calls to [video.play()]. *)
Fixpoint plays (l : list Call) : nat :=
  match l with
  | [] => 0%nat
  | Play :: l' => S (plays l')
  | _ :: l' => plays l'
  end.

Definition isRemove (c : Call) : bool :=
  match c with Remove _ _ _ => true | _ => false end.

(** [appendNextChunk] gets past its two guards. *)
Definition deliverable (s : State) : bool :=
  match sourceBufferRef s with
  | Some sb =>
      negb (isAppendingRef s) && negb (length (queueRef s) =? 0)%nat
      && negb (updating sb)
  | None => false
  end.

(** The call to [remove] the recovery branch makes for a buffer. *)
Definition eviction (env : Env) (sb : SourceBuffer) : list Call :=
  match buffered sb with
  | (start0, end0) :: _ =>
      if gtb (end0 - start0)%float 10%float
      then [Remove start0 (start0 + 5)%float (negb (removeRaises env))]
      else []
  | [] => []
  end.

(** An append is pending, for the hook or for the decode buffer. *)
Definition appendPending (s : State) : bool :=
  isAppendingRef s ||
  match sourceBufferRef s with Some sb => updating sb | None => false end.

(** The state right after [push], before [appendNextChunk] is tried. *)
Definition enqueued (data : ArrayBuffer) (s : State) : State :=
  set_queueRef (queueRef s ++ [data])
    (set_bytesReceivedRef (bytesReceivedRef s + byteLength data)%Z s).

(** The state one call to [appendNextChunk] leaves behind. *)
Definition deliver (env : Env) (s : State) : State :=
  fst (appendNextChunk env s).

(** The decode buffer the hook points to is updating. *)
Definition bufferUpdating (s : State) : bool :=
  match sourceBufferRef s with Some sb => updating sb | None => false end.

(** The 'updateend' listener reads more than half a time unit in the
    first range of its buffer while the video is paused. *)
Definition crossing (ranges : TimeRanges) (s : State) : bool :=
  match ranges with
  | (start0, end0) :: _ =>
      gtb (end0 - start0)%float 0.5%float && paused (video s)
  | [] => false
  end.

(** The state in which the 'updateend' listener reaches its last
    statement, the call to [appendNextChunk], having read [ranges]. *)
Definition beforeNextChunk (env : Env) (ranges : TimeRanges) (s : State)
    : State :=
  let s0 := set_isAppendingRef false s in
  match ranges with
  | (start0, end0) :: _ =>
      let s1 := setStats {| bufferedSeconds := (end0 - start0)%float;
                            bytesReceived := bytesReceivedRef s0 |} s0 in
      if gtb (end0 - start0)%float 0.5%float && paused (video s0)
      then setIsBuffering false (fst (play env s1))
      else s1
  | [] => s0
  end.

(** The calls [cleanup] makes in a state. *)
Definition teardownCalls (env : Env) (s : State) : list Call :=
  match wsRef s with Some _ => [CloseSocket] | None => [] end ++
  match mediaSourceRef s with
  | Some ms =>
      match readyState ms with
      | MSOpen => [EndOfStream (negb (bufferUpdating s || endOfStreamRaises env))]
      | _ => []
      end
  | None => []
  end.

(** The state [cleanup] leaves behind. *)
Definition tornDown (env : Env) (s : State) : State :=
  {| wsRef := None; mediaSourceRef := None; sourceBufferRef := None;
     queueRef := []; isAppendingRef := false; bytesReceivedRef := 0%Z;
     isConnected := false; isBuffering := true; error := error s;
     stats := {| bufferedSeconds := 0%float; bytesReceived := 0%Z |};
     videoMounted := videoMounted s; video := video s;
     created := created s;
     log := log s ++ teardownCalls env s |}.

(** All events of a trace belong to the running session. *)
Definition inSession (tr : list (Env * Event)) : bool :=
  forallb (fun ee => sameSession (snd ee)) tr.

(** Every 'updateend' of the trace comes from source buffer [i] and
    finds [buffered] readable. *)
Definition allFiredBy (i : nat) (tr : list (Env * Event)) : bool :=
  forallb (fun ee => firedBy i (snd ee)) tr.

(** Source buffer [i] never fires an 'updateend' that finds
    [buffered] unreadable. *)
Definition allReadableOn (i : nat) (tr : list (Env * Event)) : bool :=
  forallb (fun ee => readableOn i (snd ee)) tr.

(** The platform lets [video.play()] start playback throughout. *)
Definition playable (tr : list (Env * Event)) : bool :=
  forallb (fun ee => playAllowed (fst ee)) tr.

(** The log obeys the one-append-at-a-time protocol, and an append
    the log shows as waiting is one the decode buffer is working on. *)
Definition disciplined (s : State) : Prop :=
  oneAtATime false (log s) = true /\
  (pendingAfter false (log s) = true -> bufferUpdating s = true).

(** ** Scenarios *)

(** A platform on which every call succeeds, and one whose decode
    buffer is full. *)
Definition fine : Env :=
  {| quotaExceeded := false; removeRaises := false;
     endOfStreamRaises := false; playAllowed := true;
     mediaSourceInWindow := true; isTypeSupported := true;
     addSourceBufferRaises := false; webSocketRaises := false |}.

Definition full : Env :=
  {| quotaExceeded := true; removeRaises := false;
     endOfStreamRaises := false; playAllowed := true;
     mediaSourceInWindow := true; isTypeSupported := true;
     addSourceBufferRaises := false; webSocketRaises := false |}.

(** The hook once the media source and the socket are open; its
    source buffer is number 0. *)
Definition session : State :=
  run [(fine, Connect); (fine, SourceOpen); (fine, WsOpen)] initial.

Definition s1 : ArrayBuffer := [x1a; x45].
Definition s2 : ArrayBuffer := [x1f; x43; xb6].
Definition s3 : ArrayBuffer := [xa3].

(** The source buffer of [session] fires 'updateend' with [ranges]
    buffered. *)
Definition updateEnd (ranges : TimeRanges) : Event :=
  UpdateEnd 0 (Some ranges).

(** [s1] is appended and three seconds are buffered; then [s2]
    arrives and the decode buffer rejects it; [s3] follows. *)
Definition rejected_trace : list (Env * Event) :=
  [(fine, WsMessage s1); (fine, updateEnd [(0, 3)%float]);
   (full, WsMessage s2); (fine, WsMessage s3)].

(** The decode buffer accepts every append of the trace. *)
Definition neverFull (tr : list (Env * Event)) : bool :=
  forallb (fun ee => negb (quotaExceeded (fst ee))) tr.

(** A state with an append in flight and one chunk waiting. *)
Definition inFlight : State :=
  run [(fine, WsMessage s1); (fine, WsMessage s2)] session.

(** A session whose queue holds [s2] and [s3] in front of a decode
    buffer with three seconds buffered. *)
Definition waiting : State :=
  set_queueRef [s2; s3]
    (run [(fine, WsMessage s1); (fine, updateEnd [(0, 3)%float])] session).

(** A session with twelve seconds buffered and [s2], [s3] queued. *)
Definition longBuffer : State :=
  set_queueRef [s2; s3]
    (run [(fine, WsMessage s1); (fine, updateEnd [(0, 12)%float])] session).

(** A session whose socket has reported an error. *)
Definition errored : State := step (fine, WsError) session.

(** Three completion callbacks: a quarter of a second, then one
    second, then two seconds buffered. *)
Definition crossing_trace : list (Env * Event) :=
  [(fine, WsMessage s1); (fine, updateEnd [(0, 0.25)%float]);
   (fine, WsMessage s2); (fine, updateEnd [(0, 1)%float]);
   (fine, WsMessage s3); (fine, updateEnd [(0, 2)%float])].

(** The viewer disconnects while the append of [s1] is in flight; the
    decode buffer finishes it afterwards, with one second buffered. *)
Definition late_trace : list (Env * Event) :=
  [(fine, WsMessage s1); (fine, Disconnect); (fine, updateEnd [(0, 1)%float])].

(** The viewer reconnects while the append of [s1] is in flight: the
    video gets a new media source, the old source buffer is removed
    from its own, and when it fires 'updateend' its [buffered] can no
    longer be read.  In between the new session has started an append
    of its own, on source buffer number 1. *)
Definition reconnect_trace : list (Env * Event) :=
  [(fine, WsMessage s1); (fine, Connect); (fine, SourceOpen); (fine, WsOpen);
   (fine, WsMessage s2); (fine, UpdateEnd 0 None)].

(** The specification's reading of the queue: whatever arrived is
    either still queued or was taken by the decode buffer, in arrival
    order. *)
Definition nothing_lost (tr : list (Env * Event)) (s : State) : Prop :=
  taken (log (run tr s)) ++ queueRef (run tr s) = arrived tr.

(** The specification's reading of the recovery: every rejected append
    is followed by an attempt to evict five time units. *)
Definition always_evicts (tr : list (Env * Event)) (s : State) : Prop :=
  forall chunk, In (AppendBuffer chunk false) (log (run tr s)) ->
    existsb isRemove (log (run tr s)) = true.

(** ** More readings of the trace and the state *)

(** Bytes that arrived on the socket during a trace. *)
Fixpoint arrivedBytes (tr : list (Env * Event)) : Z :=
  match tr with
  | [] => 0%Z
  | (_, WsMessage data) :: tr' => (byteLength data + arrivedBytes tr')%Z
  | _ :: tr' => arrivedBytes tr'
  end.

(** The hook's flag says what the decode buffer does, and a queued
    segment always has an append in flight ahead of it. *)
Definition synced (s : State) : Prop :=
  sourceBufferRef s <> None /\
  isAppendingRef s = bufferUpdating s /\
  (queueRef s <> [] -> bufferUpdating s = true).

(** The queue is on the move: the hook holds a source buffer, its flag
    is up only while that buffer is updating, and a queued segment
    always has an append in flight ahead of it. *)
Definition moving (s : State) : Prop :=
  sourceBufferRef s <> None /\
  (isAppendingRef s = true -> bufferUpdating s = true) /\
  (queueRef s <> [] -> bufferUpdating s = true).

(** The state [connect] leaves behind. *)
Definition connected (env : Env) (s : State) : State :=
  let t := setError None (tornDown env s) in
  if negb (videoMounted s) then setError (Some VideoElementNotFound) t
  else if negb (mediaSourceInWindow env)
       then setError (Some MediaSourceNotSupported) t
       else set_mediaSourceRef (Some {| readyState := MSClosed |}) t.

End Client.

(* ================================================================== *)
(** * The capture command line and the device listing *)
(* ================================================================== *)

Module Capture.

Import Stdlib.Strings.String.
Local Open Scope string_scope.
Local Open Scope list_scope.

Section WithNumbers.

(** JavaScript numbers and their conversion to text ([toString()] and
    template literals), which the command line is built from. *)
Variable number : Type.
Variable toString : number -> string.

(** [interface CaptureOptions] *)
Record CaptureOptions := mkOptions {
  screenIndex : string;
  fps : number;
  width : number;
  height : number;
  platform : option string
}.

(** [a || b] on an optional string: the empty string and [undefined]
    give way to [b]. *)
Definition orElse (a : option string) (b : string) : string :=
  match a with
  | Some p => if (p =? "")%string then b else p
  | None => b
  end.

(** The constructor of [ScreenCapture]:
    [this.options.platform = this.options.platform || process.platform]. *)
Definition construct (processPlatform : string) (o : CaptureOptions)
    : CaptureOptions :=
  {| screenIndex := screenIndex o; fps := fps o; width := width o;
     height := height o;
     platform := Some (orElse (platform o) processPlatform) |}.

Definition isWin32 (p : option string) : bool :=
  match p with
  | Some p => (p =? "win32")%string
  | None => false
  end.

(** The constant [inputArgs] of [buildFFmpegArgs]. *)
Definition inputArgs (o : CaptureOptions) : list string :=
  if isWin32 (platform o)
  then ["-f"; "gdigrab"; "-framerate"; toString (fps o); "-i"; "desktop"]
  else ["-f"; "avfoundation"; "-framerate"; toString (fps o);
        "-capture_cursor"; "1"; "-i"; (screenIndex o ++ ":none")%string].

Definition buildFFmpegArgs (o : CaptureOptions) : list string :=
  inputArgs o ++
  ["-vf";
   ("scale=" ++ toString (width o) ++ ":" ++ toString (height o))%string;
   "-c:v"; "libvpx";
   "-quality"; "realtime";
   "-speed"; "8";
   "-threads"; "4";
   "-pix_fmt"; "yuv420p";
   "-g"; toString (fps o);
   "-b:v"; "2500k";
   "-maxrate"; "2500k";
   "-bufsize"; "500k";
   "-f"; "webm";
   "-cluster_size_limit"; "512k";
   "-cluster_time_limit"; "1000";
   "-an";
   "pipe:1"].

End WithNumbers.

(** ** [listCaptureDevices] *)

(** The arguments of the listing run, by [process.platform]. *)
Definition listArgs (processPlatform : string) : list string :=
  if (processPlatform =? "win32")%string
  then ["-list_devices"; "true"; "-f"; "dshow"; "-i"; "dummy"]
  else ["-f"; "avfoundation"; "-list_devices"; "true"; "-i"; ""].

(** What the child process reports: a chunk of stderr (already
    converted by [data.toString()]), 'close', or 'error'. *)
Inductive ChildEvent :=
| Stderr (text : string)
| ChildClose
| ChildError (err : string).

(** The promise: pending, resolved with the text, or rejected. *)
Inductive Outcome :=
| Pending
| Resolved (text : string)
| Rejected (err : string).

Record Listing := mkListing {
  output : string;         (* let output = '' *)
  promise : Outcome
}.

Definition listing0 : Listing := {| output := ""; promise := Pending |}.

(** [resolve] and [reject] settle a pending promise and do nothing
    to a settled one. *)
Definition settle (o : Outcome) (p : Outcome) : Outcome :=
  match p with
  | Pending => o
  | _ => p
  end.

Definition onChild (e : ChildEvent) (l : Listing) : Listing :=
  match e with
  | Stderr text =>
      {| output := (output l ++ text)%string; promise := promise l |}
  | ChildClose =>
      {| output := output l; promise := settle (Resolved (output l)) (promise l) |}
  | ChildError err =>
      {| output := output l; promise := settle (Rejected err) (promise l) |}
  end.

Definition listCaptureDevices (evs : list ChildEvent) : Listing :=
  fold_left (fun l e => onChild e l) evs listing0.

(** Concatenation of chunks of text in order. *)
Fixpoint joined (chunks : list string) : string :=
  match chunks with
  | [] => ""
  | c :: cs => (c ++ joined cs)%string
  end.

(** The default options of [main()], on a number type that holds
    them. *)
Definition CAPTURE_OPTIONS : CaptureOptions nat :=
  {| screenIndex := "4"; fps := 30%nat; width := 1280%nat;
     height := 720%nat; platform := None |}.

(** Decimal text of a natural number. *)
Definition decimal (n : nat) : string :=
  DecimalString.NilZero.string_of_uint (Nat.to_uint n).

End Capture.

(* ================================================================== *)
(** * Properties of the server *)
(* ================================================================== *)

Module ServerProps.
Import Server.

Local Open Scope nat_scope.

(** ** Properties of [start] and [stop] *)

Lemma start_while_running (s : State) :
  isRunning (screenCapture s) = true -> start s = s.
Proof. intros H. unfold start. now rewrite H. Qed.

Lemma start_while_idle_spawns (s : State) :
  isRunning (screenCapture s) = false ->
  log (start s) = log s ++ [Spawn (length (procs s))] /\
  procs (start s) = procs s ++ [Alive] /\
  screenCapture (start s) =
    {| ffmpeg := Some (length (procs s)); isRunning := true |}.
Proof. intros H. unfold start. rewrite H. cbn. auto. Qed.

Lemma stop_without_handle (s : State) :
  ffmpeg (screenCapture s) = None -> stop s = s.
Proof. intros H. unfold stop. now rewrite H. Qed.

Lemma stop_with_handle (s : State) (p : Pid) :
  ffmpeg (screenCapture s) = Some p ->
  log (stop s) = log s ++ [Kill p] /\
  screenCapture (stop s) = {| ffmpeg := None; isRunning := false |}.
Proof. intros H. unfold stop. rewrite H. cbn. auto. Qed.

(** ** Fan-out *)

Lemma broadcast_fold rs chunk l : forall s,
  let s' := fold_left
    (fun acc client =>
       if isOPEN (rs client) then emit (Send client chunk) acc else acc) l s in
  clients s' = clients s /\ isCapturing s' = isCapturing s /\
  screenCapture s' = screenCapture s /\ procs s' = procs s /\
  log s' = log s ++ sends rs chunk l.
Proof.
  induction l as [|c l IH]; intros s; cbn.
  - rewrite app_nil_r. auto.
  - specialize (IH (if isOPEN (rs c) then emit (Send c chunk) s else s)).
    cbn in IH. destruct IH as (Hc & Hi & Hsc & Hp & Hl).
    unfold sends in *. cbn [filter].
    destruct (isOPEN (rs c)); cbn in *;
      rewrite Hc, Hi, Hsc, Hp, Hl; repeat split; auto.
    now rewrite <- app_assoc.
Qed.

Lemma in_sends rs chunk l ws c :
  In (Send ws c) (sends rs chunk l) <->
  In ws l /\ isOPEN (rs ws) = true /\ c = chunk.
Proof.
  unfold sends. rewrite in_map_iff. split.
  - intros (x & Hx & Hin). inversion Hx; subst.
    apply filter_In in Hin. tauto.
  - intros (Hin & Ho & ->). exists ws. split; auto.
    apply filter_In. auto.
Qed.

(** ** Invariants of the reachable states *)

Ltac closing :=
  intros; first [reflexivity | discriminate | assumption | congruence | auto].

Lemma inv_init : inv init.
Proof. split; cbn; congruence. Qed.

Lemma inv_handle e s : inv s -> inv (handle e s).
Proof.
  intros [H1 H2]. destruct e as [ws|ws|ws|p c rs|p code|p]; cbn.
  - unfold on_connection. cbn.
    destruct (isCapturing s) eqn:Hc; cbn.
    + split; cbn; auto.
    + unfold start. cbn.
      destruct (isRunning (screenCapture s)) eqn:Hr.
      * specialize (H1 eq_refl). congruence.
      * split; cbn; closing.
  - unfold ws_on_close.
    match goal with |- context [if ?c then _ else _] => destruct c eqn:Hcond end;
      [|split; cbn; auto].
    apply andb_prop in Hcond. destruct Hcond as [_ Hc]. cbn in Hc.
    unfold stop. cbn.
    destruct (ffmpeg (screenCapture s)) eqn:Hf.
    + split; cbn; closing.
    + specialize (H2 Hc). congruence.
  - split; cbn; auto.
  - unfold broadcast.
    destruct (broadcast_fold rs c (clients s) s) as (_ & Hi & Hsc & _).
    split; rewrite Hi, Hsc; auto.
  - split; cbn; closing.
  - split; cbn; closing.
Qed.

Lemma reachable_inv s : reachable s -> inv s.
Proof. induction 1; [apply inv_init | now apply inv_handle]. Qed.

(** In a reachable state a running session always holds a handle. *)
Lemma running_has_handle s :
  reachable s -> isRunning (screenCapture s) = true ->
  exists p, ffmpeg (screenCapture s) = Some p.
Proof.
  intros Hr Hrun. destruct (reachable_inv Hr) as [H1 H2].
  specialize (H2 (H1 Hrun)).
  destruct (ffmpeg (screenCapture s)) as [p|]; [eauto | congruence].
Qed.

(** The 'close' listener of a socket: when it empties the set while
    the session is running, [stop()] is called and SIGTERM is sent to
    the process behind the handle. *)
Lemma ws_close_drain_stops s ws :
  reachable s -> isRunning (screenCapture s) = true ->
  delete ws (clients s) = [] ->
  exists p, ffmpeg (screenCapture s) = Some p /\
    log (handle (WsClose ws) s) = log s ++ [CallStop; Kill p] /\
    isRunning (screenCapture (handle (WsClose ws) s)) = false.
Proof.
  intros Hr Hrun Hd.
  destruct (running_has_handle Hr Hrun) as [p Hp]. exists p.
  destruct (reachable_inv Hr) as [H1 _]. specialize (H1 Hrun).
  cbn. unfold ws_on_close. cbn. rewrite Hd, H1. cbn.
  unfold stop. cbn. rewrite Hp. cbn.
  rewrite <- app_assoc. auto.
Qed.

(** ** One un-signalled producer, as long as exit reports are timely *)

Lemma nth_error_set_status l : forall p st q,
  nth_error (set_status p st l) q = Some Alive ->
  (q = p /\ st = Alive) \/ (q <> p /\ nth_error l q = Some Alive).
Proof.
  induction l as [|x l IH]; intros p st q H.
  - destruct p, q; discriminate H.
  - destruct p as [|p], q as [|q]; cbn in *.
    + left. split; congruence.
    + right. split; [discriminate | exact H].
    + right. split; [discriminate | exact H].
    + destruct (IH p st q H) as [[-> ->]|[Hne Hq]]; [left|right]; split; auto.
Qed.

Lemma nth_error_sigterm l h q :
  nth_error (sigterm h l) q = Some Alive ->
  q <> h /\ nth_error l q = Some Alive.
Proof.
  unfold sigterm. destruct (nth_error l h) as [[| |]|] eqn:Hh; intros H;
    try (split; [intros ->; congruence | exact H]).
  destruct (nth_error_set_status _ _ _ _ H) as [[_ Habs]|Hok];
    [discriminate | exact Hok].
Qed.

Lemma owned_alive_le_1 l (h : option Pid) :
  (forall p, nth_error l p = Some Alive -> h = Some p) ->
  length (filter (ProcStatus_eqb Alive) l) <= 1.
Proof.
  revert h. induction l as [|x l IH]; intros h Hown; cbn; [lia|].
  destruct x; cbn.
  - assert (Hh : h = Some 0) by (apply Hown; reflexivity).
    assert (Hnone : forall q, nth_error l q <> Some Alive).
    { intros q Hq. specialize (Hown (S q) Hq). congruence. }
    replace (filter (ProcStatus_eqb Alive) l) with (@nil ProcStatus);
      [cbn; lia|].
    clear - Hnone. induction l as [|y l IHl]; [reflexivity|].
    cbn. destruct y; cbn.
    + exfalso. apply (Hnone 0). reflexivity.
    + apply IHl. intros q. apply (Hnone (S q)).
    + apply IHl. intros q. apply (Hnone (S q)).
  - apply (IH (match h with Some (S q) => Some q | _ => None end)).
    intros p Hp. now rewrite (Hown (S p) Hp).
  - apply (IH (match h with Some (S q) => Some q | _ => None end)).
    intros p Hp. now rewrite (Hown (S p) Hp).
Qed.

Lemma owned_handle e s :
  timely_event e s = true -> inv s -> owned s -> owned (handle e s).
Proof.
  intros Ht [Hi1 Hi2] Hown. destruct e as [ws|ws|ws|p c rs|p code|p]; cbn.
  - unfold on_connection. cbn.
    destruct (isCapturing s) eqn:Hc; cbn; [exact Hown|].
    assert (Hr : isRunning (screenCapture s) = false).
    { destruct (isRunning (screenCapture s)); [|reflexivity].
      specialize (Hi1 eq_refl). congruence. }
    unfold start. cbn. rewrite Hr. intros q Hq. cbn in *.
    destruct (Nat.lt_ge_cases q (length (procs s))) as [Hlt|Hge].
    + rewrite nth_error_app1 in Hq by exact Hlt.
      destruct (Hown q Hq) as [_ Habs]. congruence.
    + rewrite nth_error_app2 in Hq by exact Hge.
      destruct (q - length (procs s)) as [|k] eqn:Hk;
        [|destruct k; discriminate Hq].
      split; [f_equal; lia | reflexivity].
  - unfold ws_on_close.
    match goal with |- context [if ?c then _ else _] => destruct c eqn:Hcond end;
      [|exact Hown].
    apply andb_prop in Hcond. destruct Hcond as [_ Hc]. cbn in Hc.
    unfold stop. cbn.
    destruct (ffmpeg (screenCapture s)) as [h|] eqn:Hf.
    + intros q Hq. cbn in Hq. apply nth_error_sigterm in Hq.
      destruct Hq as [Hne Hq]. destruct (Hown q Hq) as [Hh _]. congruence.
    + specialize (Hi2 Hc). congruence.
  - exact Hown.
  - unfold broadcast.
    destruct (broadcast_fold rs c (clients s) s) as (_ & Hic & Hsc & Hp & _).
    intros q. rewrite Hic, Hsc, Hp. apply Hown.
  - intros q Hq. cbn in *.
    destruct (nth_error_set_status _ _ _ _ Hq) as [[_ Habs]|[Hne Hq']];
      [discriminate|].
    destruct (Hown q Hq') as [Hh _]. rewrite Hh in Ht.
    apply Nat.eqb_eq in Ht. congruence.
  - exact Hown.
Qed.

(** Without late exit reports the server keeps at most one process
    that has neither been signalled nor exited. *)
Lemma timely_single_producer tr : forall s,
  inv s -> owned s -> timely tr s = true -> alive (run tr s) <= 1.
Proof.
  induction tr as [|e tr IH]; intros s Hi Ho Ht; cbn.
  - unfold alive. apply owned_alive_le_1 with (h := ffmpeg (screenCapture s)).
    intros p Hp. apply Ho. exact Hp.
  - cbn in Ht. apply andb_prop in Ht. destruct Ht as [He Ht].
    apply IH; [now apply inv_handle | now apply owned_handle | exact Ht].
Qed.

Example reload_trace_is_not_timely : timely reload_trace init = false.
Proof. reflexivity. Qed.

(** [stop()] looks at the handle only: in an idle session that still
    holds one it sends the signal, to a process that is gone after a
    self-exit and to a live one after the late exit report of a
    reload. *)
Example stop_while_idle_after_exit :
  isRunning (screenCapture (run crash_trace init)) = false /\
  log (stop (run crash_trace init)) = [CallStart; Spawn 0; Kill 0] /\
  procs (stop (run crash_trace init)) = [Closed].
Proof. vm_compute. repeat split; reflexivity. Qed.

Example stop_while_idle_after_reload :
  isRunning (screenCapture (run reload_prefix init)) = false /\
  isCapturing (run reload_prefix init) = false /\
  procs (run reload_prefix init) = [Closed; Alive] /\
  procs (stop (run reload_prefix init)) = [Closed; Terminating].
Proof. vm_compute. repeat split; reflexivity. Qed.

(** ** The claims about the server *)

(** C1. The specification asks that at most one ffmpeg process runs at
    any time, whatever the order of joins, leaves and process exits.
    On [reload_trace] the late 'close' of the first process clears
    [isRunning] and [isCapturing] while the second process is running,
    so the third connection spawns another one: processes 1 and 2 are
    both alive, neither was ever signalled, and the handle only knows
    the last. *)
Theorem reload_spawns_second_producer :
  admissible reload_trace init = true /\
  procs (run reload_trace init) = [Closed; Alive; Alive] /\
  alive (run reload_trace init) = 2 /\
  screenCapture (run reload_trace init) =
    {| ffmpeg := Some 2; isRunning := true |} /\
  log (run reload_trace init) =
    [CallStart; Spawn 0; CallStop; Kill 0; CallStart; Spawn 1;
     CallStart; Spawn 2].
Proof. vm_compute. repeat split; reflexivity. Qed.

(** C3, as stated, fails: with two viewers of which the first is
    closing, the fan-out of a chunk leaves the closing socket in the
    set. *)
Lemma fanout_keeps_closed_socket :
  ~ fanout_as_specified first_closing sample_chunk two_viewers.
Proof.
  intros H. destruct (H 1) as [_ Hclosed].
  - vm_compute. auto.
  - destruct (Hclosed eq_refl) as [_ Hrem]. apply Hrem.
    vm_compute. auto.
Qed.

(** C3, amended. On each fan-out every open connection of the set is
    sent the chunk exactly as the set lists it, a connection that is
    not open is skipped without any call, skipping one connection does
    not affect the delivery to the others, and the set itself is left
    unchanged: removal is the business of the socket's own 'close' and
    'error' listeners. *)
Theorem fanout_sends_to_open_only
    (readyState : WebSocket -> ReadyState) (chunk : Buffer) (s : State) :
  log (broadcast readyState chunk s) =
    log s ++ sends readyState chunk (clients s) /\
  clients (broadcast readyState chunk s) = clients s /\
  (forall ws, In ws (clients s) ->
     (isOPEN (readyState ws) = true ->
        In (Send ws chunk) (sends readyState chunk (clients s))) /\
     (isOPEN (readyState ws) = false ->
        forall c, ~ In (Send ws c) (sends readyState chunk (clients s)))).
Proof.
  destruct (broadcast_fold readyState chunk (clients s) s)
    as (Hc & _ & _ & _ & Hl).
  unfold broadcast. split; [exact Hl | split; [exact Hc |]].
  intros ws Hin. split.
  - intros Ho. apply in_sends. auto.
  - intros Hcl c Hs. apply in_sends in Hs.
    destruct Hs as (_ & Ho & _). congruence.
Qed.

Lemma fanout_sends_to_open_only_witness :
  In 1 (clients two_viewers) /\ In 2 (clients two_viewers) /\
  isOPEN (first_closing 1) = false /\ isOPEN (first_closing 2) = true /\
  log (broadcast first_closing sample_chunk two_viewers) =
    log two_viewers ++ [Send 2 sample_chunk] /\
  In (Send 2 sample_chunk)
     (sends first_closing sample_chunk (clients two_viewers)) /\
  ~ In (Send 1 sample_chunk)
       (sends first_closing sample_chunk (clients two_viewers)).
Proof.
  destruct (fanout_sends_to_open_only first_closing sample_chunk two_viewers)
    as (Hl & _ & Hall).
  assert (H1 : In 1 (clients two_viewers)) by (vm_compute; auto).
  assert (H2 : In 2 (clients two_viewers)) by (vm_compute; auto).
  split; [exact H1|]. split; [exact H2|].
  split; [reflexivity|]. split; [reflexivity|].
  split; [exact Hl|]. split.
  - exact (proj1 (Hall 2 H2) eq_refl).
  - exact (proj2 (Hall 1 H1) eq_refl sample_chunk).
Defined.

(** After [socket_error_trace] the set is empty, the session is
    still running, and the log holds neither a call to [stop()] nor a
    signal: the 'error' listener only deletes the socket. *)
Example socket_error_leaves_producer_running :
  admissible socket_error_trace init = true /\
  clients (run socket_error_trace init) = [] /\
  isCapturing (run socket_error_trace init) = true /\
  screenCapture (run socket_error_trace init) =
    {| ffmpeg := Some 0; isRunning := true |} /\
  procs (run socket_error_trace init) = [Alive] /\
  log (run socket_error_trace init) = [CallStart; Spawn 0].
Proof. vm_compute. repeat split; reflexivity. Qed.

(** C9. The specification asks that the handle is present exactly
    when the session is running.  After ffmpeg exits on its own
    ([crash_trace]) the session is idle and the handle still points to
    the process that is gone. *)
Theorem self_exit_keeps_handle :
  admissible crash_trace init = true /\
  procs (run crash_trace init) = [Closed] /\
  isRunning (screenCapture (run crash_trace init)) = false /\
  ffmpeg (screenCapture (run crash_trace init)) = Some 0.
Proof. vm_compute. repeat split; reflexivity. Qed.

(** ** The subscriber set *)

Lemma mem_In ws l : mem ws l = true <-> In ws l.
Proof.
  unfold mem. rewrite existsb_exists. split.
  - intros (x & Hin & Heq). apply Nat.eqb_eq in Heq. now subst.
  - intros Hin. exists ws. split; [exact Hin | apply Nat.eqb_refl].
Qed.

Lemma mem_false ws l : mem ws l = false <-> ~ In ws l.
Proof.
  rewrite <- mem_In. destruct (mem ws l); split; intros H; congruence.
Qed.

Lemma In_add x ws l : In x (add ws l) <-> x = ws \/ In x l.
Proof.
  unfold add. destruct (mem ws l) eqn:Hm.
  - apply mem_In in Hm. split; [auto | intros [->|H]; assumption].
  - rewrite in_app_iff. cbn. split.
    + intros [H|[H|[]]]; auto.
    + intros [H|H]; auto.
Qed.

Lemma In_delete x ws l : In x (delete ws l) <-> x <> ws /\ In x l.
Proof.
  unfold delete. rewrite filter_In, negb_true_iff, Nat.eqb_neq. tauto.
Qed.

Lemma NoDup_add ws l : NoDup l -> NoDup (add ws l).
Proof.
  intros H. unfold add. destruct (mem ws l) eqn:Hm; [exact H|].
  apply mem_false in Hm. apply NoDup_app; auto.
  - constructor; [intros [] | constructor].
  - intros a Ha [<-|[]]. exact (Hm Ha).
Qed.

Lemma NoDup_delete ws l : NoDup l -> NoDup (delete ws l).
Proof. intros H. unfold delete. now apply NoDup_filter. Qed.

Lemma delete_absent ws l : ~ In ws l -> delete ws l = l.
Proof.
  intros H. unfold delete. induction l as [|x l IH]; [reflexivity|].
  cbn. destruct (Nat.eqb_spec x ws) as [->|Hne]; cbn.
  - exfalso. apply H. now left.
  - f_equal. apply IH. intros Hin. apply H. now right.
Qed.

(** ** What an event adds to the log *)

Lemma handle_log e s : log (handle e s) = log s ++ effects e s.
Proof.
  destruct e as [ws|ws|ws|p c rs|p code|p]; cbn [handle effects].
  - unfold on_connection. cbn.
    destruct (isCapturing s); cbn; [now rewrite app_nil_r|].
    unfold start. cbn. destruct (isRunning (screenCapture s)); cbn;
      [reflexivity | now rewrite <- app_assoc].
  - unfold ws_on_close. cbn.
    destruct ((length (delete ws (clients s)) =? 0) && isCapturing s); cbn;
      [|now rewrite app_nil_r].
    unfold stop. cbn. destruct (ffmpeg (screenCapture s)); cbn;
      [now rewrite <- app_assoc | reflexivity].
  - cbn. now rewrite app_nil_r.
  - unfold broadcast. now destruct (broadcast_fold rs c (clients s) s)
      as (_ & _ & _ & _ & ->).
  - cbn. now rewrite app_nil_r.
  - cbn. now rewrite app_nil_r.
Qed.

Lemma broadcast_sockets rs chunk l : forall s,
  let s' := fold_left
    (fun acc client =>
       if isOPEN (rs client) then emit (Send client chunk) acc else acc) l s in
  accepted s' = accepted s /\ closed s' = closed s.
Proof.
  induction l as [|c l IH]; intros s; cbn; [auto|].
  specialize (IH (if isOPEN (rs c) then emit (Send c chunk) s else s)).
  cbn in IH. destruct IH as [Ha Hc]. rewrite Ha, Hc.
  destruct (isOPEN (rs c)); auto.
Qed.

Lemma run_app tr1 tr2 : forall s, run (tr1 ++ tr2) s = run tr2 (run tr1 s).
Proof. induction tr1 as [|e tr1 IH]; intros s; [reflexivity | apply IH]. Qed.

Lemma admissible_reachable tr : forall s,
  reachable s -> admissible tr s = true -> reachable (run tr s).
Proof.
  induction tr as [|e tr IH]; intros s Hs Ha; [exact Hs|].
  cbn in Ha. apply andb_prop in Ha. destruct Ha as [He Ha].
  cbn. apply IH; [now apply reach_step | exact Ha].
Qed.

(** ** The set stays tidy *)

Lemma mem_cons x y l : mem x (y :: l) = (x =? y) || mem x l.
Proof. reflexivity. Qed.

Lemma tidy_init : tidy init.
Proof.
  split; [constructor|]. split.
  - intros ws [].
  - intros ws H. discriminate H.
Qed.

Lemma tidy_handle e s : enabled e s = true -> tidy s -> tidy (handle e s).
Proof.
  intros He (Hnd & Hin & Hcl).
  destruct e as [ws|ws|ws|p c rs|p code|p]; cbn in He.
  - apply negb_true_iff in He.
    assert (Hnc : mem ws (closed s) = false).
    { destruct (mem ws (closed s)) eqn:E; [|reflexivity].
      specialize (Hcl ws E). congruence. }
    assert (Hclients : clients (handle (Connection ws) s) = add ws (clients s)).
    { cbn. unfold on_connection. cbn. destruct (isCapturing s); cbn; [reflexivity|].
      unfold start. cbn. destruct (isRunning (screenCapture s)); reflexivity. }
    assert (Hacc : accepted (handle (Connection ws) s) = ws :: accepted s).
    { cbn. unfold on_connection. cbn. destruct (isCapturing s); cbn; [reflexivity|].
      unfold start. cbn. destruct (isRunning (screenCapture s)); reflexivity. }
    assert (Hclo : closed (handle (Connection ws) s) = closed s).
    { cbn. unfold on_connection. cbn. destruct (isCapturing s); cbn; [reflexivity|].
      unfold start. cbn. destruct (isRunning (screenCapture s)); reflexivity. }
    unfold tidy. rewrite Hclients, Hacc, Hclo. split; [now apply NoDup_add|]. split.
    + intros x Hx. apply In_add in Hx. destruct Hx as [->|Hx].
      * split; [rewrite mem_cons; now rewrite Nat.eqb_refl | exact Hnc].
      * destruct (Hin x Hx) as [H1 H2]. split; [|exact H2].
        rewrite mem_cons, H1. apply orb_true_r.
    + intros x Hx. rewrite mem_cons, (Hcl x Hx). apply orb_true_r.
  - apply andb_prop in He. destruct He as [Hacc Hncl].
    assert (Hclients : clients (handle (WsClose ws) s) = delete ws (clients s)).
    { cbn. unfold ws_on_close. cbn.
      destruct ((length (delete ws (clients s)) =? 0) && isCapturing s);
        [|reflexivity].
      unfold stop. cbn. destruct (ffmpeg (screenCapture s)); reflexivity. }
    assert (Ha : accepted (handle (WsClose ws) s) = accepted s).
    { cbn. unfold ws_on_close. cbn.
      destruct ((length (delete ws (clients s)) =? 0) && isCapturing s);
        [|reflexivity].
      unfold stop. cbn. destruct (ffmpeg (screenCapture s)); reflexivity. }
    assert (Hc : closed (handle (WsClose ws) s) = ws :: closed s).
    { cbn. unfold ws_on_close. cbn.
      destruct ((length (delete ws (clients s)) =? 0) && isCapturing s);
        [|reflexivity].
      unfold stop. cbn. destruct (ffmpeg (screenCapture s)); reflexivity. }
    unfold tidy. rewrite Hclients, Ha, Hc. split; [now apply NoDup_delete|]. split.
    + intros x Hx. apply In_delete in Hx. destruct Hx as [Hne Hx].
      destruct (Hin x Hx) as [H1 H2]. split; [exact H1|].
      rewrite mem_cons, H2. apply Nat.eqb_neq in Hne.
      rewrite Hne. reflexivity.
    + intros x Hx. rewrite mem_cons in Hx.
      apply orb_prop in Hx. destruct Hx as [Hx|Hx].
      * apply Nat.eqb_eq in Hx. now subst.
      * now apply Hcl.
  - unfold tidy. cbn. split; [now apply NoDup_delete|]. split; [|exact Hcl].
    intros x Hx. apply In_delete in Hx. destruct Hx as [_ Hx]. now apply Hin.
  - unfold tidy. cbn [handle]. unfold broadcast.
    destruct (broadcast_fold rs c (clients s) s) as (Hc' & _).
    destruct (broadcast_sockets rs c (clients s) s) as (Ha' & Hcl').
    rewrite Hc', Ha', Hcl'. auto.
  - exact (conj Hnd (conj Hin Hcl)).
  - exact (conj Hnd (conj Hin Hcl)).
Qed.

Lemma reachable_tidy s : reachable s -> tidy s.
Proof. induction 1; [apply tidy_init | now apply tidy_handle]. Qed.

(** ** What a socket is sent *)

Lemma received_app ws l1 l2 :
  received ws (l1 ++ l2) = received ws l1 ++ received ws l2.
Proof.
  induction l1 as [|e l1 IH]; [reflexivity|].
  destruct e; cbn; rewrite ?IH; try reflexivity.
  destruct (ws0 =? ws); [cbn; f_equal|]; reflexivity.
Qed.

Lemma received_sends_absent ws rs chunk l :
  ~ In ws l -> received ws (sends rs chunk l) = [].
Proof.
  unfold sends. induction l as [|x l IH]; intros Hn; [reflexivity|].
  cbn. assert (Hx : x <> ws) by (intros ->; apply Hn; now left).
  assert (Hl : ~ In ws l) by (intros H; apply Hn; now right).
  destruct (isOPEN (rs x)); cbn; [|now apply IH].
  apply Nat.eqb_neq in Hx. rewrite Hx. now apply IH.
Qed.

Lemma received_sends ws rs chunk l :
  NoDup l ->
  received ws (sends rs chunk l) =
    if mem ws l && isOPEN (rs ws) then [chunk] else [].
Proof.
  unfold sends. induction 1 as [|x l Hx Hnd IH]; [reflexivity|].
  cbn [mem existsb filter]. destruct (Nat.eqb_spec ws x) as [->|Hne]; cbn [orb].
  - cbn [andb]. destruct (isOPEN (rs x)); cbn.
    + rewrite Nat.eqb_refl. f_equal.
      apply (received_sends_absent x rs chunk l Hx).
    + apply (received_sends_absent x rs chunk l Hx).
  - fold (mem ws l). destruct (isOPEN (rs x)); cbn; [|exact IH].
    assert (Hne' : x <> ws) by congruence. apply Nat.eqb_neq in Hne'.
    rewrite Hne'. exact IH.
Qed.

Lemma received_handle ws e s :
  NoDup (clients s) ->
  received ws (log (handle e s)) = received ws (log s) ++ delivery ws e s.
Proof.
  intros Hnd. rewrite handle_log, received_app. f_equal.
  destruct e as [x|x|x|p c rs|p code|p]; cbn [effects delivery];
    try reflexivity.
  - destruct (isCapturing s); [reflexivity|].
    destruct (isRunning (screenCapture s)); reflexivity.
  - destruct ((length (delete x (clients s)) =? 0) && isCapturing s);
      [|reflexivity].
    destruct (ffmpeg (screenCapture s)); reflexivity.
  - now apply received_sends.
Qed.

Lemma sublist_nil_l {A} (l : list A) : sublist [] l.
Proof. induction l; constructor; assumption. Qed.

Lemma sublist_refl {A} (l : list A) : sublist l l.
Proof. induction l; constructor; assumption. Qed.

Lemma sublist_length {A} (l1 l2 : list A) :
  sublist l1 l2 -> length l1 <= length l2.
Proof. induction 1; cbn; lia. Qed.

(** ** Properties beyond the claims: the subscriber set *)

(** X1. [clients.add] and [clients.delete] behave as set insertion
    and removal on the insertion-ordered list: the added socket is a
    member, the deleted one is not, other sockets are unaffected, both
    are idempotent, and a list without repetitions stays so, growing
    by one exactly when the socket was absent. *)
Theorem clients_set_laws (ws x : WebSocket) (l : list WebSocket) :
  mem ws (add ws l) = true /\ mem ws (delete ws l) = false /\
  add ws (add ws l) = add ws l /\ delete ws (delete ws l) = delete ws l /\
  (x <> ws -> mem x (add ws l) = mem x l /\ mem x (delete ws l) = mem x l) /\
  (NoDup l ->
     NoDup (add ws l) /\ NoDup (delete ws l) /\
     length (add ws l) = if mem ws l then length l else S (length l)).
Proof.
  assert (Hadd : mem ws (add ws l) = true) by (apply mem_In, In_add; auto).
  assert (Hdel : mem ws (delete ws l) = false).
  { apply mem_false. intros H. apply In_delete in H. tauto. }
  split; [exact Hadd|]. split; [exact Hdel|]. split; [|split; [|split]].
  - unfold add at 1. now rewrite Hadd.
  - apply delete_absent. apply mem_false. exact Hdel.
  - intros Hne. split.
    + destruct (mem x l) eqn:E.
      * apply mem_In. apply In_add. right. now apply mem_In.
      * apply mem_false. intros H. apply In_add in H. destruct H as [H|H];
          [contradiction|]. apply mem_In in H. congruence.
    + destruct (mem x l) eqn:E.
      * apply mem_In. apply In_delete. split; [exact Hne | now apply mem_In].
      * apply mem_false. intros H. apply In_delete in H. destruct H as [_ H].
        apply mem_In in H. congruence.
  - intros Hnd. split; [now apply NoDup_add|]. split; [now apply NoDup_delete|].
    unfold add. destruct (mem ws l); [reflexivity|].
    rewrite length_app. cbn. lia.
Qed.

Lemma clients_set_laws_witness :
  1 <> 2 /\ NoDup [1; 3] /\
  mem 2 (add 2 [1; 3]) = true /\ mem 2 (delete 2 [1; 2; 3]) = false /\
  mem 1 (delete 2 [1; 2; 3]) = mem 1 [1; 2; 3] /\
  length (add 2 [1; 3]) = 3.
Proof.
  assert (Hnd : NoDup [1; 3]).
  { constructor; [intros [H|[]]; discriminate H|].
    constructor; [intros []| constructor]. }
  destruct (clients_set_laws 2 1 [1; 3]) as (H1 & _ & _ & _ & _ & H6).
  destruct (clients_set_laws 2 1 [1; 2; 3]) as (_ & H2 & _ & _ & H5 & _).
  split; [discriminate|]. split; [exact Hnd|]. split; [exact H1|].
  split; [exact H2|]. split.
  - apply H5. discriminate.
  - exact (proj2 (proj2 (H6 Hnd))).
Defined.

(** X2. In every state the server can reach, the subscriber set lists
    no socket twice and holds only sockets whose 'connection' has
    fired and whose 'close' has not. *)
Theorem subscriber_set_is_tidy (tr : list Event) :
  admissible tr init = true ->
  NoDup (clients (run tr init)) /\
  (forall ws, In ws (clients (run tr init)) ->
     mem ws (accepted (run tr init)) = true /\
     mem ws (closed (run tr init)) = false).
Proof.
  intros Ha.
  destruct (reachable_tidy (admissible_reachable tr reach_init Ha))
    as (H1 & H2 & _).
  split; assumption.
Qed.

Lemma subscriber_set_is_tidy_witness :
  admissible relay_trace init = true /\
  clients (run relay_trace init) = [2] /\
  NoDup (clients (run relay_trace init)) /\
  mem 2 (closed (run relay_trace init)) = false.
Proof.
  destruct (subscriber_set_is_tidy relay_trace eq_refl) as [Hnd Hin].
  split; [reflexivity|]. split; [reflexivity|]. split; [exact Hnd|].
  apply (Hin 2). vm_compute. auto.
Defined.

(** X3. When a chunk arrives in a reachable state, every socket that
    is in the set and open is sent it exactly once, and every other
    socket is sent nothing; in particular nothing is sent to a socket
    after its 'close' event. *)
Theorem fanout_exactly_once (tr : list Event) (p : Pid) (chunk : Buffer)
    (readyState : WebSocket -> ReadyState) (ws : WebSocket) :
  admissible tr init = true ->
  let s := run tr init in
  let s' := handle (FfmpegData p chunk readyState) s in
  received ws (log s') =
    received ws (log s) ++
    (if mem ws (clients s) && isOPEN (readyState ws) then [chunk] else []) /\
  (mem ws (closed s) = true -> received ws (log s') = received ws (log s)).
Proof.
  intros Ha s s'.
  destruct (reachable_tidy (admissible_reachable tr reach_init Ha))
    as (Hnd & Hin & _). fold s in Hnd, Hin.
  assert (Hstep := received_handle ws (FfmpegData p chunk readyState) s Hnd).
  fold s' in Hstep. cbn [delivery] in Hstep. split; [exact Hstep|].
  intros Hcl. rewrite Hstep.
  destruct (mem ws (clients s)) eqn:Hm; cbn; [|apply app_nil_r].
  apply mem_In in Hm. destruct (Hin ws Hm) as [_ Habs]. congruence.
Qed.

Lemma fanout_exactly_once_witness :
  admissible [Connection 1; Connection 2; WsClose 1] init = true /\
  (let s := run [Connection 1; Connection 2; WsClose 1] init in
   mem 1 (closed s) = true /\
   received 2 (log (handle (FfmpegData 0 sample_chunk allOpen) s)) =
     [sample_chunk] /\
   received 1 (log (handle (FfmpegData 0 sample_chunk allOpen) s)) = []).
Proof.
  split; [reflexivity|]. cbv zeta. split; [reflexivity|]. split.
  - exact (proj1 (fanout_exactly_once
      [Connection 1; Connection 2; WsClose 1] 0 sample_chunk allOpen 2 eq_refl)).
  - exact (proj2 (fanout_exactly_once
      [Connection 1; Connection 2; WsClose 1] 0 sample_chunk allOpen 1 eq_refl)
      eq_refl).
Defined.

Lemma delivery_sublist ws tr : forall s,
  tidy s -> admissible tr s = true ->
  exists d, received ws (log (run tr s)) = received ws (log s) ++ d /\
            sublist d (emitted tr).
Proof.
  induction tr as [|e tr IH]; intros s Ht Ha.
  - exists []. cbn. split; [now rewrite app_nil_r | constructor].
  - cbn in Ha. apply andb_prop in Ha. destruct Ha as [He Ha].
    destruct (IH (handle e s) (@tidy_handle e s He Ht) Ha) as (d & Hd & Hs).
    exists (delivery ws e s ++ d). split.
    + cbn [run]. rewrite Hd, (received_handle ws e s (proj1 Ht)).
      now rewrite app_assoc.
    + destruct e as [x|x|x|p c rs|p code|p]; cbn [delivery emitted app];
        try exact Hs.
      destruct (mem ws (clients s) && isOPEN (rs ws)); cbn;
        constructor; exact Hs.
Qed.

(** X4. Whatever the order of joins, leaves, errors, chunks and
    exits, the chunks a socket has been sent are a subsequence of the
    chunks ffmpeg emitted, in emission order and without
    repetition. *)
Theorem delivery_preserves_order (tr : list Event) (ws : WebSocket) :
  admissible tr init = true ->
  sublist (received ws (log (run tr init))) (emitted tr) /\
  length (received ws (log (run tr init))) <= length (emitted tr).
Proof.
  intros Ha. destruct (@delivery_sublist ws tr init tidy_init Ha) as (d & Hd & Hs).
  cbn in Hd. rewrite Hd. split; [exact Hs | now apply sublist_length].
Qed.

Lemma delivery_preserves_order_witness :
  admissible relay_trace init = true /\
  emitted relay_trace = [[x01]; [x02]; [x03]; [x04]] /\
  received 1 (log (run relay_trace init)) = [[x01]; [x03]] /\
  received 2 (log (run relay_trace init)) = [[x01]; [x02]; [x03]; [x04]] /\
  sublist (received 1 (log (run relay_trace init))) (emitted relay_trace).
Proof.
  split; [reflexivity|]. split; [reflexivity|]. split; [reflexivity|].
  split; [reflexivity|].
  exact (proj1 (delivery_preserves_order relay_trace 1 eq_refl)).
Defined.

(** ** Properties beyond the claims: the producer *)

Lemma spawned_app l1 l2 : spawned (l1 ++ l2) = spawned l1 ++ spawned l2.
Proof.
  induction l1 as [|e l1 IH]; [reflexivity|].
  destruct e; cbn; rewrite ?IH; reflexivity.
Qed.

Lemma killed_app l1 l2 : killed (l1 ++ l2) = killed l1 ++ killed l2.
Proof.
  induction l1 as [|e l1 IH]; [reflexivity|].
  destruct e; cbn; rewrite ?IH; reflexivity.
Qed.

Lemma starts_app l1 l2 : starts (l1 ++ l2) = starts l1 + starts l2.
Proof.
  induction l1 as [|e l1 IH]; [reflexivity|].
  destruct e; cbn; rewrite ?IH; reflexivity.
Qed.

Lemma stops_app l1 l2 : stops (l1 ++ l2) = stops l1 + stops l2.
Proof.
  induction l1 as [|e l1 IH]; [reflexivity|].
  destruct e; cbn; rewrite ?IH; reflexivity.
Qed.

Lemma sends_silent rs chunk l :
  spawned (sends rs chunk l) = [] /\ killed (sends rs chunk l) = [] /\
  starts (sends rs chunk l) = 0 /\ stops (sends rs chunk l) = 0.
Proof.
  unfold sends. induction l as [|x l IH]; cbn; [auto|].
  destruct (isOPEN (rs x)); cbn; exact IH.
Qed.

Lemma length_set_status l : forall p st,
  length (set_status p st l) = length l.
Proof.
  induction l as [|x l IH]; intros p st; destruct p; cbn; auto.
Qed.

Lemma length_sigterm p l : length (sigterm p l) = length l.
Proof.
  unfold sigterm. destruct (nth_error l p) as [[| |]|];
    auto using length_set_status.
Qed.

Lemma ledger_init : ledger init.
Proof.
  unfold ledger. cbn.
  split; [reflexivity|]. split; [reflexivity|]. split; [reflexivity|].
  split; [constructor|]. split; [intros p []|].
  intros h H. discriminate H.
Qed.

Lemma ledger_handle e s : inv s -> ledger s -> ledger (handle e s).
Proof.
  intros [Hi1 Hi2] (Hsp & Hst & Hsto & Hnd & Hk & Hh).
  destruct e as [ws|ws|ws|p c rs|p code|p].
  - cbn [handle]. unfold on_connection. cbn.
    destruct (isCapturing s) eqn:Hc; cbn.
    + unfold ledger. cbn. auto 10.
    + assert (Hr : isRunning (screenCapture s) = false).
      { destruct (isRunning (screenCapture s)); [|reflexivity].
        specialize (Hi1 eq_refl). congruence. }
      unfold start. cbn. rewrite Hr. unfold ledger. cbn.
      rewrite <- !app_assoc, spawned_app, starts_app, stops_app, killed_app,
        !length_app. cbn. rewrite !app_nil_r, Hsp, Hst, Hsto.
      rewrite Nat.add_1_r, seq_S. cbn.
      repeat split; auto; try lia.
      * destruct (Hk p H) as [Hlt _]. lia.
      * destruct (Hk p H) as [Hlt _]. intros E. inversion E. lia.
      * intros h E. inversion E. lia.
  - cbn [handle]. unfold ws_on_close.
    match goal with |- context [if ?c then _ else _] => destruct c eqn:Hcond end.
    + apply andb_prop in Hcond. destruct Hcond as [_ Hc]. cbn in Hc.
      unfold stop. cbn.
      destruct (ffmpeg (screenCapture s)) as [h|] eqn:Hf;
        [|specialize (Hi2 Hc); congruence].
      unfold ledger. cbn.
      rewrite <- !app_assoc, spawned_app, starts_app, stops_app, killed_app,
        length_app, length_sigterm. cbn.
      rewrite !app_nil_r, Hsp, Hst, Hsto.
      repeat split; auto; try lia.
      * apply NoDup_app; auto.
        -- constructor; [intros []|constructor].
        -- intros a Ha [E|[]]. subst a.
           destruct (Hk h Ha) as [_ Hne]. congruence.
      * apply in_app_iff in H. destruct H as [H|[<-|[]]];
          [now destruct (Hk p H) | now apply Hh].
      * discriminate.
      * intros h0 E. discriminate E.
    + unfold ledger. cbn. auto 10.
  - unfold ledger. cbn. auto 10.
  - cbn [handle]. unfold broadcast.
    destruct (broadcast_fold rs c (clients s) s) as (_ & _ & Hsc & Hp & Hl).
    destruct (sends_silent rs c (clients s)) as (S1 & S2 & S3 & S4).
    unfold ledger.
    rewrite Hsc, Hp, Hl, spawned_app, killed_app, starts_app, stops_app,
      S1, S2, S3, S4, !app_nil_r, !Nat.add_0_r.
    auto 10.
  - unfold ledger. cbn. rewrite length_set_status. auto 10.
  - unfold ledger. cbn. auto 10.
Qed.

Lemma reachable_ledger s : reachable s -> ledger s.
Proof.
  induction 1; [apply ledger_init|].
  apply ledger_handle; [now apply reachable_inv | assumption].
Qed.

(** X5. In every reachable state the log and the process table agree:
    each call of [start()] by the server spawned a process (the
    "already running" branch is never taken), each call of [stop()]
    sent a signal, processes are numbered in spawn order, and SIGTERM
    goes only to a process that was spawned, at most once per
    process, and never to the one the handle still points to. *)
Theorem calls_match_processes (tr : list Event) :
  admissible tr init = true ->
  let s := run tr init in
  spawned (log s) = seq 0 (length (procs s)) /\
  starts (log s) = length (spawned (log s)) /\
  stops (log s) = length (killed (log s)) /\
  NoDup (killed (log s)) /\
  (forall p, In p (killed (log s)) ->
     In p (spawned (log s)) /\ ffmpeg (screenCapture s) <> Some p).
Proof.
  intros Ha s.
  destruct (reachable_ledger (admissible_reachable tr reach_init Ha))
    as (Hsp & Hst & Hsto & Hnd & Hk & _). fold s in Hsp, Hst, Hsto, Hnd, Hk.
  rewrite Hsp, length_seq. repeat split; auto.
  - apply in_seq. destruct (Hk p H). lia.
  - now destruct (Hk p H).
Qed.

Lemma calls_match_processes_witness :
  admissible reload_trace init = true /\
  spawned (log (run reload_trace init)) = [0; 1; 2] /\
  starts (log (run reload_trace init)) = 3 /\
  stops (log (run reload_trace init)) = 1 /\
  killed (log (run reload_trace init)) = [0] /\
  NoDup (killed (log (run reload_trace init))).
Proof.
  destruct (calls_match_processes reload_trace eq_refl)
    as (_ & _ & _ & Hnd & _).
  repeat (split; [reflexivity|]). exact Hnd.
Defined.

Lemma filter_none_alive l :
  (forall p, nth_error l p <> Some Alive) ->
  filter (ProcStatus_eqb Alive) l = [].
Proof.
  induction l as [|x l IH]; intros H; [reflexivity|].
  cbn. destruct x; cbn.
  - exfalso. apply (H 0). reflexivity.
  - apply IH. intros p. apply (H (S p)).
  - apply IH. intros p. apply (H (S p)).
Qed.

Lemma filter_some_alive l : forall h,
  nth_error l h = Some Alive ->
  1 <= length (filter (ProcStatus_eqb Alive) l).
Proof.
  induction l as [|x l IH]; intros h H; [destruct h; discriminate H|].
  destruct h as [|h]; cbn in H.
  - inversion H. cbn. lia.
  - specialize (IH h H). cbn. destruct x; cbn; lia.
Qed.

Lemma owned_init : owned init.
Proof. intros p H. destruct p; discriminate H. Qed.

Lemma quiet_timely e s : quiet_event e = true -> timely_event e s = true.
Proof. destruct e; cbn; intros H; congruence. Qed.

Lemma add_not_nil ws l : add ws l <> [].
Proof.
  unfold add. destruct (mem ws l) eqn:Hm.
  - apply mem_In in Hm. intros ->. exact Hm.
  - destruct l; discriminate.
Qed.

Lemma connection_fields ws s :
  clients (handle (Connection ws) s) = add ws (clients s) /\
  (isCapturing s = true ->
     isCapturing (handle (Connection ws) s) = true /\
     screenCapture (handle (Connection ws) s) = screenCapture s /\
     procs (handle (Connection ws) s) = procs s) /\
  (isCapturing s = false -> isRunning (screenCapture s) = false ->
     isCapturing (handle (Connection ws) s) = true /\
     screenCapture (handle (Connection ws) s) =
       {| ffmpeg := Some (length (procs s)); isRunning := true |} /\
     procs (handle (Connection ws) s) = procs s ++ [Alive]).
Proof.
  cbn [handle]. unfold on_connection. cbn.
  destruct (isCapturing s) eqn:Hc; cbn.
  - split; [reflexivity|]. split; [auto | discriminate].
  - unfold start. cbn. destruct (isRunning (screenCapture s)) eqn:Hr; cbn;
      (split; [reflexivity|]; split; [discriminate|]);
      [discriminate | auto].
Qed.

Lemma ws_close_fields ws s :
  clients (handle (WsClose ws) s) = delete ws (clients s) /\
  (delete ws (clients s) = [] -> isCapturing s = true ->
     forall h, ffmpeg (screenCapture s) = Some h ->
     isCapturing (handle (WsClose ws) s) = false /\
     screenCapture (handle (WsClose ws) s) =
       {| ffmpeg := None; isRunning := false |} /\
     procs (handle (WsClose ws) s) = sigterm h (procs s)) /\
  (delete ws (clients s) <> [] \/ isCapturing s = false ->
     isCapturing (handle (WsClose ws) s) = isCapturing s /\
     screenCapture (handle (WsClose ws) s) = screenCapture s /\
     procs (handle (WsClose ws) s) = procs s).
Proof.
  cbn [handle]. unfold ws_on_close. cbn.
  destruct (delete ws (clients s)) as [|d ds] eqn:Hd; cbn.
  - destruct (isCapturing s) eqn:Hc; cbn.
    + unfold stop. cbn. destruct (ffmpeg (screenCapture s)) as [h|] eqn:Hf; cbn.
      * split; [exact Hd|]. split.
        -- intros _ _ h0 E. inversion E. subst. auto.
        -- intros [H|H]; congruence.
      * split; [exact Hd|]. split.
        -- intros _ _ h0 E. discriminate E.
        -- intros [H|H]; congruence.
    + rewrite Hd, Hc. split; [reflexivity|]. split; [discriminate | auto].
  - rewrite Hd. split; [reflexivity|]. split; [discriminate | auto].
Qed.

Lemma inStep_handle e s :
  quiet_event e = true -> inStep s -> inStep (handle e s).
Proof.
  intros Hq Hs. destruct e as [ws|ws|ws|p c rs|p code|p]; try discriminate Hq.
  - destruct (connection_fields ws s) as (Hcl & Hon & Hoff).
    unfold inStep in *. rewrite Hcl.
    destruct (add ws (clients s)) as [|a l] eqn:Hadd;
      [now apply add_not_nil in Hadd|].
    destruct (clients s) as [|c0 cs].
    + destruct Hs as [Hc Hsc].
      destruct (Hoff Hc) as (H1 & H2 & H3); [now rewrite Hsc|].
      split; [exact H1|]. exists (length (procs s)). split; [exact H2|].
      rewrite H3, nth_error_app2 by lia. now rewrite Nat.sub_diag.
    + destruct Hs as [Hc (h & Hsc & Hh)].
      destruct (Hon Hc) as (H1 & H2 & H3).
      split; [exact H1|]. exists h. now rewrite H2, H3.
  - destruct (ws_close_fields ws s) as (Hcl & Hdrain & Hkeep).
    unfold inStep in *. rewrite Hcl.
    destruct (delete ws (clients s)) as [|d ds] eqn:Hdel.
    + destruct (clients s) as [|c0 cs].
      * destruct Hs as [Hc Hsc].
        destruct (Hkeep (or_intror Hc)) as (H1 & H2 & _).
        now rewrite H1, H2.
      * destruct Hs as [Hc (h & Hsc & Hh)].
        destruct (Hdrain eq_refl Hc h) as (H1 & H2 & _); [now rewrite Hsc|].
        auto.
    + assert (Hne : d :: ds <> []) by discriminate.
      destruct (Hkeep (or_introl Hne)) as (H1 & H2 & H3).
      rewrite H1, H2, H3.
      destruct (clients s) as [|c0 cs];
        [unfold delete in Hdel; discriminate Hdel | exact Hs].
  - cbn [handle]. unfold broadcast, inStep in *.
    destruct (broadcast_fold rs c (clients s) s) as (Hc & Hic & Hsc & Hp & _).
    rewrite Hc, Hic, Hsc, Hp. exact Hs.
Qed.

Lemma quiet_invariants tr : forall s,
  quiet tr = true -> inv s -> owned s -> inStep s ->
  owned (run tr s) /\ inStep (run tr s).
Proof.
  induction tr as [|e tr IH]; intros s Hq Hi Ho Hs; [auto|].
  cbn in Hq. apply andb_prop in Hq. destruct Hq as [He Hq].
  cbn. apply IH; auto.
  - now apply inv_handle.
  - apply owned_handle; auto. now apply quiet_timely.
  - now apply inStep_handle.
Qed.

(** ** Leaving: 'error' removes, 'close' stops *)

Lemma delete_twice ws l : delete ws (delete ws l) = delete ws l.
Proof.
  unfold delete. induction l as [|x l IH]; [reflexivity|].
  cbn. destruct (x =? ws) eqn:E; cbn; [exact IH|].
  rewrite E. cbn. now rewrite IH.
Qed.

(** The 'error' listener is the first statement of the 'close'
    listener and nothing more, and that statement is idempotent: an
    'error' followed by the 'close' of the same socket leaves the
    server where the 'close' alone would have left it. *)
Lemma error_then_close ws s :
  handle (WsClose ws) (handle (WsError ws) s) = handle (WsClose ws) s.
Proof.
  destruct s as [cl ic sc pr ac clo lg]. cbn [handle].
  unfold ws_on_error, ws_on_close, mark_closed, set_clients. cbn.
  now rewrite delete_twice.
Qed.

(** C4, as stated, fails: when the only viewer's socket reports an
    error, the 'error' listener takes it out of the set, which is now
    empty while the session is running, and [stop()] is not called by
    that removal. *)
Lemma error_drain_calls_no_stop :
  ~ leave_as_specified (WsError 1) (run [Connection 1] init).
Proof.
  intros H.
  assert (Hf : 0 = 1).
  { apply H; [discriminate | reflexivity | reflexivity]. }
  discriminate Hf.
Qed.

(** C4, amended. A removal by the 'close' event that empties the set
    while the session is running calls [stop()], which sends SIGTERM
    to the process behind the handle and leaves the session idle.
    The 'error' event only removes the socket.  The drain it causes
    is acted on by the 'close' event of the same socket: that listener
    finds the set as the 'error' left it, and calls [stop()] if it is
    empty and the server still capturing, so that 'error' followed by
    'close' ends in the very state 'close' alone ends in.  A 'close'
    that leaves viewers in the set, or finds the server not
    capturing, calls nothing. *)
Theorem drain_is_stopped_at_close (tr : list Event) (ws : WebSocket) :
  admissible tr init = true ->
  let s := run tr init in
  leave_as_specified (WsClose ws) s /\
  (isRunning (screenCapture s) = true -> isCapturing s = true) /\
  (delete ws (clients s) = [] -> isCapturing s = true ->
     exists h, ffmpeg (screenCapture s) = Some h /\
       log (handle (WsClose ws) s) = log s ++ [CallStop; Kill h] /\
       isCapturing (handle (WsClose ws) s) = false /\
       screenCapture (handle (WsClose ws) s) =
         {| ffmpeg := None; isRunning := false |} /\
       procs (handle (WsClose ws) s) = sigterm h (procs s)) /\
  (delete ws (clients s) <> [] \/ isCapturing s = false ->
     log (handle (WsClose ws) s) = log s) /\
  handle (WsError ws) s = set_clients (delete ws) s /\
  handle (WsClose ws) (handle (WsError ws) s) = handle (WsClose ws) s.
Proof.
  intros Ha s.
  assert (Hr : reachable s) by exact (admissible_reachable tr reach_init Ha).
  destruct (reachable_inv Hr) as [Hi1 Hi2].
  destruct (ws_close_fields ws s) as (Hcl & Hdrain & _).
  assert (Hstop : delete ws (clients s) = [] -> isCapturing s = true ->
            exists h, ffmpeg (screenCapture s) = Some h /\
              log (handle (WsClose ws) s) = log s ++ [CallStop; Kill h] /\
              isCapturing (handle (WsClose ws) s) = false /\
              screenCapture (handle (WsClose ws) s) =
                {| ffmpeg := None; isRunning := false |} /\
              procs (handle (WsClose ws) s) = sigterm h (procs s)).
  { intros Hd Hc.
    destruct (ffmpeg (screenCapture s)) as [h|] eqn:Hf;
      [|specialize (Hi2 Hc); congruence].
    exists h. destruct (Hdrain Hd Hc h eq_refl) as (H1 & H2 & H3).
    split; [reflexivity|]. split; [|auto].
    cbn [handle]. unfold ws_on_close. cbn. rewrite Hd, Hc. cbn.
    unfold stop. cbn. rewrite Hf. cbn. now rewrite <- app_assoc. }
  split; [|split; [exact Hi1|split; [exact Hstop|split; [|split]]]].
  - intros _ Hempty Hrun. rewrite Hcl in Hempty.
    destruct (Hstop Hempty (Hi1 Hrun)) as (h & _ & Hl & _).
    rewrite Hl, stops_app. cbn. lia.
  - intros Hno. cbn [handle]. unfold ws_on_close. cbn.
    destruct (delete ws (clients s)) as [|d ds] eqn:Hd; cbn.
    + destruct Hno as [Hne|Hc]; [congruence|]. now rewrite Hc.
    + reflexivity.
  - reflexivity.
  - apply error_then_close.
Qed.

Lemma drain_is_stopped_at_close_witness :
  admissible socket_error_trace init = true /\
  clients (run socket_error_trace init) = [] /\
  log (run socket_error_trace init) = [CallStart; Spawn 0] /\
  log (handle (WsClose 1) (run socket_error_trace init)) =
    [CallStart; Spawn 0; CallStop; Kill 0] /\
  procs (handle (WsClose 1) (run socket_error_trace init)) = [Terminating] /\
  handle (WsClose 1) (run socket_error_trace init) =
    handle (WsClose 1) (run [Connection 1] init).
Proof.
  destruct (drain_is_stopped_at_close socket_error_trace 1 eq_refl)
    as (_ & _ & Hstop & _).
  destruct (Hstop eq_refl eq_refl) as (h & Hh & Hl & _ & _ & Hp).
  cbn in Hh. injection Hh as <-.
  split; [reflexivity|]. split; [reflexivity|]. split; [reflexivity|].
  split; [exact Hl|]. split; [exact Hp|].
  exact (proj2 (proj2 (proj2 (proj2 (proj2
    (drain_is_stopped_at_close [Connection 1] 1 eq_refl)))))).
Defined.

(** X6. As long as only joins, leaves by 'close' and chunks occur,
    the server is capturing exactly when it has viewers.  With
    viewers the session is running and exactly one ffmpeg process has
    not been sent SIGTERM, the one behind the handle; with no viewers
    the session is idle, no handle is held, and no process is left
    that has not been sent SIGTERM.  (A process that has been sent
    SIGTERM may still be running: [stop()] does not wait for it.) *)
Theorem capturing_iff_viewers (tr : list Event) :
  quiet tr = true ->
  let s := run tr init in
  (clients s = [] ->
     alive s = 0 /\ isCapturing s = false /\
     screenCapture s = {| ffmpeg := None; isRunning := false |} /\
     (forall p, nth_error (procs s) p <> Some Alive)) /\
  (clients s <> [] ->
     alive s = 1 /\ isCapturing s = true /\
     exists h, screenCapture s = {| ffmpeg := Some h; isRunning := true |} /\
               nth_error (procs s) h = Some Alive /\
               (forall p, nth_error (procs s) p = Some Alive -> p = h)).
Proof.
  intros Hq s.
  assert (Hinit : inStep init) by (cbn; auto).
  destruct (@quiet_invariants tr init Hq inv_init owned_init Hinit) as [Ho Hs].
  fold s in Ho, Hs. unfold inStep in Hs.
  destruct (clients s) as [|c cs]; split; try congruence.
  - intros _. destruct Hs as [Hc Hsc].
    assert (Hnone : forall p, nth_error (procs s) p <> Some Alive).
    { intros p Hp. destruct (Ho p Hp) as [_ Habs]. congruence. }
    split; [|auto].
    unfold alive. now rewrite filter_none_alive.
  - intros _. destruct Hs as [Hc (h & Hsc & Hh)]. split; [|split; [exact Hc|]].
    + unfold alive.
      assert (Hle := @owned_alive_le_1 (procs s) (ffmpeg (screenCapture s))
                       (fun p Hp => proj1 (Ho p Hp))).
      assert (Hge := @filter_some_alive (procs s) h Hh). lia.
    + exists h. split; [exact Hsc|]. split; [exact Hh|].
      intros p Hp. destruct (Ho p Hp) as [Hf _]. rewrite Hsc in Hf.
      cbn in Hf. congruence.
Qed.

Lemma capturing_iff_viewers_witness :
  quiet relay_trace = true /\
  clients (run relay_trace init) <> [] /\
  alive (run relay_trace init) = 1 /\
  quiet [Connection 1; Connection 2; WsClose 2; WsClose 1; Connection 3] = true /\
  procs (run [Connection 1; Connection 2; WsClose 2; WsClose 1; Connection 3]
           init) = [Terminating; Alive] /\
  alive (run [Connection 1; Connection 2; WsClose 2; WsClose 1; Connection 3]
           init) = 1 /\
  quiet [Connection 1; Connection 2; WsClose 2; WsClose 1] = true /\
  clients (run [Connection 1; Connection 2; WsClose 2; WsClose 1] init) = [] /\
  alive (run [Connection 1; Connection 2; WsClose 2; WsClose 1] init) = 0.
Proof.
  assert (Hne : clients (run relay_trace init) <> []).
  { intros H. discriminate H. }
  assert (Hne3 : clients (run [Connection 1; Connection 2; WsClose 2;
                              WsClose 1; Connection 3] init) <> []).
  { intros H. discriminate H. }
  destruct (capturing_iff_viewers relay_trace eq_refl) as [_ Hsome].
  destruct (capturing_iff_viewers
              [Connection 1; Connection 2; WsClose 2; WsClose 1; Connection 3]
              eq_refl) as [_ Hsome3].
  destruct (capturing_iff_viewers
              [Connection 1; Connection 2; WsClose 2; WsClose 1] eq_refl)
    as [Hnone _].
  split; [reflexivity|]. split; [exact Hne|].
  split; [exact (proj1 (Hsome Hne))|].
  split; [reflexivity|]. split; [reflexivity|].
  split; [exact (proj1 (Hsome3 Hne3))|].
  split; [reflexivity|]. split; [reflexivity|].
  exact (proj1 (Hnone eq_refl)).
Defined.

Lemma timely_invariants tr : forall s,
  timely tr s = true -> inv s -> owned s -> inv (run tr s) /\ owned (run tr s).
Proof.
  induction tr as [|e tr IH]; intros s Ht Hi Ho; [auto|].
  cbn in Ht. apply andb_prop in Ht. destruct Ht as [He Ht].
  cbn. apply IH; [exact Ht | now apply inv_handle | now apply owned_handle].
Qed.

(** X7. If every exit report of ffmpeg arrives while its process is
    still the one behind the handle (or while no handle is held), then
    whatever else happens at most one ffmpeg process is left that has
    neither been sent SIGTERM nor exited, and it is the one behind
    the handle of a capturing server: every other process has been
    told to stop.  (Such a process may still be running: [stop()]
    does not wait for it.) *)
Theorem at_most_one_unsignalled_producer (tr : list Event) :
  timely tr init = true ->
  let s := run tr init in
  alive s <= 1 /\
  (forall p, nth_error (procs s) p = Some Alive ->
     ffmpeg (screenCapture s) = Some p /\ isCapturing s = true).
Proof.
  intros Ht s.
  destruct (@timely_invariants tr init Ht inv_init owned_init) as [_ Ho].
  fold s in Ho. split; [|exact Ho].
  unfold alive.
  apply @owned_alive_le_1 with (h := ffmpeg (screenCapture s)).
  intros p Hp. now apply Ho.
Qed.

Lemma at_most_one_unsignalled_producer_witness :
  timely [Connection 1; WsClose 1; Connection 2; Connection 3] init = true /\
  procs (run [Connection 1; WsClose 1; Connection 2; Connection 3] init) =
    [Terminating; Alive] /\
  alive (run [Connection 1; WsClose 1; Connection 2; Connection 3] init) <= 1.
Proof.
  split; [reflexivity|]. split; [reflexivity|].
  exact (proj1 (at_most_one_unsignalled_producer
           [Connection 1; WsClose 1; Connection 2; Connection 3] eq_refl)).
Defined.

(** X8. Under the same condition the [shutdown] handler leaves no
    ffmpeg process un-signalled. *)
Theorem shutdown_signals_the_producer (tr : list Event) :
  timely tr init = true -> alive (shutdown (run tr init)) = 0.
Proof.
  intros Ht. destruct (@timely_invariants tr init Ht inv_init owned_init) as [_ Ho].
  set (s := run tr init) in *. unfold alive, shutdown, stop. cbn.
  destruct (ffmpeg (screenCapture s)) as [h|] eqn:Hf; cbn.
  - rewrite filter_none_alive; [reflexivity|].
    intros p Hp. apply nth_error_sigterm in Hp. destruct Hp as [Hne Hp].
    destruct (Ho p Hp) as [Hh _]. congruence.
  - rewrite filter_none_alive; [reflexivity|].
    intros p Hp. destruct (Ho p Hp) as [Hh _]. congruence.
Qed.

Lemma shutdown_signals_the_producer_witness :
  timely [Connection 1; Connection 2; WsError 1] init = true /\
  alive (run [Connection 1; Connection 2; WsError 1] init) = 1 /\
  alive (shutdown (run [Connection 1; Connection 2; WsError 1] init)) = 0.
Proof.
  split; [reflexivity|]. split; [reflexivity|].
  exact (shutdown_signals_the_producer
           [Connection 1; Connection 2; WsError 1] eq_refl).
Defined.

Lemma capturing_has_viewers tr : forall s,
  errorFree tr = true ->
  (isCapturing s = true -> clients s <> []) ->
  isCapturing (run tr s) = true -> clients (run tr s) <> [].
Proof.
  induction tr as [|e tr IH]; intros s He Hs; [exact Hs|].
  cbn in He. apply andb_prop in He. destruct He as [He Htr].
  cbn [run]. apply IH; [exact Htr|]. clear IH Htr.
  destruct e as [ws|ws|ws|p c rs|p code|p]; try discriminate He.
  - intros _. cbn. unfold on_connection. cbn.
    destruct (isCapturing s); cbn; [apply add_not_nil|].
    unfold start. cbn.
    destruct (isRunning (screenCapture s)); cbn; apply add_not_nil.
  - cbn. unfold ws_on_close. cbn.
    destruct (delete ws (clients s)) as [|d ds] eqn:Hd; cbn.
    + destruct (isCapturing s) eqn:Hc; cbn.
      * unfold stop. cbn. destruct (ffmpeg (screenCapture s)); cbn; discriminate.
      * rewrite Hc. discriminate.
    + rewrite Hd. intros _. discriminate.
  - cbn [handle]. unfold broadcast.
    destruct (broadcast_fold rs c (clients s) s) as (Hc & Hic & _).
    now rewrite Hc, Hic.
  - cbn. discriminate.
  - exact Hs.
Qed.

(** X9. If exit reports are timely and no socket leaves by an 'error'
    event, a server without viewers is not capturing and has no
    ffmpeg process left that has neither been sent SIGTERM nor
    exited.  (A process that has been sent SIGTERM may still be
    running: [stop()] does not wait for it.) *)
Theorem no_viewers_no_unsignalled_producer (tr : list Event) :
  timely tr init = true -> errorFree tr = true ->
  clients (run tr init) = [] ->
  alive (run tr init) = 0 /\ isCapturing (run tr init) = false /\
  (forall p, nth_error (procs (run tr init)) p <> Some Alive).
Proof.
  intros Ht He Hcl.
  destruct (@timely_invariants tr init Ht inv_init owned_init) as [_ Ho].
  assert (Hc : isCapturing (run tr init) = false).
  { destruct (isCapturing (run tr init)) eqn:E; [|reflexivity].
    exfalso. apply (@capturing_has_viewers tr init He); auto.
    cbn. discriminate. }
  assert (Hnone : forall p, nth_error (procs (run tr init)) p <> Some Alive).
  { intros p Hp. destruct (Ho p Hp) as [_ Habs]. congruence. }
  split; [|split; [exact Hc | exact Hnone]].
  unfold alive. now rewrite filter_none_alive.
Qed.

Lemma no_viewers_no_unsignalled_producer_witness :
  timely [Connection 1; Connection 2; WsClose 1;
          FfmpegData 0 sample_chunk allOpen; WsClose 2] init = true /\
  errorFree [Connection 1; Connection 2; WsClose 1;
             FfmpegData 0 sample_chunk allOpen; WsClose 2] = true /\
  clients (run [Connection 1; Connection 2; WsClose 1;
                FfmpegData 0 sample_chunk allOpen; WsClose 2] init) = [] /\
  procs (run [Connection 1; Connection 2; WsClose 1;
              FfmpegData 0 sample_chunk allOpen; WsClose 2] init) =
    [Terminating] /\
  alive (run [Connection 1; Connection 2; WsClose 1;
              FfmpegData 0 sample_chunk allOpen; WsClose 2] init) = 0.
Proof.
  split; [reflexivity|]. split; [reflexivity|]. split; [reflexivity|].
  split; [reflexivity|].
  exact (proj1 (no_viewers_no_unsignalled_producer
    [Connection 1; Connection 2; WsClose 1;
     FfmpegData 0 sample_chunk allOpen; WsClose 2] eq_refl eq_refl eq_refl)).
Defined.

End ServerProps.

(* ================================================================== *)
(** * Properties of the client *)
(* ================================================================== *)

Module ClientProps.
Import Client.

Local Open Scope cb_scope.

Example session_state :
  session =
    {| wsRef := Some {| socketState := WsIsOpen |};
       mediaSourceRef := Some {| readyState := MSOpen |};
       sourceBufferRef :=
         Some {| ident := 0; updating := false; buffered := [] |};
       queueRef := []; isAppendingRef := false; bytesReceivedRef := 0%Z;
       isConnected := true; isBuffering := true; error := None;
       stats := {| bufferedSeconds := 0%float; bytesReceived := 0%Z |};
       videoMounted := true; video := {| paused := true |};
       created := 1; log := [] |}.
Proof. reflexivity. Qed.

Example rejected_log :
  log (run rejected_trace session) =
    [AppendBuffer s1 true; UpdateEndFired; Play;
     AppendBuffer s2 false; AppendBuffer s3 true] /\
  queueRef (run rejected_trace session) = [].
Proof. vm_compute. split; reflexivity. Qed.

(** ** [appendNextChunk], case by case *)

Ltac unfold_setters :=
  unfold set_wsRef, set_mediaSourceRef, set_sourceBufferRef, set_queueRef,
    set_isAppendingRef, set_bytesReceivedRef, setIsConnected, setIsBuffering,
    setError, setStats, set_video, set_created, record in *.

Ltac cb_unfold :=
  unfold onmessage, onUpdateEnd, appendNextChunk, evict, cleanup, connect,
    disconnect, onSourceOpen, onopen, onerror, onclose, onMediaSourceError,
    addSourceBuffer, newWebSocket, appendBuffer, remove, endOfStream, play,
    readBuffered, shift, bind, tryCatch, get, modify, ret, throw in *.

Lemma deliverable_true s :
  deliverable s = true ->
  exists sb chunk rest,
    sourceBufferRef s = Some sb /\ updating sb = false /\
    isAppendingRef s = false /\ queueRef s = chunk :: rest.
Proof.
  unfold deliverable. destruct (sourceBufferRef s) as [sb|]; [|discriminate].
  destruct (isAppendingRef s), (queueRef s) as [|c r],
    (updating sb) eqn:Hu; cbn; try (intros H; discriminate H).
  intros _. exists sb, c, r. auto.
Qed.

(** Behind a guard the call changes nothing. *)
Lemma appendNextChunk_blocked env s :
  deliverable s = false -> appendNextChunk env s = (s, Ok tt).
Proof.
  unfold deliverable. cb_unfold.
  destruct (sourceBufferRef s) as [sb|]; [|reflexivity].
  destruct (isAppendingRef s); [reflexivity|].
  destruct (queueRef s) as [|c r]; [reflexivity|].
  destruct (updating sb); [reflexivity | discriminate].
Qed.

(** Past the guards the head of the queue is handed to [appendBuffer];
    if the decode buffer takes it, the flag stays up. *)
Lemma appendNextChunk_taken env s sb chunk rest :
  sourceBufferRef s = Some sb -> updating sb = false ->
  isAppendingRef s = false -> queueRef s = chunk :: rest ->
  quotaExceeded env = false ->
  appendNextChunk env s =
    (record (AppendBuffer chunk true)
       (set_sourceBufferRef
          (Some {| ident := ident sb; updating := true;
                   buffered := buffered sb |})
          (set_queueRef rest (set_isAppendingRef true s))),
     Ok tt).
Proof.
  intros Hsb Hu Ha Hq He. cb_unfold. rewrite Hsb, Ha, Hq. cbn.
  rewrite Hu. cbn. rewrite Hq. cbn. rewrite Hsb. cbn. rewrite Hu, He.
  reflexivity.
Qed.

(** If the decode buffer raises, the chunk has left the queue, the
    flag is cleared, and the recovery branch runs. *)
Lemma appendNextChunk_rejected env s sb chunk rest :
  sourceBufferRef s = Some sb -> updating sb = false ->
  isAppendingRef s = false -> queueRef s = chunk :: rest ->
  quotaExceeded env = true ->
  let s' := fst (appendNextChunk env s) in
  snd (appendNextChunk env s) = Ok tt /\
  log s' = log s ++ AppendBuffer chunk false :: eviction env sb /\
  queueRef s' = rest /\ isAppendingRef s' = false /\
  sourceBufferRef s' =
    Some {| ident := ident sb;
            updating := existsb (fun c => match c with
                                          | Remove _ _ ok => ok
                                          | _ => false
                                          end) (eviction env sb);
            buffered := buffered sb |} /\
  wsRef s' = wsRef s /\ mediaSourceRef s' = mediaSourceRef s /\
  bytesReceivedRef s' = bytesReceivedRef s /\
  isConnected s' = isConnected s /\ isBuffering s' = isBuffering s /\
  error s' = error s /\ stats s' = stats s /\ video s' = video s /\
  videoMounted s' = videoMounted s.
Proof.
  intros Hsb Hu Ha Hq He. unfold eviction. cb_unfold.
  rewrite Hsb, Ha, Hq. cbn. rewrite Hu. cbn. rewrite Hq. cbn.
  rewrite Hsb. cbn. rewrite Hu, He. cbn. rewrite Hsb. cbn. rewrite Hu. cbn.
  destruct sb as [i u [|[a b] rs]]; cbn in *; subst u.
  - repeat split; try reflexivity; assumption.
  - destruct (gtb (b - a)%float 10%float); cbn.
    + rewrite Hsb. cbn. destruct (removeRaises env); cbn;
        rewrite <- ?app_assoc; repeat split; try reflexivity; assumption.
    + repeat split; try reflexivity; assumption.
Qed.

(** [appendNextChunk] never raises. *)
Lemma appendNextChunk_returns env s : snd (appendNextChunk env s) = Ok tt.
Proof.
  destruct (deliverable s) eqn:Hd.
  - destruct (deliverable_true s Hd) as (sb & c & r & Hsb & Hu & Ha & Hq).
    destruct (quotaExceeded env) eqn:He.
    + now apply (appendNextChunk_rejected env s Hsb Hu Ha Hq He).
    + now rewrite (appendNextChunk_taken env s Hsb Hu Ha Hq He).
  - now rewrite appendNextChunk_blocked.
Qed.

(** ** Frame and log of one delivery attempt *)

Lemma submitted_app l1 l2 : submitted (l1 ++ l2) = submitted l1 ++ submitted l2.
Proof.
  induction l1 as [|c l1 IH]; [reflexivity|].
  destruct c; cbn; rewrite ?IH; reflexivity.
Qed.

Lemma plays_app l1 l2 : plays (l1 ++ l2) = (plays l1 + plays l2)%nat.
Proof.
  induction l1 as [|c l1 IH]; [reflexivity|].
  destruct c; cbn; rewrite ?IH; reflexivity.
Qed.

Lemma pendingAfter_app l1 l2 b :
  pendingAfter b (l1 ++ l2) = pendingAfter (pendingAfter b l1) l2.
Proof.
  revert b. induction l1 as [|c l1 IH]; intros b; [reflexivity|].
  destruct c; cbn; apply IH.
Qed.

Lemma oneAtATime_app l1 l2 b :
  oneAtATime b (l1 ++ l2) =
  oneAtATime b l1 && oneAtATime (pendingAfter b l1) l2.
Proof.
  revert b. induction l1 as [|c l1 IH]; intros b; [reflexivity|].
  destruct c; cbn; rewrite ?IH, ?andb_assoc; reflexivity.
Qed.

Lemma eviction_shape env sb :
  submitted (eviction env sb) = [] /\ plays (eviction env sb) = 0%nat /\
  (forall b, pendingAfter b (eviction env sb) = b) /\
  (forall b, oneAtATime b (eviction env sb) = true).
Proof.
  unfold eviction. destruct (buffered sb) as [|[a b] rs].
  - cbn. auto.
  - destruct (gtb (b - a)%float 10%float); cbn; auto.
Qed.

(** One attempt either does nothing, or hands the head of the queue
    to a decode buffer that is not updating. *)
Lemma deliver_cases env s :
  deliver env s = s \/
  exists sb chunk,
    sourceBufferRef s = Some sb /\ updating sb = false /\
    queueRef s = chunk :: queueRef (deliver env s) /\
    log (deliver env s) =
      log s ++ AppendBuffer chunk (negb (quotaExceeded env)) ::
               (if quotaExceeded env then eviction env sb else []) /\
    (quotaExceeded env = false -> bufferUpdating (deliver env s) = true).
Proof.
  unfold deliver. destruct (deliverable s) eqn:Hd.
  - right. destruct (deliverable_true s Hd) as (sb & c & r & Hsb & Hu & Ha & Hq).
    exists sb, c. destruct (quotaExceeded env) eqn:He.
    + destruct (appendNextChunk_rejected env s Hsb Hu Ha Hq He)
        as (_ & Hl & Hq' & _).
      rewrite Hq'. repeat split; auto; discriminate.
    + rewrite (appendNextChunk_taken env s Hsb Hu Ha Hq He). cbn.
      repeat split; auto.
  - left. now rewrite appendNextChunk_blocked.
Qed.

(** What an attempt leaves alone. *)
Lemma deliver_frame env s :
  wsRef (deliver env s) = wsRef s /\
  mediaSourceRef (deliver env s) = mediaSourceRef s /\
  bytesReceivedRef (deliver env s) = bytesReceivedRef s /\
  isConnected (deliver env s) = isConnected s /\
  isBuffering (deliver env s) = isBuffering s /\
  error (deliver env s) = error s /\ stats (deliver env s) = stats s /\
  video (deliver env s) = video s /\
  videoMounted (deliver env s) = videoMounted s /\
  plays (log (deliver env s)) = plays (log s).
Proof.
  unfold deliver. destruct (deliverable s) eqn:Hd.
  - destruct (deliverable_true s Hd) as (sb & c & r & Hsb & Hu & Ha & Hq).
    destruct (quotaExceeded env) eqn:He.
    + destruct (appendNextChunk_rejected env s Hsb Hu Ha Hq He)
        as (_ & Hl & _ & _ & _ & H1 & H2 & H3 & H4 & H5 & H6 & H7 & H8 & H9).
      rewrite Hl, plays_app. cbn.
      destruct (eviction_shape env sb) as (_ & Hp & _). rewrite Hp.
      repeat split; auto; lia.
    + rewrite (appendNextChunk_taken env s Hsb Hu Ha Hq He). cbn.
      rewrite plays_app. cbn. repeat split; auto; lia.
  - rewrite appendNextChunk_blocked by assumption. cbn. repeat split; auto.
Qed.

(** An attempt leaves the source buffer the hook holds in place. *)
Lemma deliver_holds env target s : holds target (deliver env s) = holds target s.
Proof.
  unfold deliver, holds. destruct (deliverable s) eqn:Hd.
  - destruct (deliverable_true s Hd) as (sb & c & r & Hsb & Hu & Ha & Hq).
    destruct (quotaExceeded env) eqn:He.
    + destruct (appendNextChunk_rejected env s Hsb Hu Ha Hq He)
        as (_ & _ & _ & _ & Hsb' & _).
      now rewrite Hsb', Hsb.
    + rewrite (appendNextChunk_taken env s Hsb Hu Ha Hq He). cbn.
      now rewrite Hsb.
  - now rewrite appendNextChunk_blocked.
Qed.

(** ** The listeners in terms of [deliver] *)

Lemma step_message env data s :
  step (env, WsMessage data) s = deliver env (enqueued data s).
Proof. reflexivity. Qed.

(** An 'updateend' whose listener can read [buffered]. *)
Lemma handle_updateend env target ranges s :
  handle env (UpdateEnd target (Some ranges)) s =
  appendNextChunk env
    (beforeNextChunk env ranges (platform (UpdateEnd target (Some ranges)) s)).
Proof.
  unfold handle. cbn [listener].
  set (s0 := platform (UpdateEnd target (Some ranges)) s).
  unfold onUpdateEnd, beforeNextChunk, readBuffered.
  unfold bind at 1. unfold modify at 1.
  unfold bind at 1. unfold bind at 1. unfold ret at 1.
  destruct ranges as [|[a b] rs]; [reflexivity|].
  unfold bind at 1. unfold get at 1.
  unfold bind at 1. unfold modify at 1.
  cbn [video setStats set_isAppendingRef bytesReceivedRef].
  destruct (gtb (b - a)%float 0.5%float && paused (video s0)); reflexivity.
Qed.

Lemma step_updateend env target ranges s :
  step (env, UpdateEnd target (Some ranges)) s =
  deliver env
    (beforeNextChunk env ranges (platform (UpdateEnd target (Some ranges)) s)).
Proof.
  unfold step, deliver. cbn [fst snd]. now rewrite handle_updateend.
Qed.

(** An 'updateend' whose listener cannot: the flag has been cleared
    when the exception leaves the listener, and nothing else is done. *)
Lemma handle_unreadable env target s :
  handle env (UpdateEnd target None) s =
  (set_isAppendingRef false (platform (UpdateEnd target None) s),
   Throw InvalidStateError).
Proof. reflexivity. Qed.

Lemma step_unreadable env target s :
  step (env, UpdateEnd target None) s =
  set_isAppendingRef false (platform (UpdateEnd target None) s).
Proof. reflexivity. Qed.

(** ** Invariants along a trace *)

Section TraceInvariant.

Variable I : State -> Prop.
Variable allowed : Env * Event -> bool.
Hypothesis preserve :
  forall ee s, allowed ee = true -> I s -> I (step ee s).

Lemma run_invariant tr : forall s,
  forallb allowed tr = true -> I s -> I (run tr s).
Proof.
  induction tr as [|ee tr IH]; intros s Hall Hs; [exact Hs|].
  cbn in Hall. apply andb_prop in Hall. destruct Hall as [Hee Htr].
  cbn. apply IH; auto.
Qed.

End TraceInvariant.

Lemma beforeNextChunk_log env ranges s :
  log (beforeNextChunk env ranges s) =
    log s ++ (if crossing ranges s then [Play] else []) /\
  queueRef (beforeNextChunk env ranges s) = queueRef s /\
  sourceBufferRef (beforeNextChunk env ranges s) = sourceBufferRef s /\
  error (beforeNextChunk env ranges s) = error s.
Proof.
  unfold beforeNextChunk, crossing. cbn.
  destruct ranges as [|[a b] rs]; cbn; [rewrite app_nil_r; auto|].
  destruct (gtb (b - a)%float 0.5%float && paused (video s)); cbn.
  - destruct (playAllowed env); cbn; auto.
  - rewrite app_nil_r; auto.
Qed.

Lemma beforeNextChunk_flag env ranges s :
  isAppendingRef (beforeNextChunk env ranges s) = false.
Proof.
  unfold beforeNextChunk. cbn.
  destruct ranges as [|[a b] rs]; [reflexivity|].
  destruct (gtb (b - a)%float 0.5%float && paused (video s)); [|reflexivity].
  unfold play. cbn. destruct (playAllowed env); reflexivity.
Qed.

(** What the platform side of an 'updateend' does: it reaches the
    state only through the source buffer the hook holds. *)
Lemma platform_updateend target reading s :
  log (platform (UpdateEnd target reading) s) =
    log s ++ (if holds target s then [UpdateEndFired] else []) /\
  queueRef (platform (UpdateEnd target reading) s) = queueRef s /\
  video (platform (UpdateEnd target reading) s) = video s /\
  isBuffering (platform (UpdateEnd target reading) s) = isBuffering s /\
  (holds target s = true ->
     bufferUpdating (platform (UpdateEnd target reading) s) = false) /\
  (holds target s = false -> platform (UpdateEnd target reading) s = s).
Proof.
  unfold holds, bufferUpdating. cbn.
  destruct (sourceBufferRef s) as [sb|] eqn:Hsb; cbn.
  - destruct (ident sb =? target); cbn; rewrite ?Hsb, ?app_nil_r;
      repeat split; auto; discriminate.
  - rewrite Hsb, app_nil_r. repeat split; auto; discriminate.
Qed.

Lemma platform_updateend_released target reading s :
  holds target s = false -> platform (UpdateEnd target reading) s = s.
Proof. intros H. now apply platform_updateend. Qed.

Lemma platform_updateend_held target reading s sb :
  sourceBufferRef s = Some sb -> ident sb = target ->
  platform (UpdateEnd target reading) s =
    record UpdateEndFired
      (set_sourceBufferRef
         (Some {| ident := ident sb; updating := false;
                  buffered := match reading with
                              | Some ranges => ranges
                              | None => buffered sb
                              end |}) s).
Proof. intros Hsb <-. cbn. rewrite Hsb, Nat.eqb_refl. reflexivity. Qed.

Lemma crossing_platform ranges e s :
  crossing ranges (platform e s) = crossing ranges s.
Proof.
  unfold crossing. destruct ranges as [|[a b] rs]; [reflexivity|].
  f_equal. destruct e; cbn; try reflexivity.
  - destruct (mediaSourceRef s); reflexivity.
  - destruct (sourceBufferRef s) as [sb|]; [|reflexivity].
    destruct (ident sb =? target); reflexivity.
  - destruct (wsRef s); reflexivity.
  - destruct (wsRef s); reflexivity.
Qed.

Lemma updateend_disciplined target reading s :
  disciplined s -> disciplined (platform (UpdateEnd target reading) s).
Proof.
  intros [Hone Hpend].
  destruct (platform_updateend target reading s) as (Hl & _ & _ & _ & Hh & Hn).
  destruct (holds target s).
  - unfold disciplined. rewrite Hl, oneAtATime_app, pendingAfter_app, Hone.
    cbn. split; [reflexivity | discriminate].
  - rewrite (Hn eq_refl). split; assumption.
Qed.

Lemma beforeNextChunk_disciplined env ranges s :
  disciplined s -> disciplined (beforeNextChunk env ranges s).
Proof.
  intros [Hone Hpend].
  destruct (beforeNextChunk_log env ranges s) as (Hl & _ & Hsb & _).
  unfold disciplined, bufferUpdating in *.
  rewrite Hl, Hsb, oneAtATime_app, pendingAfter_app, Hone.
  destruct (crossing ranges s); cbn; auto.
Qed.

Lemma deliver_disciplined env s : disciplined s -> disciplined (deliver env s).
Proof.
  intros [Hone Hpend].
  destruct (deliver_cases env s) as [->|(sb & c & Hsb & Hu & _ & Hl & Hup)];
    [split; assumption|].
  assert (Hidle : pendingAfter false (log s) = false).
  { destruct (pendingAfter false (log s)); [|reflexivity].
    specialize (Hpend eq_refl). unfold bufferUpdating in Hpend.
    rewrite Hsb in Hpend. congruence. }
  unfold disciplined. rewrite Hl, oneAtATime_app, pendingAfter_app, Hone, Hidle.
  cbn. destruct (quotaExceeded env); cbn.
  - destruct (eviction_shape env sb) as (_ & _ & Hp & Ho).
    rewrite Hp, Ho. split; [reflexivity | discriminate].
  - split; [reflexivity | auto].
Qed.

Lemma step_disciplined ee s :
  sameSession (snd ee) = true -> disciplined s -> disciplined (step ee s).
Proof.
  destruct ee as [env e]. cbn [snd]. intros He Hs.
  destruct e; try discriminate He.
  - exact Hs.
  - exact Hs.
  - exact Hs.
  - destruct reading as [ranges|].
    + rewrite step_updateend. apply deliver_disciplined.
      apply beforeNextChunk_disciplined. now apply updateend_disciplined.
    + rewrite step_unreadable.
      exact (updateend_disciplined target None Hs).
  - destruct Hs as [Hone Hp]. unfold step, handle, disciplined, bufferUpdating.
    cbn. destruct (wsRef s); cbn; auto.
  - rewrite step_message. apply deliver_disciplined. exact Hs.
  - exact Hs.
  - destruct Hs as [Hone Hp]. unfold step, handle, disciplined, bufferUpdating.
    cbn. destruct (wsRef s); cbn; auto.
Qed.

(** Everything that arrived has either been handed to [appendBuffer]
    or is still queued, in arrival order. *)
Lemma deliver_conserves env s :
  submitted (log (deliver env s)) ++ queueRef (deliver env s) =
  submitted (log s) ++ queueRef s.
Proof.
  destruct (deliver_cases env s) as [->|(sb & c & _ & _ & Hq & Hl & _)];
    [reflexivity|].
  rewrite Hl, Hq, submitted_app. cbn.
  replace (submitted (if quotaExceeded env then eviction env sb else []))
    with (@nil ArrayBuffer).
  - now rewrite <- app_assoc.
  - destruct (quotaExceeded env); [|reflexivity].
    now destruct (eviction_shape env sb) as (-> & _).
Qed.

(** Up to the call of [appendNextChunk] an 'updateend' hands nothing
    over and leaves the queue alone. *)
Lemma updateend_quiet env target reading ranges s :
  let s0 := beforeNextChunk env ranges (platform (UpdateEnd target reading) s) in
  submitted (log s0) = submitted (log s) /\ taken (log s0) = taken (log s) /\
  queueRef s0 = queueRef s.
Proof.
  cbv zeta.
  destruct (beforeNextChunk_log env ranges (platform (UpdateEnd target reading) s))
    as (Hl & Hq & _). rewrite Hl, Hq.
  destruct (platform_updateend target reading s) as (-> & -> & _).
  rewrite !submitted_app.
  assert (Ht : forall l1 l2, taken (l1 ++ l2) = taken l1 ++ taken l2).
  { intros l1 l2. induction l1 as [|c l1 IH]; [reflexivity|].
    destruct c as [chunk [|]| | | | |]; cbn; rewrite ?IH; reflexivity. }
  rewrite !Ht.
  destruct (holds target s), (crossing ranges _); cbn;
    rewrite ?app_nil_r; auto.
Qed.

Lemma unreadable_quiet target s :
  let s0 := set_isAppendingRef false (platform (UpdateEnd target None) s) in
  submitted (log s0) = submitted (log s) /\ taken (log s0) = taken (log s) /\
  queueRef s0 = queueRef s.
Proof.
  cbv zeta. cbn [log queueRef set_isAppendingRef].
  destruct (platform_updateend target None s) as (-> & -> & _).
  destruct (holds target s); cbn; rewrite ?app_nil_r; auto.
  rewrite submitted_app. cbn. rewrite app_nil_r. split; [reflexivity|].
  split; [|reflexivity].
  induction (log s) as [|c l IH]; [reflexivity|].
  destruct c as [chunk [|]| | | | |]; cbn; rewrite ?IH; reflexivity.
Qed.

Lemma step_conserves ee s :
  sameSession (snd ee) = true ->
  submitted (log (step ee s)) ++ queueRef (step ee s) =
  submitted (log s) ++ queueRef s ++ arrived [ee].
Proof.
  destruct ee as [env e]. cbn [snd]. intros He.
  destruct e; try discriminate He; cbn [arrived]; rewrite ?app_nil_r;
    try reflexivity.
  - destruct reading as [ranges|].
    + rewrite step_updateend, deliver_conserves.
      now destruct (updateend_quiet env target (Some ranges) ranges s)
        as (-> & _ & ->).
    + rewrite step_unreadable.
      now destruct (unreadable_quiet target s) as (-> & _ & ->).
  - unfold step, handle. cbn. destruct (wsRef s); reflexivity.
  - rewrite step_message, deliver_conserves. reflexivity.
  - unfold step, handle. cbn. destruct (wsRef s); reflexivity.
Qed.

Lemma run_conserves tr : forall s,
  inSession tr = true ->
  submitted (log (run tr s)) ++ queueRef (run tr s) =
  submitted (log s) ++ queueRef s ++ arrived tr.
Proof.
  induction tr as [|ee tr IH]; intros s Hin.
  - cbn. now rewrite app_nil_r.
  - cbn in Hin. apply andb_prop in Hin. destruct Hin as [Hee Htr].
    cbn [run]. rewrite (IH _ Htr), app_assoc, (step_conserves _ _ Hee).
    rewrite <- !app_assoc. do 2 f_equal.
    destruct ee as [env e]. destruct e; reflexivity.
Qed.

Lemma taken_app l1 l2 : taken (l1 ++ l2) = taken l1 ++ taken l2.
Proof.
  induction l1 as [|c l1 IH]; [reflexivity|].
  destruct c as [chunk [|]| | | | |]; cbn; rewrite ?IH; reflexivity.
Qed.

Lemma deliver_takes env s :
  quotaExceeded env = false ->
  taken (log (deliver env s)) ++ queueRef (deliver env s) =
  taken (log s) ++ queueRef s.
Proof.
  intros He.
  destruct (deliver_cases env s) as [->|(sb & c & _ & _ & Hq & Hl & _)];
    [reflexivity|].
  rewrite Hl, Hq, He, taken_app. cbn. now rewrite <- app_assoc.
Qed.

Lemma step_takes ee s :
  sameSession (snd ee) = true -> quotaExceeded (fst ee) = false ->
  taken (log (step ee s)) ++ queueRef (step ee s) =
  taken (log s) ++ queueRef s ++ arrived [ee].
Proof.
  destruct ee as [env e]. cbn [fst snd]. intros He Hq.
  destruct e; try discriminate He; cbn [arrived]; rewrite ?app_nil_r;
    try reflexivity.
  - destruct reading as [ranges|].
    + rewrite step_updateend, (deliver_takes _ _ Hq).
      now destruct (updateend_quiet env target (Some ranges) ranges s)
        as (_ & -> & ->).
    + rewrite step_unreadable.
      now destruct (unreadable_quiet target s) as (_ & -> & ->).
  - unfold step, handle. cbn. destruct (wsRef s); reflexivity.
  - rewrite step_message, (deliver_takes _ _ Hq). reflexivity.
  - unfold step, handle. cbn. destruct (wsRef s); reflexivity.
Qed.

Lemma run_takes tr : forall s,
  inSession tr = true -> neverFull tr = true ->
  taken (log (run tr s)) ++ queueRef (run tr s) =
  taken (log s) ++ queueRef s ++ arrived tr.
Proof.
  induction tr as [|ee tr IH]; intros s Hin Hnf.
  - cbn. now rewrite app_nil_r.
  - cbn in Hin, Hnf. apply andb_prop in Hin. apply andb_prop in Hnf.
    destruct Hin as [Hee Htr], Hnf as [Hq Hnf].
    apply negb_true_iff in Hq.
    cbn [run]. rewrite (IH _ Htr Hnf), app_assoc, (step_takes _ _ Hee Hq).
    rewrite <- !app_assoc. do 2 f_equal.
    destruct ee as [env e]. destruct e; reflexivity.
Qed.

(** While an append is pending a message is only queued. *)
Lemma message_while_pending env data s :
  appendPending s = true ->
  step (env, WsMessage data) s = enqueued data s.
Proof.
  intros Hp. rewrite step_message. unfold deliver.
  rewrite appendNextChunk_blocked; [reflexivity|].
  unfold appendPending in Hp. unfold deliverable. cbn.
  destruct (sourceBufferRef s) as [sb|]; [|reflexivity].
  destruct (isAppendingRef s); [reflexivity|].
  cbn in Hp. rewrite Hp. now rewrite andb_false_r.
Qed.

(** The 'updateend' of the source buffer the hook holds hands the
    head of the queue to [appendBuffer]. *)
Lemma updateend_delivers_head env ranges s sb chunk rest :
  sourceBufferRef s = Some sb -> queueRef s = chunk :: rest ->
  log (step (env, UpdateEnd (ident sb) (Some ranges)) s) =
    log s ++ UpdateEndFired ::
      (if crossing ranges s then [Play] else []) ++
      AppendBuffer chunk (negb (quotaExceeded env)) ::
      (if quotaExceeded env
       then eviction env {| ident := ident sb; updating := false;
                            buffered := ranges |}
       else []) /\
  queueRef (step (env, UpdateEnd (ident sb) (Some ranges)) s) = rest.
Proof.
  intros Hsb Hq. rewrite step_updateend.
  set (e := UpdateEnd (ident sb) (Some ranges)).
  set (s0 := beforeNextChunk env ranges (platform e s)).
  destruct (beforeNextChunk_log env ranges (platform e s))
    as (Hl & Hq0 & Hsb0 & _). fold s0 in Hl, Hq0, Hsb0.
  rewrite crossing_platform in Hl.
  assert (Hp := @platform_updateend_held (ident sb) (Some ranges) s sb Hsb eq_refl).
  fold e in Hp.
  rewrite Hp in Hl, Hq0, Hsb0. cbn in Hl, Hq0, Hsb0. rewrite Hq in Hq0.
  assert (Ha0 : isAppendingRef s0 = false) by apply beforeNextChunk_flag.
  unfold deliver. destruct (quotaExceeded env) eqn:He.
  - destruct (appendNextChunk_rejected env s0 Hsb0 eq_refl Ha0 Hq0 He)
      as (_ & Hl' & Hq' & _).
    rewrite Hl', Hl, Hq'. rewrite <- !app_assoc. cbn. auto.
  - rewrite (appendNextChunk_taken env s0 Hsb0 eq_refl Ha0 Hq0 He). cbn.
    rewrite Hl, <- !app_assoc. cbn. auto.
Qed.

(** ** The claims about the client *)

(** C2. Within a session, for every sequence of arriving segments and
    completion callbacks, [appendBuffer] is never called while an
    accepted append is waiting for its 'updateend'; a message that
    arrives while an append is pending is only added to the queue; and
    the 'updateend' callback is what hands the next queued segment to
    the decode buffer.  The sequence may also hold 'updateend' events
    of source buffers the hook has let go of, readable or not. *)
Theorem single_outstanding_append (tr : list (Env * Event)) (s : State) :
  inSession tr = true -> log s = [] ->
  oneAtATime false (log (run tr s)) = true /\
  (forall env data t,
     appendPending t = true ->
     step (env, WsMessage data) t = enqueued data t /\
     log (step (env, WsMessage data) t) = log t /\
     queueRef (step (env, WsMessage data) t) = queueRef t ++ [data]) /\
  (forall env ranges t sb chunk rest,
     sourceBufferRef t = Some sb -> queueRef t = chunk :: rest ->
     submitted (log (step (env, UpdateEnd (ident sb) (Some ranges)) t)) =
       submitted (log t) ++ [chunk] /\
     queueRef (step (env, UpdateEnd (ident sb) (Some ranges)) t) = rest).
Proof.
  intros Hin Hlog. split; [|split].
  - assert (Hd : disciplined (run tr s)).
    { apply run_invariant with (allowed := fun ee => sameSession (snd ee)).
      - intros ee t. apply step_disciplined.
      - exact Hin.
      - unfold disciplined. rewrite Hlog. cbn. split; [reflexivity|discriminate]. }
    apply Hd.
  - intros env data t Hp. rewrite (message_while_pending env data t Hp).
    repeat split.
  - intros env ranges t sb chunk rest Hsb Hq.
    destruct (updateend_delivers_head env ranges t Hsb Hq) as [Hl Hq'].
    split; [|exact Hq']. rewrite Hl, !submitted_app. cbn.
    rewrite submitted_app. cbn.
    replace (submitted (if crossing _ _ then [Play] else [])) with (@nil ArrayBuffer)
      by (destruct (crossing _ _); reflexivity).
    destruct (quotaExceeded env); [|reflexivity].
    now destruct (eviction_shape env {| ident := ident sb; updating := false;
                                        buffered := ranges |})
      as (-> & _).
Qed.

Lemma single_outstanding_append_witness :
  inSession rejected_trace = true /\ log session = [] /\
  oneAtATime false (log (run rejected_trace session)) = true /\
  appendPending inFlight = true /\
  queueRef (step (fine, WsMessage s3) inFlight) = [s2; s3] /\
  submitted (log (step (fine, updateEnd [(0, 3)%float]) inFlight)) = [s1; s2].
Proof.
  destruct (single_outstanding_append rejected_trace session eq_refl eq_refl)
    as (H1 & H2 & H3).
  split; [reflexivity|]. split; [reflexivity|]. split; [exact H1|].
  split; [reflexivity|]. split.
  - destruct (H2 fine s3 inFlight eq_refl) as (_ & _ & Hq). exact Hq.
  - destruct (H3 fine [(0, 3)%float] inFlight
                {| ident := 0; updating := true; buffered := [] |} s2 []
                eq_refl eq_refl)
      as (Hs & _).
    exact Hs.
Defined.

(** C5, as stated, fails: when the decode buffer raises on [s2] the
    segment has already been shifted off the queue and is not put
    back, so it is neither buffered nor queued. *)
Lemma rejected_segment_is_lost : ~ nothing_lost rejected_trace session.
Proof. unfold nothing_lost. vm_compute. discriminate. Qed.

(** C5, amended. Within a session, for every sequence of arriving
    segments and completion callbacks, the segments handed to the
    decode buffer followed by the segments still queued are exactly
    the arrival sequence: segments are handed over in strict arrival
    order, none is skipped or reordered, and none leaves the queue
    except by being handed over.  If moreover the decode buffer never
    raises, everything that arrived was taken by the decode buffer or
    is still queued. *)
Theorem arrival_order_preserved (tr : list (Env * Event)) (s : State) :
  inSession tr = true ->
  submitted (log (run tr s)) ++ queueRef (run tr s) =
    submitted (log s) ++ queueRef s ++ arrived tr /\
  (neverFull tr = true ->
   taken (log (run tr s)) ++ queueRef (run tr s) =
     taken (log s) ++ queueRef s ++ arrived tr).
Proof.
  intros Hin. split.
  - now apply run_conserves.
  - intros Hnf. now apply run_takes.
Qed.

Lemma arrival_order_preserved_witness :
  inSession rejected_trace = true /\
  submitted (log (run rejected_trace session)) ++
    queueRef (run rejected_trace session) = [s1; s2; s3] /\
  inSession crossing_trace = true /\ neverFull crossing_trace = true /\
  taken (log (run crossing_trace session)) ++
    queueRef (run crossing_trace session) = [s1; s2; s3].
Proof.
  split; [reflexivity|]. split.
  - exact (proj1 (arrival_order_preserved rejected_trace session eq_refl)).
  - split; [reflexivity|]. split; [reflexivity|].
    exact (proj2 (arrival_order_preserved crossing_trace session eq_refl)
             eq_refl).
Defined.

(** The recovery branch asks for the first five time units of the
    first buffered range exactly when the test of line 57 succeeds:
    the difference [end(0) - start(0)], as a number, is greater than
    ten. *)
Lemma eviction_spec env sb :
  (forall a b rs, buffered sb = (a, b) :: rs ->
     gtb (b - a)%float 10%float = true ->
     eviction env sb = [Remove a (a + 5)%float (negb (removeRaises env))]) /\
  (forall a b rs, buffered sb = (a, b) :: rs ->
     gtb (b - a)%float 10%float = false ->
     eviction env sb = []) /\
  (buffered sb = [] -> eviction env sb = []).
Proof.
  unfold eviction. repeat split.
  - intros a b rs -> H. now rewrite H.
  - intros a b rs -> H. now rewrite H.
  - now intros ->.
Qed.

(** C6, as stated, fails: with three seconds buffered the rejected
    append of [s2] is not followed by any call to [remove]. *)
Lemma short_buffer_is_not_evicted : ~ always_evicts rejected_trace session.
Proof.
  intros H. specialize (H s2). vm_compute in H.
  assert (Hf : false = true) by (apply H; auto 6).
  discriminate Hf.
Qed.

(** C6, amended. When [appendBuffer] raises, [appendNextChunk] returns
    normally; it calls [remove(start, start + 5)] on the first
    buffered range only if the number [end - start] is greater than
    ten, and makes no call otherwise; whether or not [remove] itself
    raises, the socket, the media source, the connection flag and the
    error message are left as they were; the flag is cleared, so the
    next queued segment is handed to [appendBuffer] by the next call
    if no eviction is running, and by the next 'updateend' of the
    buffer in any case. *)
Theorem append_error_is_contained
    (env : Env) (s : State) (sb : SourceBuffer)
    (chunk : ArrayBuffer) (rest : list ArrayBuffer) :
  sourceBufferRef s = Some sb -> updating sb = false ->
  isAppendingRef s = false -> queueRef s = chunk :: rest ->
  quotaExceeded env = true ->
  snd (appendNextChunk env s) = Ok tt /\
  log (deliver env s) = log s ++ AppendBuffer chunk false :: eviction env sb /\
  (forall a b rs, buffered sb = (a, b) :: rs ->
     gtb (b - a)%float 10%float = true ->
     eviction env sb = [Remove a (a + 5)%float (negb (removeRaises env))]) /\
  (forall a b rs, buffered sb = (a, b) :: rs ->
     gtb (b - a)%float 10%float = false ->
     eviction env sb = []) /\
  (buffered sb = [] -> eviction env sb = []) /\
  wsRef (deliver env s) = wsRef s /\
  mediaSourceRef (deliver env s) = mediaSourceRef s /\
  isConnected (deliver env s) = isConnected s /\
  error (deliver env s) = error s /\
  isAppendingRef (deliver env s) = false /\
  queueRef (deliver env s) = rest /\
  (forall env' ranges next rest',
     rest = next :: rest' ->
     (bufferUpdating (deliver env s) = false ->
      submitted (log (deliver env' (deliver env s))) =
        submitted (log (deliver env s)) ++ [next]) /\
     submitted (log (step (env', UpdateEnd (ident sb) (Some ranges))
                       (deliver env s))) =
       submitted (log (deliver env s)) ++ [next]).
Proof.
  intros Hsb Hu Ha Hq He.
  destruct (appendNextChunk_rejected env s Hsb Hu Ha Hq He)
    as (Hok & Hl & Hq' & Ha' & Hsb' & Hws & Hms & _ & Hcon & _ & Herr & _).
  fold (deliver env s) in Hl, Hq', Ha', Hsb', Hws, Hms, Hcon, Herr.
  destruct (eviction_spec env sb) as (E1 & E2 & E3).
  repeat (split; [assumption|]).
  intros env' ranges next rest' ->. split.
  - intros Hidle. unfold bufferUpdating in Hidle. rewrite Hsb' in Hidle.
    cbn in Hidle.
    destruct (deliver_cases env' (deliver env s))
      as [Hsame|(sb2 & c2 & _ & _ & Hq2 & Hl2 & _)].
    + exfalso.
      assert (Hd : deliverable (deliver env s) = true).
      { unfold deliverable. rewrite Hsb', Ha', Hq'. cbn. now rewrite Hidle. }
      destruct (deliverable_true _ Hd) as (sb3 & c3 & r3 & H1 & H2 & H3 & H4).
      destruct (quotaExceeded env') eqn:He'.
      * destruct (appendNextChunk_rejected env' _ H1 H2 H3 H4 He')
          as (_ & Hl3 & _).
        fold (deliver env' (deliver env s)) in Hl3. rewrite Hsame in Hl3.
        apply (f_equal (@length Call)) in Hl3.
        rewrite length_app in Hl3. cbn in Hl3. lia.
      * pose proof (appendNextChunk_taken env' _ H1 H2 H3 H4 He') as Hl3.
        apply (f_equal (fun r => length (log (fst r)))) in Hl3.
        fold (deliver env' (deliver env s)) in Hl3. rewrite Hsame in Hl3.
        cbn in Hl3. rewrite length_app in Hl3. cbn in Hl3. lia.
    + rewrite Hl2, submitted_app. cbn. rewrite Hq' in Hq2.
      inversion Hq2; subst.
      replace (submitted (if quotaExceeded env' then eviction env' sb2 else []))
        with (@nil ArrayBuffer); [reflexivity|].
      destruct (quotaExceeded env'); [|reflexivity].
      now destruct (eviction_shape env' sb2) as (-> & _).
  - pose proof (updateend_delivers_head env' ranges (deliver env s) Hsb' Hq')
      as [Hl2 _].
    cbn [ident] in Hl2.
    rewrite Hl2, !submitted_app. cbn. rewrite submitted_app. cbn.
    replace (submitted (if crossing _ _ then [Play] else [])) with (@nil ArrayBuffer)
      by (destruct (crossing _ _); reflexivity).
    destruct (quotaExceeded env'); [|reflexivity].
    now destruct (eviction_shape env' {| ident := ident sb; updating := false;
                                         buffered := ranges |})
      as (-> & _).
Qed.

Lemma append_error_is_contained_witness :
  (sourceBufferRef longBuffer =
     Some {| ident := 0; updating := false; buffered := [(0, 12)%float] |} /\
   isAppendingRef longBuffer = false /\ queueRef longBuffer = [s2; s3] /\
   quotaExceeded full = true /\ gtb (12 - 0)%float 10%float = true) /\
  snd (appendNextChunk full longBuffer) = Ok tt /\
  log (deliver full longBuffer) =
    log longBuffer ++ [AppendBuffer s2 false; Remove 0%float 5%float true] /\
  submitted (log (step (fine, updateEnd [(5, 12)%float])
                    (deliver full longBuffer))) =
    [s1; s2; s3].
Proof.
  split; [repeat split; reflexivity|].
  destruct (@append_error_is_contained full longBuffer
              {| ident := 0; updating := false; buffered := [(0, 12)%float] |}
              s2 [s3] eq_refl eq_refl eq_refl eq_refl eq_refl)
    as (Hok & Hl & _ & _ & _ & _ & _ & _ & _ & _ & _ & Hnext).
  split; [exact Hok|]. split; [exact Hl|].
  exact (proj2 (Hnext fine [(5, 12)%float] s3 [] eq_refl)).
Defined.

(** The test of line 57 is made on the number the subtraction gives:
    with the numbers 0.3 and 10.3 as the ends of the first range the
    difference is exactly 10, which is not greater than 10, and the
    rejected append is followed by no call to [remove]; and the end of
    an eviction is the number [start + 5] gives. *)
Example eviction_at_the_threshold :
  gtb (10.3 - 0.3)%float 10%float = false /\
  eviction fine {| ident := 0; updating := false;
                   buffered := [(0.3, 10.3)%float] |} = [] /\
  eviction fine {| ident := 0; updating := false;
                   buffered := [(0.3, 10.5)%float] |} =
    [Remove 0.3%float (0.3 + 5)%float true] /\
  (0.3 + 5)%float = 5.3%float.
Proof. repeat split; reflexivity. Qed.

(** ** Playback start *)

(** What one event of the session does to playback: nothing, or it
    finds the video paused, calls [play()] once and leaves
    "buffering". *)
Lemma beforeNextChunk_playback env ranges s :
  (crossing ranges s = true /\ paused (video s) = true /\
   log (beforeNextChunk env ranges s) = log s ++ [Play] /\
   isBuffering (beforeNextChunk env ranges s) = false /\
   (playAllowed env = true ->
      paused (video (beforeNextChunk env ranges s)) = false)) \/
  (crossing ranges s = false /\
   log (beforeNextChunk env ranges s) = log s /\
   video (beforeNextChunk env ranges s) = video s /\
   isBuffering (beforeNextChunk env ranges s) = isBuffering s).
Proof.
  unfold beforeNextChunk, crossing. cbn.
  destruct ranges as [|[a b] rs]; [right; repeat split|].
  destruct (gtb (b - a)%float 0.5%float); cbn; [|right; repeat split].
  destruct (paused (video s)) eqn:Hpa; cbn; [|right; repeat split].
  left. unfold play. cbn. destruct (playAllowed env); cbn;
    repeat split; auto; discriminate.
Qed.

Lemma beforeNextChunk_connected env ranges s :
  isConnected (beforeNextChunk env ranges s) = isConnected s.
Proof.
  unfold beforeNextChunk. destruct ranges as [|[a b] rs]; [reflexivity|].
  cbn [video set_isAppendingRef].
  destruct (gtb (b - a)%float 0.5%float && paused (video s)); [|reflexivity].
  unfold play. cbn. destruct (playAllowed env); reflexivity.
Qed.

Lemma platform_updateend_frame target reading s :
  video (platform (UpdateEnd target reading) s) = video s /\
  isBuffering (platform (UpdateEnd target reading) s) = isBuffering s /\
  plays (log (platform (UpdateEnd target reading) s)) = plays (log s).
Proof.
  destruct (platform_updateend target reading s) as (Hl & _ & Hv & Hb & _).
  rewrite Hl, plays_app, Hv, Hb.
  destruct (holds target s); cbn; repeat split; lia.
Qed.

Lemma step_playback ee s :
  sameSession (snd ee) = true ->
  (plays (log (step ee s)) = plays (log s) /\
   video (step ee s) = video s /\
   isBuffering (step ee s) = isBuffering s) \/
  (paused (video s) = true /\
   plays (log (step ee s)) = S (plays (log s)) /\
   isBuffering (step ee s) = false /\
   (playAllowed (fst ee) = true -> paused (video (step ee s)) = false)).
Proof.
  destruct ee as [env e]. cbn [fst snd]. intros He.
  destruct e; try discriminate He;
    try (left; unfold step, handle; cbn; repeat split; reflexivity).
  - destruct (platform_updateend_frame target reading s) as (Hv0 & Hb0 & Hp0).
    destruct reading as [ranges|].
    + rewrite step_updateend.
      set (s0 := platform (UpdateEnd target (Some ranges)) s) in *.
      destruct (deliver_frame env (beforeNextChunk env ranges s0))
        as (_ & _ & _ & _ & Hb & _ & _ & Hv & _ & Hp).
      rewrite Hp, Hv, Hb. clear Hp Hv Hb.
      destruct (beforeNextChunk_playback env ranges s0)
        as [(_ & Hpa & Hl & Hb & Hv)|(_ & Hl & Hv & Hb)].
      * right. rewrite Hl, plays_app, Hp0, Hb. rewrite Hv0 in Hpa. cbn.
        repeat split; auto. lia.
      * left. rewrite Hl, Hv, Hb, Hp0, Hv0, Hb0. repeat split.
    + left. rewrite step_unreadable. cbn [log video isBuffering set_isAppendingRef].
      auto.
  - left. unfold step, handle. cbn. destruct (wsRef s); repeat split.
  - left. rewrite step_message.
    destruct (deliver_frame env (enqueued data s))
      as (_ & _ & _ & _ & Hb & _ & _ & Hv & _ & Hp).
    rewrite Hp, Hv, Hb. repeat split.
  - left. unfold step, handle. cbn. destruct (wsRef s); repeat split.
Qed.

Lemma beforeNextChunk_stats env target reading ranges s :
  stats (beforeNextChunk env ranges (platform (UpdateEnd target reading) s)) =
    match ranges with
    | (start0, end0) :: _ =>
        {| bufferedSeconds := (end0 - start0)%float;
           bytesReceived := bytesReceivedRef s |}
    | [] => stats s
    end.
Proof.
  assert (Hb : bytesReceivedRef (platform (UpdateEnd target reading) s) =
               bytesReceivedRef s /\
               stats (platform (UpdateEnd target reading) s) = stats s).
  { cbn. destruct (sourceBufferRef s) as [sb|]; [|auto].
    destruct (ident sb =? target); auto. }
  destruct Hb as [Hb Hs].
  unfold beforeNextChunk.
  destruct ranges as [|[a b] rs]; [exact Hs|].
  cbn [bytesReceivedRef set_isAppendingRef video]. rewrite Hb.
  destruct (gtb (b - a)%float 0.5%float && paused (video _)); [|reflexivity].
  unfold play. cbn. destruct (playAllowed env); reflexivity.
Qed.

Lemma forallb_both {A} (f g : A -> bool) l :
  forallb f l = true -> forallb g l = true ->
  forallb (fun x => f x && g x) l = true.
Proof.
  induction l as [|x l IH]; cbn; [reflexivity|].
  intros Hf Hg. apply andb_prop in Hf. apply andb_prop in Hg.
  destruct Hf as [-> Hf], Hg as [-> Hg]. cbn. auto.
Qed.

(** C7. On each completion callback that finds a buffered range, the
    buffered duration [end(0) - start(0)] is recomputed into the
    statistics; if that number is greater than 0.5 while the video is
    paused, [play()] is called once and the hook leaves "buffering"
    (the status line reads "Streaming"); otherwise neither happens.
    A callback that finds no range, or cannot read the ranges, starts
    nothing.  Along a session, once playback is active no later
    callback starts it again, and starting from a paused video it is
    started at most once.  All of this whichever source buffer fires
    the callback. *)
Theorem streaming_starts_once (tr : list (Env * Event)) (s : State) :
  inSession tr = true -> playable tr = true ->
  (forall env target start0 end0 ranges t,
     let t' := step (env, UpdateEnd target (Some ((start0, end0) :: ranges))) t in
     stats t' = {| bufferedSeconds := (end0 - start0)%float;
                   bytesReceived := bytesReceivedRef t |} /\
     (gtb (end0 - start0)%float 0.5%float = true -> paused (video t) = true ->
        plays (log t') = S (plays (log t)) /\
        isBuffering t' = false /\
        (isConnected t = true -> status t' = Streaming) /\
        (playAllowed env = true -> paused (video t') = false)) /\
     (gtb (end0 - start0)%float 0.5%float = false \/ paused (video t) = false ->
        plays (log t') = plays (log t) /\
        isBuffering t' = isBuffering t /\ video t' = video t)) /\
  (forall env target reading t,
     reading = Some [] \/ reading = None ->
     let t' := step (env, UpdateEnd target reading) t in
     stats t' = stats t /\ plays (log t') = plays (log t) /\
     isBuffering t' = isBuffering t /\ video t' = video t) /\
  (plays (log (run tr s)) <= S (plays (log s)))%nat /\
  (paused (video s) = false ->
     plays (log (run tr s)) = plays (log s) /\
     isBuffering (run tr s) = isBuffering s /\
     paused (video (run tr s)) = false).
Proof.
  intros Hin Hplay. split; [|split; [|split]].
  - intros env target a b ranges t t'. subst t'.
    rewrite step_updateend.
    match goal with
    | |- context [platform ?e t] => set (t0 := platform e t) in *
    end.
    destruct (deliver_frame env (beforeNextChunk env ((a, b) :: ranges) t0))
      as (_ & _ & _ & Hcon & Hb & _ & Hst & Hv & _ & Hp).
    assert (Hf0 : video t0 = video t /\ isBuffering t0 = isBuffering t /\
                  plays (log t0) = plays (log t))
      by apply platform_updateend_frame.
    destruct Hf0 as (Hv0 & Hb0 & Hp0).
    assert (Hcr : crossing ((a, b) :: ranges) t0 =
                  gtb (b - a)%float 0.5%float && paused (video t))
      by apply crossing_platform.
    assert (Hc0 : isConnected t0 = isConnected t).
    { unfold t0. cbn. destruct (sourceBufferRef t) as [sb|]; [|reflexivity].
      destruct (ident sb =? target); reflexivity. }
    split; [|split].
    + rewrite Hst. apply beforeNextChunk_stats.
    + intros Hgt Hpa. rewrite Hgt, Hpa in Hcr. cbn [andb] in Hcr.
      destruct (beforeNextChunk_playback env ((a, b) :: ranges) t0)
        as [(_ & _ & Hl & Hb1 & Hv1)|(Hno & _)]; [|congruence].
      split; [|split; [|split]].
      * rewrite Hp, Hl, plays_app, Hp0. cbn. lia.
      * now rewrite Hb.
      * intros Hc. unfold status.
        rewrite Hcon, Hb, Hb1, beforeNextChunk_connected, Hc0, Hc.
        reflexivity.
      * intros Hpl. rewrite Hv. auto.
    + intros Hno.
      assert (Hcr' : crossing ((a, b) :: ranges) t0 = false).
      { rewrite Hcr. destruct Hno as [Hle | Hpa].
        - now rewrite Hle.
        - rewrite Hpa. apply andb_false_r. }
      destruct (beforeNextChunk_playback env ((a, b) :: ranges) t0)
        as [(Hyes & _)|(_ & Hl & Hv1 & Hb1)]; [congruence|].
      rewrite Hp, Hl, Hp0, Hb, Hb1, Hb0, Hv, Hv1, Hv0. repeat split.
  - intros env target reading t Hr t'. subst t'.
    destruct (platform_updateend_frame target reading t) as (Hv0 & Hb0 & Hp0).
    assert (Hs0 : stats (platform (UpdateEnd target reading) t) = stats t).
    { cbn. destruct (sourceBufferRef t) as [sb|]; [|reflexivity].
      destruct (ident sb =? target); reflexivity. }
    destruct Hr as [-> | ->].
    + rewrite step_updateend.
      match goal with
      | |- context [deliver env ?x] =>
          destruct (deliver_frame env x)
            as (_ & _ & _ & _ & Hb & _ & Hst & Hv & _ & Hp)
      end.
      rewrite Hb, Hst, Hv, Hp. cbn [beforeNextChunk].
      cbn [stats log isBuffering video set_isAppendingRef]. auto.
    + rewrite step_unreadable.
      cbn [stats log isBuffering video set_isAppendingRef]. auto.
  - assert (H : (plays (log (run tr s)) +
                 (if paused (video (run tr s)) then 1 else 0) <=
                 S (plays (log s)))%nat).
    { apply run_invariant with
        (I := fun t => (plays (log t) + (if paused (video t) then 1 else 0)
                        <= S (plays (log s)))%nat)
        (allowed := fun ee => sameSession (snd ee) && playAllowed (fst ee)).
      - intros ee t Hee Ht. apply andb_prop in Hee. destruct Hee as [Hs Hp].
        destruct (step_playback ee t Hs)
          as [(H1 & H2 & _)|(Hpa & H1 & _ & H2)].
        + now rewrite H1, H2.
        + rewrite H1, (H2 Hp). rewrite Hpa in Ht. lia.
      - now apply forallb_both.
      - destruct (paused (video s)); lia. }
    lia.
  - intros Hpa.
    apply run_invariant with
      (I := fun t => plays (log t) = plays (log s) /\
                     isBuffering t = isBuffering s /\
                     paused (video t) = false)
      (allowed := fun ee => sameSession (snd ee)).
    + intros ee t Hs (H1 & H2 & H3).
      destruct (step_playback ee t Hs)
        as [(E1 & E2 & E3)|(Hp' & _)]; [|congruence].
      now rewrite E1, E2, E3.
    + exact Hin.
    + auto.
Qed.

Lemma streaming_starts_once_witness :
  inSession crossing_trace = true /\ playable crossing_trace = true /\
  (let t := run [(fine, WsMessage s1)] session in
   let t' := step (fine, updateEnd [(0, 1)%float]) t in
   gtb (1 - 0)%float 0.5%float = true /\
   paused (video t) = true /\ isConnected t = true /\
   plays (log t') = 1%nat /\ isBuffering t' = false /\ status t' = Streaming) /\
  (plays (log (run crossing_trace session)) <= 1)%nat.
Proof.
  destruct (streaming_starts_once crossing_trace session eq_refl eq_refl)
    as (Hone & _ & Hmost & _).
  split; [reflexivity|]. split; [reflexivity|]. split; [|exact Hmost].
  cbv zeta.
  destruct (Hone fine 0%nat 0%float 1%float []
              (run [(fine, WsMessage s1)] session))
    as (_ & Hstart & _).
  destruct (Hstart eq_refl eq_refl) as (Hp & Hb & Hs & _).
  split; [reflexivity|]. split; [reflexivity|]. split; [reflexivity|].
  split; [exact Hp|]. split; [exact Hb|].
  exact (Hs eq_refl).
Defined.

Example crossing_trace_log :
  log (run crossing_trace session) =
    [AppendBuffer s1 true; UpdateEndFired;
     AppendBuffer s2 true; UpdateEndFired; Play;
     AppendBuffer s3 true; UpdateEndFired] /\
  isBuffering (run crossing_trace session) = false.
Proof. vm_compute. split; reflexivity. Qed.

(** The test of line 143 is made on the number the subtraction gives:
    with the numbers 0.3 and 0.8 as the ends of the first range the
    difference is exactly 0.5, and playback does not start; with 0.3
    and 0.9 it does. *)
Example playback_at_the_threshold :
  let t := run [(fine, WsMessage s1)] session in
  gtb (0.8 - 0.3)%float 0.5%float = false /\
  plays (log (step (fine, updateEnd [(0.3, 0.8)%float]) t)) = 0%nat /\
  isBuffering (step (fine, updateEnd [(0.3, 0.8)%float]) t) = true /\
  bufferedSeconds (stats (step (fine, updateEnd [(0.3, 0.8)%float]) t)) =
    0.5%float /\
  plays (log (step (fine, updateEnd [(0.3, 0.9)%float]) t)) = 1%nat.
Proof. cbv zeta. repeat split; reflexivity. Qed.

(** ** Teardown *)

(** [cleanup] in closed form: it never raises, and the state it
    leaves is [tornDown]. *)
Lemma cleanup_tornDown env s : cleanup env s = (tornDown env s, Ok tt).
Proof.
  destruct s as [ws ms sb q ap br ic ib er st vm v cr lg].
  destruct env as [qe rr eos pa mw ts ab wr].
  destruct ws as [ws|], ms as [[[]]|], sb as [[i [] bf]|], eos;
    lazy beta iota zeta delta -[app];
    rewrite <- ?app_assoc, ?app_nil_r; reflexivity.
Qed.

Lemma tornDown_again env env' s :
  tornDown env' (tornDown env s) = tornDown env s.
Proof. unfold tornDown, teardownCalls. cbn. now rewrite app_nil_r. Qed.

(** C8. From any state, also one with an append in flight,
    [disconnect()] returns normally; it closes the socket if the hook
    holds one, calls [endOfStream()] if the media source is open
    (swallowing the exception the call raises while the buffer is
    updating), empties the queue, drops the references, resets the
    statistics and the byte counter to zero and leaves the status
    line at "Disconnected"; a second call returns normally too and
    changes nothing. *)
Theorem disconnect_is_idempotent (env env' : Env) (s : State) :
  let s' := fst (disconnect env s) in
  snd (disconnect env s) = Ok tt /\
  snd (disconnect env' s') = Ok tt /\
  fst (disconnect env' s') = s' /\
  log s' = log s ++ teardownCalls env s /\
  (wsRef s <> None -> In CloseSocket (teardownCalls env s)) /\
  (forall ms, mediaSourceRef s = Some ms -> readyState ms = MSOpen ->
     In (EndOfStream (negb (bufferUpdating s || endOfStreamRaises env)))
        (teardownCalls env s)) /\
  wsRef s' = None /\ mediaSourceRef s' = None /\ sourceBufferRef s' = None /\
  queueRef s' = [] /\ isAppendingRef s' = false /\
  bytesReceivedRef s' = 0%Z /\
  stats s' = {| bufferedSeconds := 0%float; bytesReceived := 0%Z |} /\
  isConnected s' = false /\ status s' = Disconnected.
Proof.
  unfold disconnect. cbv zeta.
  rewrite (cleanup_tornDown env s). cbn [fst snd].
  rewrite (cleanup_tornDown env' (tornDown env s)). cbn [fst snd].
  rewrite tornDown_again.
  repeat (split; [reflexivity|]).
  split; [|split; [|repeat split]].
  - unfold teardownCalls. destruct (wsRef s); [cbn; auto | congruence].
  - intros ms Hms Hopen. unfold teardownCalls. rewrite Hms, Hopen.
    apply in_or_app. right. cbn. auto.
Qed.

Lemma disconnect_is_idempotent_witness :
  bufferUpdating inFlight = true /\ wsRef inFlight <> None /\
  mediaSourceRef inFlight = Some {| readyState := MSOpen |} /\
  snd (disconnect fine inFlight) = Ok tt /\
  fst (disconnect fine (fst (disconnect fine inFlight))) =
    fst (disconnect fine inFlight) /\
  In CloseSocket (teardownCalls fine inFlight) /\
  In (EndOfStream false) (teardownCalls fine inFlight) /\
  status (fst (disconnect fine inFlight)) = Disconnected.
Proof.
  destruct (disconnect_is_idempotent fine fine inFlight)
    as (H1 & _ & H3 & _ & H5 & H6 & H7).
  split; [reflexivity|]. split; [discriminate|]. split; [reflexivity|].
  split; [exact H1|]. split; [exact H3|].
  split; [apply H5; discriminate|].
  split; [exact (H6 _ eq_refl eq_refl)|].
  apply H7.
Defined.

(** ** The error message *)

Lemma onSourceOpen_error env s :
  error s <> None -> error (fst (onSourceOpen env s)) <> None.
Proof.
  intros H. cb_unfold.
  destruct (isTypeSupported env), (addSourceBufferRaises env),
    (webSocketRaises env); cbn; auto; discriminate.
Qed.

Lemma platform_error e s : error (platform e s) = error s.
Proof.
  destruct e; cbn; try reflexivity.
  - destruct (mediaSourceRef s); reflexivity.
  - destruct (sourceBufferRef s) as [sb|]; [|reflexivity].
    destruct (ident sb =? target); reflexivity.
  - destruct (wsRef s); reflexivity.
  - destruct (wsRef s); reflexivity.
Qed.

(** C10. [disconnect()] leaves the error message as it was; no event
    other than [connect()] ever turns a message into [null];
    [connect()] forgets the old message before it reports its own;
    so a client that failed and then disconnects shows "Disconnected"
    together with the old message. *)
Theorem disconnect_keeps_error (env : Env) (s : State) :
  error (fst (disconnect env s)) = error s /\
  (forall e, e <> Connect -> error s <> None ->
     error (step (env, e) s) <> None) /\
  error (step (env, Connect) s) =
    (if negb (videoMounted s) then Some VideoElementNotFound
     else if negb (mediaSourceInWindow env) then Some MediaSourceNotSupported
     else None) /\
  (forall message, error s = Some message ->
     error (step (env, Disconnect) s) = Some message /\
     status (step (env, Disconnect) s) = Disconnected).
Proof.
  assert (Hd : error (fst (disconnect env s)) = error s)
    by (unfold disconnect; now rewrite cleanup_tornDown).
  split; [exact Hd|]. split; [|split].
  - intros e Hne Herr. destruct e.
    + congruence.
    + unfold step, handle. cbn [fst snd listener platform]. now rewrite Hd.
    + unfold step, handle. cbn [fst snd listener]. apply onSourceOpen_error.
      now rewrite platform_error.
    + exact Herr.
    + discriminate.
    + exact Herr.
    + destruct reading as [ranges|].
      * rewrite step_updateend.
        match goal with
        | |- context [deliver env ?x] =>
            destruct (deliver_frame env x) as (_ & _ & _ & _ & _ & -> & _)
        end.
        match goal with
        | |- context [beforeNextChunk env ranges ?x] =>
            destruct (beforeNextChunk_log env ranges x) as (_ & _ & _ & ->)
        end.
        now rewrite platform_error.
      * rewrite step_unreadable. cbn [error set_isAppendingRef].
        now rewrite platform_error.
    + unfold step, handle. cbn. destruct (wsRef s); exact Herr.
    + rewrite step_message.
      destruct (deliver_frame env (enqueued data s))
        as (_ & _ & _ & _ & _ & -> & _).
      exact Herr.
    + discriminate.
    + unfold step, handle. cbn. destruct (wsRef s); exact Herr.
  - unfold step, handle. cbn [fst snd listener platform].
    unfold connect. unfold bind at 1. rewrite cleanup_tornDown.
    cb_unfold. cbn.
    destruct (videoMounted s); cbn; [|reflexivity].
    destruct (mediaSourceInWindow env); reflexivity.
  - intros message Hm.
    unfold step, handle. cbn [fst snd listener platform].
    unfold disconnect. rewrite cleanup_tornDown. cbn. auto.
Qed.

Lemma disconnect_keeps_error_witness :
  error errored = Some WebSocketConnectionError /\
  error (step (fine, Disconnect) errored) = Some WebSocketConnectionError /\
  status (step (fine, Disconnect) errored) = Disconnected /\
  error (step (fine, WsClose) errored) <> None /\
  error (step (fine, Connect) (step (fine, Disconnect) errored)) = None.
Proof.
  destruct (disconnect_keeps_error fine errored) as (_ & H2 & _ & H4).
  destruct (H4 WebSocketConnectionError eq_refl) as [He Hs].
  split; [reflexivity|]. split; [exact He|]. split; [exact Hs|].
  split; [apply H2; discriminate|].
  exact (proj1 (proj2 (proj2
    (disconnect_keeps_error fine (step (fine, Disconnect) errored))))).
Defined.

(** ** Properties beyond the claims: the listeners *)

Lemma connect_connected env s : connect env s = (connected env s, Ok tt).
Proof.
  unfold connect, connected. unfold bind at 1. rewrite cleanup_tornDown.
  destruct s as [ws ms sb q ap br ic ib er st vm v cr lg].
  destruct env as [qe rr eos pa mw ts ab wr].
  destruct vm, mw; reflexivity.
Qed.

Lemma onSourceOpen_returns env s : snd (onSourceOpen env s) = Ok tt.
Proof.
  destruct env as [qe rr eos pa mw ts ab wr].
  destruct ts, ab, wr; reflexivity.
Qed.

(** X10. The one exception a listener of the hook lets escape is the
    [InvalidStateError] of reading [sourceBuffer.buffered] in the
    'updateend' listener, the only access to a platform object that
    is made outside a [try]: when that read fails the listener has
    cleared [isAppendingRef] and done nothing else.  Every other
    event handler, and 'updateend' itself when the read succeeds,
    returns normally whatever the platform calls do. *)
Theorem only_unreadable_buffer_raises (env : Env) (e : Event) (s : State) :
  snd (handle env e s) =
    (if unreadable e then Throw InvalidStateError else Ok tt) /\
  (unreadable e = true ->
     fst (handle env e s) = set_isAppendingRef false (platform e s) /\
     queueRef (fst (handle env e s)) = queueRef s /\
     stats (fst (handle env e s)) = stats s /\
     submitted (log (fst (handle env e s))) = submitted (log s) /\
     plays (log (fst (handle env e s))) = plays (log s)).
Proof.
  split.
  - destruct e; try reflexivity.
    + unfold handle. cbn [listener platform]. now rewrite connect_connected.
    + unfold handle. cbn [listener platform]. unfold disconnect.
      now rewrite cleanup_tornDown.
    + unfold handle. cbn [listener]. apply onSourceOpen_returns.
    + destruct reading as [ranges|]; [|reflexivity].
      rewrite handle_updateend. apply appendNextChunk_returns.
    + change (handle env (WsMessage data) s)
        with (appendNextChunk env (enqueued data s)).
      apply appendNextChunk_returns.
  - destruct e; try discriminate. destruct reading; [discriminate|].
    intros _. rewrite handle_unreadable. cbn [fst].
    split; [reflexivity|].
    destruct (unreadable_quiet target s) as (Hs & _ & Hq).
    destruct (platform_updateend_frame target None s) as (_ & _ & Hp).
    cbn [queueRef stats log set_isAppendingRef] in *.
    repeat split; auto.
    cbn. destruct (sourceBufferRef s) as [sb|]; [|reflexivity].
    destruct (ident sb =? target); reflexivity.
Qed.

(** X11. [connect()] never raises and can be repeated: it tears the
    previous session down (closing the socket it held), clears the
    old error, and leaves a fresh closed media source when the video
    element and the MediaSource API are present, an error message
    otherwise; calling it again on the result changes nothing. *)
Theorem connect_is_repeatable (env : Env) (s : State) :
  let s' := fst (connect env s) in
  snd (connect env s) = Ok tt /\
  fst (connect env s') = s' /\
  log s' = log s ++ teardownCalls env s /\
  wsRef s' = None /\ sourceBufferRef s' = None /\ queueRef s' = [] /\
  isAppendingRef s' = false /\ isConnected s' = false /\
  mediaSourceRef s' =
    (if videoMounted s && mediaSourceInWindow env
     then Some {| readyState := MSClosed |} else None) /\
  error s' =
    (if negb (videoMounted s) then Some VideoElementNotFound
     else if negb (mediaSourceInWindow env) then Some MediaSourceNotSupported
     else None).
Proof.
  cbv zeta. rewrite (connect_connected env s). cbn [fst snd].
  rewrite (connect_connected env (connected env s)). cbn [fst snd].
  destruct s as [ws ms sb q ap br ic ib er st vm v cr lg].
  destruct env as [qe rr eos pa mw ts ab wr].
  destruct vm, mw; lazy beta iota zeta delta -[app];
    rewrite ?app_nil_r; repeat split; reflexivity.
Qed.

(** X12. The 'sourceopen' listener never raises.  The socket is
    created only when the codec is supported and both
    [addSourceBuffer] and [new WebSocket] succeed, and then no error
    is reported; an unsupported codec reports "Codec not supported"
    and creates nothing; a failing [addSourceBuffer] reports "Failed
    to initialize video player" and creates nothing; a failing
    [new WebSocket] reports the same but keeps the source buffer that
    was already added.  The source buffer is a new object each time.
    The queue, the log and the connection flag are never touched. *)
Theorem source_open_outcomes (env : Env) (s : State) :
  let s' := fst (onSourceOpen env s) in
  let fresh :=
    Some {| ident := created s; updating := false; buffered := [] |} in
  snd (onSourceOpen env s) = Ok tt /\
  queueRef s' = queueRef s /\ log s' = log s /\
  isConnected s' = isConnected s /\
  (if isTypeSupported env then
     if addSourceBufferRaises env then
       error s' = Some FailedToInitialize /\
       sourceBufferRef s' = sourceBufferRef s /\ wsRef s' = wsRef s /\
       created s' = created s
     else if webSocketRaises env then
       error s' = Some FailedToInitialize /\
       sourceBufferRef s' = fresh /\ wsRef s' = wsRef s /\
       created s' = S (created s)
     else
       error s' = error s /\ sourceBufferRef s' = fresh /\
       wsRef s' = Some {| socketState := WsConnecting |} /\
       created s' = S (created s)
   else
     error s' = Some CodecNotSupported /\
     sourceBufferRef s' = sourceBufferRef s /\ wsRef s' = wsRef s /\
     created s' = created s).
Proof.
  destruct env as [qe rr eos pa mw ts ab wr].
  destruct ts, ab, wr; cbn; repeat split; reflexivity.
Qed.

(** ** Properties beyond the claims: counters and flags *)

Lemma step_connect env s : step (env, Connect) s = connected env s.
Proof.
  unfold step, handle. cbn [fst snd listener platform].
  now rewrite connect_connected.
Qed.

Lemma step_disconnect env s : step (env, Disconnect) s = tornDown env s.
Proof.
  unfold step, handle. cbn [fst snd listener platform]. unfold disconnect.
  now rewrite cleanup_tornDown.
Qed.

Lemma connected_fields env s :
  bytesReceivedRef (connected env s) = 0%Z /\
  stats (connected env s) =
    {| bufferedSeconds := 0%float; bytesReceived := 0%Z |} /\
  isBuffering (connected env s) = true.
Proof.
  unfold connected.
  destruct (negb (videoMounted s)); [repeat split|].
  destruct (negb (mediaSourceInWindow env)); repeat split.
Qed.

Lemma step_sourceopen_fields env s :
  bytesReceivedRef (step (env, SourceOpen) s) = bytesReceivedRef s /\
  stats (step (env, SourceOpen) s) = stats s /\
  isBuffering (step (env, SourceOpen) s) = isBuffering s /\
  log (step (env, SourceOpen) s) = log s.
Proof.
  unfold step, handle. cbn [fst snd listener platform].
  destruct env as [qe rr eos pa mw ts ab wr].
  destruct (mediaSourceRef s); destruct ts, ab, wr; repeat split.
Qed.

Lemma byteLength_nonneg data : (0 <= byteLength data)%Z.
Proof. unfold byteLength. lia. Qed.

Lemma updateend_counters env target reading ranges s :
  let s0 := beforeNextChunk env ranges (platform (UpdateEnd target reading) s) in
  bytesReceivedRef s0 = bytesReceivedRef s /\
  (stats s0 = stats s \/ bytesReceived (stats s0) = bytesReceivedRef s).
Proof.
  cbv zeta. rewrite beforeNextChunk_stats.
  assert (Hb : forall t, bytesReceivedRef (beforeNextChunk env ranges t) =
                         bytesReceivedRef t).
  { intros t. unfold beforeNextChunk.
    destruct ranges as [|[a b] rs]; [reflexivity|].
    cbn [video set_isAppendingRef bytesReceivedRef].
    destruct (gtb (b - a)%float 0.5%float && paused (video t)); [|reflexivity].
    unfold play. cbn. destruct (playAllowed env); reflexivity. }
  rewrite Hb. split.
  - cbn. destruct (sourceBufferRef s) as [sb|]; [|reflexivity].
    destruct (ident sb =? target); reflexivity.
  - destruct ranges as [|[a b] rs]; auto.
Qed.

Lemma unreadable_counters target s :
  let s0 := set_isAppendingRef false (platform (UpdateEnd target None) s) in
  bytesReceivedRef s0 = bytesReceivedRef s /\ stats s0 = stats s.
Proof.
  cbn. destruct (sourceBufferRef s) as [sb|]; [|auto].
  destruct (ident sb =? target); auto.
Qed.

(** What one event does to the two byte counters. *)
Lemma step_bytes ee s :
  (0 <= bytesReceived (stats s) <= bytesReceivedRef s)%Z ->
  (0 <= bytesReceived (stats (step ee s)) <= bytesReceivedRef (step ee s))%Z.
Proof.
  destruct ee as [env e]. intros H. destruct e.
  - rewrite step_connect.
    destruct (connected_fields env s) as (-> & -> & _). cbn. lia.
  - rewrite step_disconnect. cbn. lia.
  - destruct (step_sourceopen_fields env s) as (-> & -> & _). exact H.
  - exact H.
  - exact H.
  - exact H.
  - destruct reading as [ranges|].
    + rewrite step_updateend.
      match goal with
      | |- context [deliver env ?x] =>
          destruct (deliver_frame env x) as (_ & _ & -> & _ & _ & _ & -> & _)
      end.
      destruct (updateend_counters env target (Some ranges) ranges s)
        as (-> & [-> | ->]); lia.
    + rewrite step_unreadable.
      destruct (unreadable_counters target s) as (-> & ->). exact H.
  - unfold step, handle. cbn. destruct (wsRef s); exact H.
  - rewrite step_message.
    destruct (deliver_frame env (enqueued data s))
      as (_ & _ & -> & _ & _ & _ & -> & _).
    cbn. pose proof (byteLength_nonneg data). lia.
  - exact H.
  - unfold step, handle. cbn. destruct (wsRef s); exact H.
Qed.

Lemma step_counts ee s :
  sameSession (snd ee) = true ->
  bytesReceivedRef (step ee s) = (bytesReceivedRef s + arrivedBytes [ee])%Z.
Proof.
  destruct ee as [env e]. cbn [snd]. intros He.
  destruct e; try discriminate He; cbn [arrivedBytes]; rewrite ?Z.add_0_r;
    try reflexivity.
  - destruct reading as [ranges|].
    + rewrite step_updateend.
      match goal with
      | |- context [deliver env ?x] =>
          destruct (deliver_frame env x) as (_ & _ & -> & _)
      end.
      now destruct (updateend_counters env target (Some ranges) ranges s)
        as (-> & _).
    + rewrite step_unreadable.
      now destruct (unreadable_counters target s) as (-> & _).
  - unfold step, handle. cbn. destruct (wsRef s); reflexivity.
  - rewrite step_message.
    destruct (deliver_frame env (enqueued data s)) as (_ & _ & -> & _).
    reflexivity.
  - unfold step, handle. cbn. destruct (wsRef s); reflexivity.
Qed.

(** X13. The byte counter of a session is the sum of the sizes of
    the messages that arrived in it, and the figure shown in the
    statistics is a snapshot of it: from the first render on, and
    across reconnects, it is never negative and never ahead of the
    counter. *)
Theorem bytes_are_counted (tr : list (Env * Event)) (s : State) :
  (inSession tr = true ->
   bytesReceivedRef (run tr s) = (bytesReceivedRef s + arrivedBytes tr)%Z) /\
  (0 <= bytesReceived (stats (run tr initial))
     <= bytesReceivedRef (run tr initial))%Z.
Proof.
  split.
  - revert s. induction tr as [|ee tr IH]; intros s Hin.
    + cbn. lia.
    + cbn in Hin. apply andb_prop in Hin. destruct Hin as [Hee Htr].
      cbn [run]. rewrite (IH _ Htr), (step_counts _ _ Hee).
      destruct ee as [env e]. destruct e; cbn [arrivedBytes]; lia.
  - apply run_invariant with
      (I := fun t => (0 <= bytesReceived (stats t) <= bytesReceivedRef t)%Z)
      (allowed := fun _ => true).
    + intros ee t _. apply step_bytes.
    + clear. induction tr; cbn; auto.
    + cbn. lia.
Qed.

Lemma bytes_are_counted_witness :
  inSession rejected_trace = true /\
  arrivedBytes rejected_trace = 6%Z /\
  bytesReceivedRef (run rejected_trace session) = 6%Z /\
  bytesReceived (stats (run rejected_trace session)) = 2%Z.
Proof.
  split; [reflexivity|]. split; [reflexivity|]. split; [|reflexivity].
  exact (proj1 (bytes_are_counted rejected_trace session) eq_refl).
Defined.

(** What one event, of any kind, does to playback. *)
Lemma step_needs_play ee s :
  (isBuffering s = false -> (1 <= plays (log s))%nat) ->
  isBuffering (step ee s) = false -> (1 <= plays (log (step ee s)))%nat.
Proof.
  destruct ee as [env e]. intros H.
  destruct (sameSession e) eqn:He.
  - destruct (step_playback (env, e) s He)
      as [(H1 & _ & H2)|(_ & H1 & _)].
    + rewrite H1, H2. exact H.
    + rewrite H1. intros _. lia.
  - destruct e; try discriminate He.
    + rewrite step_connect.
      destruct (connected_fields env s) as (_ & _ & ->). discriminate.
    + rewrite step_disconnect. cbn. discriminate.
    + destruct (step_sourceopen_fields env s) as (_ & _ & -> & ->). exact H.
Qed.

(** X14. The status line can read "Streaming" only after the hook has
    called [video.play()]: in every state reachable from the first
    render, by any sequence of events, [isBuffering] is false only if
    the log holds a call to [play()]. *)
Theorem streaming_needs_play (tr : list (Env * Event)) :
  (isBuffering (run tr initial) = false ->
   (1 <= plays (log (run tr initial)))%nat) /\
  (status (run tr initial) = Streaming ->
   (1 <= plays (log (run tr initial)))%nat).
Proof.
  assert (H : isBuffering (run tr initial) = false ->
              (1 <= plays (log (run tr initial)))%nat).
  { apply run_invariant with
      (I := fun t => isBuffering t = false -> (1 <= plays (log t))%nat)
      (allowed := fun _ => true).
    - intros ee t _. apply step_needs_play.
    - clear. induction tr; cbn; auto.
    - cbn. discriminate. }
  split; [exact H|].
  unfold status. intros Hs. apply H.
  destruct (isConnected (run tr initial)); [|discriminate Hs].
  destruct (isBuffering (run tr initial)); [discriminate Hs | reflexivity].
Qed.

Lemma streaming_needs_play_witness :
  status (run ((fine, Connect) :: (fine, SourceOpen) :: (fine, WsOpen)
               :: crossing_trace) initial) = Streaming /\
  (1 <= plays (log (run ((fine, Connect) :: (fine, SourceOpen)
                         :: (fine, WsOpen) :: crossing_trace) initial)))%nat.
Proof.
  split; [reflexivity|].
  exact (proj2 (streaming_needs_play
    ((fine, Connect) :: (fine, SourceOpen) :: (fine, WsOpen) :: crossing_trace))
    eq_refl).
Defined.

(** ** Properties beyond the claims: the queue *)

Lemma deliver_synced env s :
  quotaExceeded env = false -> sourceBufferRef s <> None ->
  isAppendingRef s = bufferUpdating s ->
  synced (deliver env s) \/
  (deliver env s = s /\ queueRef s = [] /\ bufferUpdating s = false) \/
  (deliver env s = s /\ bufferUpdating s = true).
Proof.
  intros He Hsb Hflag. unfold deliver.
  destruct (deliverable s) eqn:Hd.
  - left. destruct (deliverable_true s Hd) as (sb & c & r & H1 & H2 & H3 & H4).
    rewrite (appendNextChunk_taken env s H1 H2 H3 H4 He). cbn.
    unfold synced, bufferUpdating. cbn. repeat split; auto. discriminate.
  - rewrite appendNextChunk_blocked by exact Hd. cbn.
    unfold deliverable in Hd. unfold bufferUpdating in *.
    destruct (sourceBufferRef s) as [sb|]; [|congruence].
    destruct (updating sb) eqn:Hu; [right; right; auto|].
    rewrite Hflag in Hd. cbn in Hd. rewrite andb_true_r in Hd.
    right. left. repeat split.
    destruct (queueRef s); [reflexivity | discriminate Hd].
Qed.

Lemma holds_ref target s : holds target s = true -> sourceBufferRef s <> None.
Proof. unfold holds. destruct (sourceBufferRef s); congruence. Qed.

Lemma step_synced i ee s :
  sameSession (snd ee) = true -> firedBy i (snd ee) = true ->
  quotaExceeded (fst ee) = false ->
  holds i s = true -> synced s ->
  holds i (step ee s) = true /\ synced (step ee s).
Proof.
  destruct ee as [env e]. cbn [fst snd].
  intros He Hf Hq Hh (Hsb & Hflag & Hqueue).
  destruct e; try discriminate He.
  - split; [exact Hh | repeat split; assumption].
  - split; [exact Hh | repeat split; assumption].
  - split; [exact Hh | repeat split; assumption].
  - destruct reading as [ranges|]; [|discriminate Hf].
    cbn in Hf. apply Nat.eqb_eq in Hf. subst target.
    rewrite step_updateend.
    destruct (platform_updateend i (Some ranges) s)
      as (_ & Hq0 & _ & _ & Hu0 & _).
    specialize (Hu0 Hh).
    set (p := platform (UpdateEnd i (Some ranges)) s) in *.
    assert (Hhp : holds i p = true).
    { unfold p, holds in *. cbn.
      destruct (sourceBufferRef s) as [sb|]; [|discriminate Hh].
      rewrite Hh. cbn. exact Hh. }
    destruct (beforeNextChunk_log env ranges p) as (_ & Hq1 & Hsb1 & _).
    assert (Ha1 : isAppendingRef (beforeNextChunk env ranges p) = false)
      by apply beforeNextChunk_flag.
    set (s1 := beforeNextChunk env ranges p) in *.
    assert (Hh1 : holds i s1 = true) by (unfold holds; now rewrite Hsb1).
    assert (Hu1 : bufferUpdating s1 = false)
      by (unfold bufferUpdating; now rewrite Hsb1).
    assert (Hf1 : isAppendingRef s1 = bufferUpdating s1) by congruence.
    split; [now rewrite deliver_holds|].
    destruct (deliver_synced env s1 Hq (holds_ref i s1 Hh1) Hf1)
      as [H|[(Hsame & Hnil & _)|(_ & Habs)]].
    + exact H.
    + rewrite Hsame. split; [exact (holds_ref i s1 Hh1)|].
      split; [exact Hf1|]. intros Hne. congruence.
    + congruence.
  - unfold step, handle, synced, bufferUpdating, holds in *. cbn.
    destruct (wsRef s); cbn; repeat split; assumption.
  - rewrite step_message. split; [now rewrite deliver_holds|].
    assert (Hsb1 : sourceBufferRef (enqueued data s) <> None) by exact Hsb.
    assert (Hf1 : isAppendingRef (enqueued data s) =
                  bufferUpdating (enqueued data s)) by exact Hflag.
    destruct (deliver_synced env (enqueued data s) Hq Hsb1 Hf1)
      as [H|[(_ & Hnil & _)|(Hsame & Hup)]].
    + exact H.
    + cbn in Hnil. destruct (queueRef s); discriminate Hnil.
    + rewrite Hsame. split; [exact Hsb1|]. split; [exact Hf1|]. auto.
  - split; [exact Hh | repeat split; assumption].
  - unfold step, handle, synced, bufferUpdating, holds in *. cbn.
    destruct (wsRef s); cbn; repeat split; assumption.
Qed.

Lemma forallb_three {A} (f g h : A -> bool) l :
  forallb f l = true -> forallb g l = true -> forallb h l = true ->
  forallb (fun x => f x && g x && h x) l = true.
Proof.
  induction l as [|x l IH]; cbn; [reflexivity|].
  intros Hf Hg Hh. apply andb_prop in Hf. apply andb_prop in Hg.
  apply andb_prop in Hh.
  destruct Hf as [-> Hf], Hg as [-> Hg], Hh as [-> Hh]. cbn. auto.
Qed.

Lemma firedBy_readableOn i e : firedBy i e = true -> readableOn i e = true.
Proof. destruct e; try reflexivity. destruct reading; [reflexivity | discriminate]. Qed.

(** Whatever the flag is up for, one attempt leaves the queue on the
    move. *)
Lemma deliver_moving env s :
  quotaExceeded env = false -> sourceBufferRef s <> None ->
  (isAppendingRef s = true -> bufferUpdating s = true) ->
  moving (deliver env s).
Proof.
  intros He Hsb Hflag. unfold deliver.
  destruct (deliverable s) eqn:Hd.
  - destruct (deliverable_true s Hd) as (sb & c & r & H1 & H2 & H3 & H4).
    rewrite (appendNextChunk_taken env s H1 H2 H3 H4 He). cbn.
    unfold moving, bufferUpdating. cbn. repeat split; auto. discriminate.
  - rewrite appendNextChunk_blocked by exact Hd. cbn.
    split; [exact Hsb|]. split; [exact Hflag|].
    intros Hq. unfold deliverable in Hd. unfold bufferUpdating in *.
    destruct (sourceBufferRef s) as [sb|]; [|congruence].
    destruct (updating sb); [reflexivity|].
    destruct (isAppendingRef s); [now apply Hflag|].
    destruct (queueRef s); [congruence | discriminate Hd].
Qed.

Lemma platform_holds i e s :
  sameSession e = true -> holds i (platform e s) = holds i s.
Proof.
  unfold holds. destruct e; try discriminate; intros _; cbn; try reflexivity.
  - destruct (sourceBufferRef s) as [sb|] eqn:Hsb; [|now rewrite Hsb].
    destruct (ident sb =? target); cbn; now rewrite ?Hsb.
  - destruct (wsRef s); reflexivity.
  - destruct (wsRef s); reflexivity.
Qed.

Lemma step_moving i ee s :
  sameSession (snd ee) = true -> readableOn i (snd ee) = true ->
  quotaExceeded (fst ee) = false ->
  holds i s = true -> moving s ->
  holds i (step ee s) = true /\ moving (step ee s).
Proof.
  destruct ee as [env e]. cbn [fst snd].
  intros He Hr Hq Hh (Hsb & Hflag & Hqueue).
  destruct e; try discriminate He.
  - split; [exact Hh | repeat split; assumption].
  - split; [exact Hh | repeat split; assumption].
  - split; [exact Hh | repeat split; assumption].
  - assert (Hhp : holds i (platform (UpdateEnd target reading) s) = true)
      by (now rewrite platform_holds).
    destruct reading as [ranges|].
    + rewrite step_updateend.
      match goal with
      | |- context [beforeNextChunk env ranges ?x] => set (p := x) in *
      end.
      destruct (beforeNextChunk_log env ranges p) as (_ & _ & Hsb1 & _).
      assert (Ha1 : isAppendingRef (beforeNextChunk env ranges p) = false)
        by apply beforeNextChunk_flag.
      set (s1 := beforeNextChunk env ranges p) in *.
      assert (Hh1 : holds i s1 = true) by (unfold holds; now rewrite Hsb1).
      split; [now rewrite deliver_holds|].
      apply deliver_moving; [exact Hq | exact (holds_ref i s1 Hh1) |].
      congruence.
    + cbn in Hr. apply negb_true_iff in Hr.
      assert (Hno : holds target s = false).
      { unfold holds in *. destruct (sourceBufferRef s) as [sb|]; [|reflexivity].
        apply Nat.eqb_eq in Hh. apply Nat.eqb_neq in Hr.
        apply Nat.eqb_neq. congruence. }
      rewrite step_unreadable, (@platform_updateend_released _ _ _ Hno).
      split; [exact Hh|]. split; [exact Hsb|]. split; [discriminate|].
      exact Hqueue.
  - unfold step, handle, moving, bufferUpdating, holds in *. cbn.
    destruct (wsRef s); cbn; repeat split; assumption.
  - rewrite step_message. split; [now rewrite deliver_holds|].
    apply deliver_moving; [exact Hq | exact Hsb | exact Hflag].
  - split; [exact Hh | repeat split; assumption].
  - unfold step, handle, moving, bufferUpdating, holds in *. cbn.
    destruct (wsRef s); cbn; repeat split; assumption.
Qed.

(** X15. As long as the decode buffer accepts every append and the
    source buffer the hook holds never fires an 'updateend' whose
    ranges cannot be read, the queue is non-empty only while an append
    is in flight, and the hook's [isAppending] flag is up only then:
    a queued segment never waits on an idle buffer.  This also holds
    across 'updateend' events of buffers of earlier sessions.  If
    every 'updateend' comes from the buffer the hook holds, the
    hook's flag and the buffer's [updating] flag agree throughout. *)
Theorem queue_never_stalls (tr : list (Env * Event)) (s : State) (i : nat) :
  inSession tr = true -> neverFull tr = true ->
  holds i s = true -> allReadableOn i tr = true -> moving s ->
  (queueRef (run tr s) <> [] -> bufferUpdating (run tr s) = true) /\
  (isAppendingRef (run tr s) = true -> bufferUpdating (run tr s) = true) /\
  sourceBufferRef (run tr s) <> None /\ holds i (run tr s) = true /\
  (allFiredBy i tr = true -> isAppendingRef s = bufferUpdating s ->
   isAppendingRef (run tr s) = bufferUpdating (run tr s)).
Proof.
  intros Hin Hnf Hh Hread Hs.
  assert (H : holds i (run tr s) = true /\ moving (run tr s)).
  { apply run_invariant with
      (I := fun t => holds i t = true /\ moving t)
      (allowed := fun ee => sameSession (snd ee) && readableOn i (snd ee)
                            && negb (quotaExceeded (fst ee))).
    - intros ee t Hee [Ht1 Ht2]. apply andb_prop in Hee.
      destruct Hee as [Hee H3]. apply andb_prop in Hee. destruct Hee as [H1 H2].
      apply negb_true_iff in H3. now apply step_moving.
    - unfold inSession in Hin. unfold neverFull in Hnf.
      unfold allReadableOn in Hread.
      exact (forallb_three _ _ _ _ Hin Hread Hnf).
    - auto. }
  destruct H as (H0 & H1 & H2 & H3).
  repeat (split; [assumption|]).
  intros Hown Heq.
  assert (Hsy : synced s).
  { destruct Hs as (S1 & _ & S3). split; [exact S1|]. split; assumption. }
  assert (H : holds i (run tr s) = true /\ synced (run tr s)).
  { apply run_invariant with
      (I := fun t => holds i t = true /\ synced t)
      (allowed := fun ee => sameSession (snd ee) && firedBy i (snd ee)
                            && negb (quotaExceeded (fst ee))).
    - intros ee t Hee [Ht1 Ht2]. apply andb_prop in Hee.
      destruct Hee as [Hee E3]. apply andb_prop in Hee. destruct Hee as [E1 E2].
      apply negb_true_iff in E3. now apply step_synced.
    - unfold inSession in Hin. unfold neverFull in Hnf.
      unfold allFiredBy in Hown.
      exact (forallb_three _ _ _ _ Hin Hown Hnf).
    - auto. }
  apply H.
Qed.

Lemma queue_never_stalls_witness :
  inSession crossing_trace = true /\ neverFull crossing_trace = true /\
  holds 0 session = true /\ allReadableOn 0 crossing_trace = true /\
  allFiredBy 0 crossing_trace = true /\ moving session /\
  isAppendingRef (run crossing_trace session) =
    bufferUpdating (run crossing_trace session) /\
  (let t := run [(fine, WsMessage s1); (fine, WsMessage s2)] session in
   queueRef t = [s2] /\ bufferUpdating t = true) /\
  (let tr := [(fine, WsMessage s1); (fine, Connect); (fine, SourceOpen);
              (fine, WsOpen); (fine, WsMessage s2); (fine, WsMessage s3)] in
   let late := [(fine, UpdateEnd 0 None); (fine, WsMessage s1)] in
   holds 1 (run tr session) = true /\ allReadableOn 1 late = true /\
   queueRef (run late (run tr session)) = [s3; s1] /\
   isAppendingRef (run late (run tr session)) = false /\
   bufferUpdating (run late (run tr session)) = true).
Proof.
  assert (Hs : moving session).
  { split; [discriminate|]. split; [discriminate|].
    intros H. exfalso. apply H. reflexivity. }
  destruct (@queue_never_stalls crossing_trace session 0
              eq_refl eq_refl eq_refl eq_refl Hs)
    as (_ & _ & _ & _ & Heq).
  destruct (@queue_never_stalls
              [(fine, WsMessage s1); (fine, WsMessage s2)]
              session 0 eq_refl eq_refl eq_refl eq_refl Hs)
    as (Hq & _).
  split; [reflexivity|]. split; [reflexivity|]. split; [reflexivity|].
  split; [reflexivity|]. split; [reflexivity|]. split; [exact Hs|].
  split; [exact (Heq eq_refl eq_refl)|]. split.
  - cbv zeta. split; [reflexivity|]. apply Hq. discriminate.
  - cbv zeta.
    assert (Hm : moving (run [(fine, WsMessage s1); (fine, Connect);
                              (fine, SourceOpen); (fine, WsOpen);
                              (fine, WsMessage s2); (fine, WsMessage s3)]
                           session)).
    { split; [discriminate|]. split; [reflexivity|]. reflexivity. }
    destruct (@queue_never_stalls
                [(fine, UpdateEnd 0 None); (fine, WsMessage s1)]
                (run [(fine, WsMessage s1); (fine, Connect);
                      (fine, SourceOpen); (fine, WsOpen);
                      (fine, WsMessage s2); (fine, WsMessage s3)] session)
                1 eq_refl eq_refl eq_refl eq_refl Hm)
      as (Hq2 & _).
    split; [reflexivity|]. split; [reflexivity|]. split; [reflexivity|].
    split; [reflexivity|]. apply Hq2. discriminate.
Defined.

(** Without the proviso on 'updateend' the flags can part: the
    'updateend' of the buffer of an earlier session clears
    [isAppendingRef] while the buffer of the new session is still
    working on [s2]; here the read of [buffered] fails as well. *)
Example reconnect_trace_flags :
  let t := run reconnect_trace session in
  inSession [(fine, UpdateEnd 0 None)] = true /\
  holds 1 t = true /\ isAppendingRef t = false /\ bufferUpdating t = true /\
  snd (handle fine (UpdateEnd 0 None)
         (run [(fine, WsMessage s1); (fine, Connect); (fine, SourceOpen);
               (fine, WsOpen); (fine, WsMessage s2)] session)) =
    Throw InvalidStateError /\
  log t = [AppendBuffer s1 true; CloseSocket; EndOfStream false;
           AppendBuffer s2 true].
Proof. cbv zeta. repeat split; reflexivity. Qed.




(** ** Properties beyond the claims: a callback after teardown *)

(** X20. [disconnect()] does not silence the source buffer it lets
    go of.  When that buffer fires 'updateend' afterwards, for the
    append that was in flight, its listener still runs against the
    hook: it writes the buffered duration into the statistics that
    [cleanup] had reset (with a byte count of zero), and if the
    duration is greater than 0.5 while the video is paused it calls
    [play()] and clears [isBuffering].  The status line stays at
    "Disconnected", nothing is handed to [appendBuffer], and the hook
    holds no source buffer. *)
Theorem late_updateend_after_disconnect
    (env env' : Env) (target : nat) (start0 end0 : number)
    (ranges : TimeRanges) (s : State) :
  let t := step (env, Disconnect) s in
  let t' := step (env', UpdateEnd target (Some ((start0, end0) :: ranges))) t in
  stats t = {| bufferedSeconds := 0%float; bytesReceived := 0%Z |} /\
  stats t' = {| bufferedSeconds := (end0 - start0)%float;
                bytesReceived := 0%Z |} /\
  status t' = Disconnected /\
  submitted (log t') = submitted (log t) /\
  queueRef t' = [] /\ sourceBufferRef t' = None /\
  (if gtb (end0 - start0)%float 0.5%float && paused (video s)
   then plays (log t') = S (plays (log t)) /\ isBuffering t' = false
   else plays (log t') = plays (log t) /\ isBuffering t' = true).
Proof.
  cbv zeta. rewrite step_disconnect, step_updateend.
  rewrite platform_updateend_released by reflexivity. unfold deliver.
  rewrite appendNextChunk_blocked.
  - cbn [fst]. unfold beforeNextChunk.
    cbn [video tornDown set_isAppendingRef bytesReceivedRef].
    destruct (gtb (end0 - start0)%float 0.5%float && paused (video s)).
    + unfold play. cbn. destruct (playAllowed env'); cbn;
        rewrite plays_app, submitted_app; cbn;
        rewrite app_nil_r, Nat.add_1_r; repeat split; reflexivity.
    + cbn. repeat split; reflexivity.
  - unfold deliverable.
    destruct (beforeNextChunk_log env' ((start0, end0) :: ranges) (tornDown env s))
      as (_ & _ & -> & _).
    reflexivity.
Qed.

Example late_trace_outcome :
  let t := run late_trace session in
  status t = Disconnected /\ isBuffering t = false /\
  stats t = {| bufferedSeconds := 1%float; bytesReceived := 0%Z |} /\
  log t = [AppendBuffer s1 true; CloseSocket; EndOfStream false; Play].
Proof. cbv zeta. repeat split; reflexivity. Qed.

End ClientProps.

(* ================================================================== *)
(** * Properties of the capture command line and the device listing *)
(* ================================================================== *)

Module CaptureProps.
Import Stdlib.Strings.String.
Import Capture.

Local Open Scope string_scope.
Local Open Scope list_scope.

Section WithNumbers.

Variable number : Type.
Variable toString : number -> string.

(** X18. The platform given in the options wins over the host
    platform, which is used when none is given.  On win32 the input
    is the whole desktop through gdigrab and the configured screen
    index plays no role in the command line; on every other platform,
    whatever its name, the input is avfoundation on
    [<screenIndex>:none].  In both cases the frame rate is passed as
    given and the stream is written to stdout. *)
Theorem capture_input_follows_platform
    (host : string) (o o2 : CaptureOptions number) :
  let o' := construct host o in
  (forall p, platform o = Some p -> p <> "" ->
     platform o' = Some p) /\
  (platform o = None -> platform o' = Some host) /\
  (platform o' = Some "win32" ->
     inputArgs toString o' =
       ["-f"; "gdigrab"; "-framerate"; toString (fps o); "-i"; "desktop"] /\
     (fps o2 = fps o -> width o2 = width o -> height o2 = height o ->
      platform o2 = platform o ->
      buildFFmpegArgs toString (construct host o2) =
        buildFFmpegArgs toString o')) /\
  (platform o' <> Some "win32" ->
     inputArgs toString o' =
       ["-f"; "avfoundation"; "-framerate"; toString (fps o);
        "-capture_cursor"; "1"; "-i"; (screenIndex o ++ ":none")%string]) /\
  last (buildFFmpegArgs toString o') "" = "pipe:1".
Proof.
  cbv zeta. split; [|split; [|split; [|split]]].
  - intros p Hp Hne. cbn. rewrite Hp. cbn.
    destruct (String.eqb_spec p ""); [contradiction | reflexivity].
  - intros Hp. cbn. now rewrite Hp.
  - intros Hw. unfold inputArgs, buildFFmpegArgs, inputArgs.
    rewrite Hw. cbn [isWin32]. rewrite String.eqb_refl. split; [reflexivity|].
    intros Hf Hwd Hh Hp.
    assert (Hw2 : platform (construct host o2) = Some "win32")
      by (cbn in *; now rewrite Hp).
    rewrite Hw2. cbn [isWin32]. rewrite String.eqb_refl.
    cbn. now rewrite Hf, Hwd, Hh.
  - intros Hw. unfold inputArgs. cbn in *.
    destruct (String.eqb_spec (orElse (platform o) host) "win32") as [E|E];
      [rewrite E in Hw; contradiction | reflexivity].
  - unfold buildFFmpegArgs, inputArgs.
    destruct (isWin32 (platform (construct host o))); reflexivity.
Qed.

End WithNumbers.

Lemma capture_input_follows_platform_witness :
  platform (construct "linux" CAPTURE_OPTIONS) <> Some "win32" /\
  buildFFmpegArgs decimal (construct "linux" CAPTURE_OPTIONS) =
    ["-f"; "avfoundation"; "-framerate"; "30"; "-capture_cursor"; "1";
     "-i"; "4:none"; "-vf"; "scale=1280:720"; "-c:v"; "libvpx";
     "-quality"; "realtime"; "-speed"; "8"; "-threads"; "4";
     "-pix_fmt"; "yuv420p"; "-g"; "30"; "-b:v"; "2500k";
     "-maxrate"; "2500k"; "-bufsize"; "500k"; "-f"; "webm";
     "-cluster_size_limit"; "512k"; "-cluster_time_limit"; "1000";
     "-an"; "pipe:1"] /\
  inputArgs decimal (construct "linux" CAPTURE_OPTIONS) =
    ["-f"; "avfoundation"; "-framerate"; "30"; "-capture_cursor"; "1";
     "-i"; "4:none"] /\
  platform (construct "win32" CAPTURE_OPTIONS) = Some "win32" /\
  inputArgs decimal (construct "win32" CAPTURE_OPTIONS) =
    ["-f"; "gdigrab"; "-framerate"; "30"; "-i"; "desktop"].
Proof.
  assert (Hl : platform (construct "linux" CAPTURE_OPTIONS) <> Some "win32")
    by discriminate.
  destruct (capture_input_follows_platform decimal "linux"
              CAPTURE_OPTIONS CAPTURE_OPTIONS) as (_ & _ & _ & Hav & _).
  destruct (capture_input_follows_platform decimal "win32"
              CAPTURE_OPTIONS CAPTURE_OPTIONS) as (_ & _ & Hwin & _).
  split; [exact Hl|]. split; [reflexivity|]. split; [exact (Hav Hl)|].
  split; [reflexivity|]. exact (proj1 (Hwin eq_refl)).
Defined.

(** ** The device listing *)

Lemma append_assoc3 (a b c : string) : ((a ++ b) ++ c = a ++ (b ++ c))%string.
Proof. induction a as [|x a IH]; cbn; [reflexivity | now rewrite IH]. Qed.

Lemma append_empty_r (a : string) : (a ++ "" = a)%string.
Proof. induction a as [|x a IH]; cbn; [reflexivity | now rewrite IH]. Qed.

Lemma stderr_accumulates chunks : forall l,
  fold_left (fun l e => onChild e l) (map Stderr chunks) l =
    {| output := (output l ++ joined chunks)%string; promise := promise l |}.
Proof.
  induction chunks as [|c cs IH]; intros [out p]; cbn.
  - now rewrite append_empty_r.
  - rewrite IH. cbn. now rewrite append_assoc3.
Qed.

Lemma settled_stays evs : forall l,
  promise l <> Pending ->
  promise (fold_left (fun l e => onChild e l) evs l) = promise l.
Proof.
  induction evs as [|e evs IH]; intros l Hl; [reflexivity|].
  cbn. rewrite IH.
  - destruct e; cbn; try reflexivity;
      destruct (promise l) eqn:E; cbn; congruence.
  - destruct e; cbn; try exact Hl;
      destruct (promise l) eqn:E; cbn; congruence.
Qed.

(** X19. The listing promise settles once, on the first 'close' or
    'error' of the child: a 'close' resolves it with everything
    stderr printed before it, in order; an 'error' rejects it with
    that error; whatever the child reports afterwards changes
    nothing; and without either the promise stays pending. *)
Theorem listing_settles_once
    (chunks : list string) (err : string) (rest : list ChildEvent) :
  promise (listCaptureDevices (map Stderr chunks ++ ChildClose :: rest)) =
    Resolved (joined chunks) /\
  promise (listCaptureDevices (map Stderr chunks ++ ChildError err :: rest)) =
    Rejected err /\
  promise (listCaptureDevices (map Stderr chunks)) = Pending.
Proof.
  unfold listCaptureDevices. rewrite !fold_left_app, !stderr_accumulates.
  cbn [fold_left listing0 output promise onChild settle].
  rewrite !settled_stays by (cbn; discriminate).
  cbn. auto.
Qed.

End CaptureProps.
